(** * roll: dice notation, lexer, parser, roll counter and evaluator

    A shallow embedding of [src/roll.ts] (the lexer [lex], the recursive
    descent parser [parse], [countRolls], [evaluate] and the facade [roll])
    and the properties of the specification checked against it.

    Modelling conventions.
    - A JS string is a [string]: a sequence of code units, here the code
      units 0..255.  [expression[offset]] is [charAt], [slice] is [slice].
    - A JS number is a [number]: finite numbers are exact rationals kept in
      lowest terms, and [Infinity], [-Infinity] and [NaN] are explicit.
      Rounding of doubles (integers above 2^53, inexact quotients), overflow
      and the sign of zero are not tracked.  Integer literals, dice counts
      and roll counts are exact naturals ([N]).  The statements on sums
      and on arithmetic are made where the doubles do not round
      ([isDouble]); the arithmetic on the doubles themselves is
      [evaluate64], on the binary64 numbers of the kernel.
    - [throw] is the [Throw] outcome; the loops of the lexer and of the
      parser run on fuel, and [Diverge] (fuel exhausted) is shown never to
      happen for the fuel they are given.
    - The randomness source is a function with a state of its own,
      threaded through the evaluation in the order of the calls. *)

From Stdlib Require Import List String Ascii Bool Arith NArith ZArith QArith Lia.
From Stdlib Require Import Permutation Sorted DecimalString Qround.
From Stdlib Require Qcanon.
From Stdlib Require Floats.
Import ListNotations.

Close Scope Q_scope.
Close Scope Z_scope.
Local Open Scope string_scope.

(* ------------------------------------------------------------------ *)
(** ** Outcomes of a computation *)

Inductive Exception : Type :=
| DiceNotationError (message : string) (expression : string) (offset : nat)
| TooManyDiceError (dice : N)
| Error (message : string)
| TypeError     (* a property read on [undefined] *)
| RangeError    (* an invalid array length *)
| Unreachable.  (* a cast the TypeScript types make safe *)

Inductive outcome (A : Type) : Type :=
| Ok (a : A)
| Throw (e : Exception)
| Diverge.

Arguments Ok {A} a.
Arguments Throw {A} e.
Arguments Diverge {A}.

(** State and exception monad: the parser threads [current], the evaluator
    threads the state of the randomness source. *)
Definition M (St A : Type) : Type := St -> outcome (A * St).

Definition ret {St A} (a : A) : M St A := fun s => Ok (a, s).

Definition throw {St A} (e : Exception) : M St A := fun _ => Throw e.

Definition bind {St A B} (m : M St A) (k : A -> M St B) : M St B :=
  fun s =>
    match m s with
    | Ok (a, s') => k a s'
    | Throw e => Throw e
    | Diverge => Diverge
    end.

Declare Scope monad_scope.
Delimit Scope monad_scope with monad.
Notation "x <- m ;; k" := (bind m (fun x => k))
  (at level 61, m at next level, right associativity) : monad_scope.
Notation "m ;;; k" := (bind m (fun _ => k))
  (at level 61, right associativity) : monad_scope.

(* ------------------------------------------------------------------ *)
(** ** Numbers *)

Inductive number : Type :=
| Num (q : Q)
| Infinity
| NegInfinity
| NaN.

Definition ofN (n : N) : number := Num (inject_Z (Z.of_N n)).
Definition ofZ (z : Z) : number := Num (inject_Z z).

(** Unary minus. *)
Definition neg (x : number) : number :=
  match x with
  | Num q => Num (Qred (- q)%Q)
  | Infinity => NegInfinity
  | NegInfinity => Infinity
  | NaN => NaN
  end.

(** [a + b] *)
Definition add (x y : number) : number :=
  match x, y with
  | NaN, _ | _, NaN => NaN
  | Num a, Num b => Num (Qred (a + b)%Q)
  | Infinity, NegInfinity | NegInfinity, Infinity => NaN
  | Infinity, _ | _, Infinity => Infinity
  | NegInfinity, _ | _, NegInfinity => NegInfinity
  end.

(** [a - b] *)
Definition sub (x y : number) : number := add x (neg y).

(** An infinity scaled by a finite factor. *)
Definition scaleInf (inf : number) (a : Q) : number :=
  match (a ?= 0)%Q with
  | Eq => NaN
  | Gt => inf
  | Lt => neg inf
  end.

(** [a * b] *)
Definition mul (x y : number) : number :=
  match x, y with
  | NaN, _ | _, NaN => NaN
  | Num a, Num b => Num (Qred (a * b)%Q)
  | Num a, inf => scaleInf inf a
  | inf, Num b => scaleInf inf b
  | Infinity, Infinity | NegInfinity, NegInfinity => Infinity
  | Infinity, NegInfinity | NegInfinity, Infinity => NegInfinity
  end.

(** [a / b]: real division, nothing is rounded to an integer.  A finite
    number over zero is an infinity of its sign, [0 / 0] is [NaN]. *)
Definition div (x y : number) : number :=
  match x, y with
  | NaN, _ | _, NaN => NaN
  | Num a, Num b =>
      match (b ?= 0)%Q with
      | Eq => match (a ?= 0)%Q with
              | Eq => NaN
              | Gt => Infinity
              | Lt => NegInfinity
              end
      | _ => Num (Qred (a / b)%Q)
      end
  | Num _, _ => Num 0%Q
  | inf, Num b => match (b ?= 0)%Q with Lt => neg inf | _ => inf end
  | _, _ => NaN
  end.

(** [a > b] *)
Definition gt (x y : number) : bool :=
  match x, y with
  | NaN, _ | _, NaN => false
  | Num a, Num b => match (a ?= b)%Q with Gt => true | _ => false end
  | Infinity, Infinity => false
  | Infinity, _ => true
  | _, NegInfinity => match x with NegInfinity => false | _ => true end
  | _, _ => false
  end.

(** Truthiness of a number: [0] and [NaN] are falsy. *)
Definition truthy (x : number) : bool :=
  match x with
  | Num q => negb (Qeq_bool q 0%Q)
  | NaN => false
  | _ => true
  end.

(** ToIntegerOrInfinity: truncation towards zero, [NaN] is [0]. *)
Inductive integerOrInfinity : Type :=
| Int (z : Z)
| PlusInf
| MinusInf.

Definition toIntegerOrInfinity (x : number) : integerOrInfinity :=
  match x with
  | Num q => Int (Z.quot (Qnum q) (Zpos (Qden q)))
  | Infinity => PlusInf
  | NegInfinity => MinusInf
  | NaN => Int 0
  end.

(* ------------------------------------------------------------------ *)
(** ** Strings *)

Definition charAt (s : string) (i : nat) : option ascii :=
  nth_error (list_ascii_of_string s) i.

(** [s.slice(start, end_)] for [0 <= start], [0 <= end_]. *)
Definition slice (s : string) (start end_ : nat) : string :=
  string_of_list_ascii
    (firstn (end_ - start) (skipn start (list_ascii_of_string s))).

Definition ofChar (c : ascii) : string := String c EmptyString.

(** [s[i] === c], the comparison of a [case] of a [switch] on [s[i]];
    [s[i]] is [undefined] past the end. *)
Definition charIs (x : option ascii) (c : ascii) : bool :=
  match x with
  | Some x' => (x' =? c)%char
  | None => false
  end.

Definition newline : string := ofChar (ascii_of_nat 10).

(** [Array(n).fill(" ").join("")] *)
Fixpoint spaces (n : nat) : string :=
  match n with
  | O => ""
  | S n' => " " ++ spaces n'
  end.

(* ------------------------------------------------------------------ *)
(** ** Tokens *)

Inductive OperatorType : Type := PLUS | MINUS | STAR | SLASH.
Inductive DiceModifierType : Type := KEEP_HIGHEST | KEEP_LOWEST.

(** [TokenType] is the union of the two types above and five more tags. *)
Inductive TokenType : Type :=
| Operator (o : OperatorType)
| DiceModifier (m : DiceModifierType)
| NUMBER
| DICE
| PAREN_OPEN
| PAREN_CLOSE
| EOF.

Coercion Operator : OperatorType >-> TokenType.
Coercion DiceModifier : DiceModifierType >-> TokenType.

Definition OperatorType_eqb (a b : OperatorType) : bool :=
  match a, b with
  | PLUS, PLUS | MINUS, MINUS | STAR, STAR | SLASH, SLASH => true
  | _, _ => false
  end.

Definition DiceModifierType_eqb (a b : DiceModifierType) : bool :=
  match a, b with
  | KEEP_HIGHEST, KEEP_HIGHEST | KEEP_LOWEST, KEEP_LOWEST => true
  | _, _ => false
  end.

Definition TokenType_eqb (a b : TokenType) : bool :=
  match a, b with
  | Operator x, Operator y => OperatorType_eqb x y
  | DiceModifier x, DiceModifier y => DiceModifierType_eqb x y
  | NUMBER, NUMBER | DICE, DICE | PAREN_OPEN, PAREN_OPEN
  | PAREN_CLOSE, PAREN_CLOSE | EOF, EOF => true
  | _, _ => false
  end.

(** A token; [literal] is present on [NUMBER] tokens only. *)
Record Token : Type := mkToken {
  type : TokenType;
  lexeme : string;
  offset : nat;
  literal : option N
}.

Definition baseToken (t : TokenType) (lx : string) (off : nat) : Token :=
  {| type := t; lexeme := lx; offset := off; literal := None |}.

(* ------------------------------------------------------------------ *)
(** ** Lexer *)

Definition codeOf (c : ascii) : N := N_of_ascii c.

(** [char >= "0" && char <= "9"] *)
Definition isDigit (char : ascii) : bool :=
  ((codeOf "0" <=? codeOf char) && (codeOf char <=? codeOf "9"))%N.

(** [char.match(/\s/)]: the white space and line terminator code units
    up to 255. *)
Definition isSpace (char : ascii) : bool :=
  let c := codeOf char in
  ((9 <=? c) && (c <=? 13) || (c =? 32) || (c =? 160))%N.

Definition digitValue (char : ascii) : N := (codeOf char - codeOf "0")%N.

(** [parseInt] of a run of decimal digits. *)
Definition parseInt (s : string) : N :=
  fold_left (fun acc c => (10 * acc + digitValue c)%N)
            (list_ascii_of_string s) 0%N.

(** [while (isDigit(expression[offset])) offset++], as the number of
    characters the loop passes over. *)
Fixpoint digitRun (cs : list ascii) : nat :=
  match cs with
  | c :: cs' => if isDigit c then S (digitRun cs') else 0
  | [] => 0
  end.

(** The message built by the constructor of [DiceNotationError]. *)
Definition diceNotationMessage (message expression : string) (off : nat)
  : string :=
  "Error: " ++ message ++ newline ++ "```" ++ newline ++ expression
  ++ newline ++ spaces off ++ "^" ++ newline ++ "```" ++ newline.

Record LexState : Type := mkLexState {
  lexOffset : nat;
  lexTokens : list Token;
  lexErrors : list Exception
}.

Section Lexer.

Variable expression : string.

Definition push {A} (l : list A) (x : A) : list A := l ++ [x].

Definition single (st : LexState) (t : TokenType) (char : ascii)
  : LexState :=
  let off := lexOffset st in
  mkLexState (S off)
             (push (lexTokens st) (baseToken t (ofChar char) off))
             (lexErrors st).

(** One turn of the [while] loop of [lex], [char] being
    [expression[offset]]. *)
Definition lexStep (st : LexState) (char : ascii) : LexState :=
  let off := lexOffset st in
  let tokens := lexTokens st in
  let errors := lexErrors st in
  if isSpace char then mkLexState (S off) tokens errors
  else if isDigit char then
    let start := off in
    let off' :=
      off + digitRun (skipn off (list_ascii_of_string expression)) in
    let number := slice expression start off' in
    mkLexState off'
      (push tokens {| type := NUMBER; lexeme := number; offset := start;
                      literal := Some (parseInt number) |})
      errors
  else if (char =? "d")%char then
    let start := off in
    let off' := S off in
    mkLexState off'
      (push tokens (baseToken DICE (slice expression start off') start))
      errors
  else if (char =? "+")%char then single st PLUS char
  else if (char =? "-")%char then single st MINUS char
  else if (char =? "*")%char then single st STAR char
  else if (char =? "/")%char then single st SLASH char
  else if (char =? "(")%char then single st PAREN_OPEN char
  else if (char =? ")")%char then single st PAREN_CLOSE char
  else if (char =? "k")%char then
    let off' := S off in
    let next := charAt expression off' in
    if charIs next "h" then
      mkLexState (S off')
        (push tokens (baseToken KEEP_HIGHEST "kh" off')) errors
    else if charIs next "l" then
      mkLexState (S off')
        (push tokens (baseToken KEEP_LOWEST "kh" off')) errors
    else
      mkLexState off' tokens
        (push errors
           (DiceNotationError
              (diceNotationMessage ("Unexpected " ++ ofChar char)
                                   expression off')
              expression off'))
  else if (char =? "h")%char then single st KEEP_HIGHEST char
  else if (char =? "l")%char then single st KEEP_LOWEST char
  else
    mkLexState (S off) tokens
      (push errors
         (DiceNotationError
            (diceNotationMessage ("Unexpected '" ++ ofChar char ++ "'!")
                                 expression off)
            expression off)).

(** [while (offset < expression.length) { ... }] *)
Fixpoint lexLoop (fuel : nat) (st : LexState) : option LexState :=
  match charAt expression (lexOffset st) with
  | None => Some st
  | Some char =>
      match fuel with
      | O => None
      | S fuel' => lexLoop fuel' (lexStep st char)
      end
  end.

Definition lexRun : option LexState :=
  lexLoop (String.length expression) (mkLexState 0 [] []).

Definition lex : outcome (list Token) :=
  match lexRun with
  | None => Diverge
  | Some st =>
      match lexErrors st with
      | e :: _ => Throw e
      | [] => Ok (push (lexTokens st) (baseToken EOF "" (lexOffset st)))
      end
  end.

End Lexer.

(* ------------------------------------------------------------------ *)
(** ** Syntax trees *)

Record DiceNode : Type := mkDice {
  numDice : N;
  numSides : N
}.

(** [ASTNode]; the [type] tag of each variant is its constructor. *)
Inductive ASTNode : Type :=
| NumberNode (value : N)
| Dice (dice : DiceNode)
| BinaryOpNode (left : ASTNode) (operator : OperatorType) (right : ASTNode)
| DiceModifierNode (left : DiceNode) (operator : DiceModifierType)
                   (right : ASTNode)
| GroupingNode (expression : ASTNode).

(* ------------------------------------------------------------------ *)
(** ** Parser *)

Definition showOperatorType (o : OperatorType) : string :=
  match o with
  | PLUS => "PLUS" | MINUS => "MINUS" | STAR => "STAR" | SLASH => "SLASH"
  end.

Definition showTokenType (t : TokenType) : string :=
  match t with
  | Operator o => showOperatorType o
  | DiceModifier KEEP_HIGHEST => "KEEP_HIGHEST"
  | DiceModifier KEEP_LOWEST => "KEEP_LOWEST"
  | NUMBER => "NUMBER"
  | DICE => "DICE"
  | PAREN_OPEN => "PAREN_OPEN"
  | PAREN_CLOSE => "PAREN_CLOSE"
  | EOF => "EOF"
  end.

(** Decimal text of an offset. *)
Definition showNat (n : nat) : string :=
  NilEmpty.string_of_uint (Nat.to_uint n).

Definition diverge {St A} : M St A := fun _ => Diverge.

Local Open Scope monad_scope.

Section Parser.

Variable tokens : list Token.

(** The state is [current]. *)
Definition Parser (A : Type) : Type := M nat A.

(** [tokens[current]]; every caller reads a property of the token at
    once, which throws [TypeError] when there is none. *)
Definition peek : Parser Token :=
  fun current =>
    match nth_error tokens current with
    | Some token => Ok (token, current)
    | None => Throw TypeError
    end.

Definition advance : Parser Token :=
  token <- peek ;;
  fun current => Ok (token, S current).

(** [tokens[current - 1]] *)
Definition previous : Parser Token :=
  fun current =>
    match current with
    | O => Throw TypeError
    | S c => match nth_error tokens c with
             | Some token => Ok (token, current)
             | None => Throw TypeError
             end
    end.

(** [tokens[current + 1]?.type] *)
Definition nextType : Parser (option TokenType) :=
  fun current => Ok (option_map type (nth_error tokens (S current)), current).

Definition includes (types : list TokenType) (t : TokenType) : bool :=
  existsb (TokenType_eqb t) types.

Definition match_ (types : list TokenType) : Parser bool :=
  token <- peek ;;
  if includes types (type token) then advance ;;; ret true
  else ret false.

Definition expect (t : TokenType) : Parser Token :=
  token <- peek ;;
  if TokenType_eqb (type token) t then advance
  else throw (Error ("Expected " ++ showTokenType t ++ " at offset "
                     ++ showNat (offset token))).

(** [(token as NumberToken).literal] *)
Definition literalOf (token : Token) : Parser N :=
  match literal token with
  | Some n => ret n
  | None => throw Unreachable
  end.

(** [token.type as OperatorType] *)
Definition asOperator (token : Token) : Parser OperatorType :=
  match type token with
  | Operator o => ret o
  | _ => throw Unreachable
  end.

(** [token.type as DiceModifierType] *)
Definition asDiceModifier (token : Token) : Parser DiceModifierType :=
  match type token with
  | DiceModifier m => ret m
  | _ => throw Unreachable
  end.

(** The [while] loop of [factor], [expr] being the operand built so
    far; [primary] is the production it calls. *)
Fixpoint factorLoop (primary : Parser ASTNode) (fuel : nat)
         (expr : ASTNode) : Parser ASTNode :=
  m <- match_ [Operator STAR; Operator SLASH] ;;
  if m then
    match fuel with
    | O => diverge
    | S fuel' =>
        token <- previous ;;
        operator <- asOperator token ;;
        right <- primary ;;
        factorLoop primary fuel' (BinaryOpNode expr operator right)
    end
  else ret expr.

Definition factor (primary : Parser ASTNode) : Parser ASTNode :=
  expr <- primary ;;
  factorLoop primary (List.length tokens) expr.

(** The [while] loop of [term]. *)
Fixpoint termLoop (primary : Parser ASTNode) (fuel : nat)
         (expr : ASTNode) : Parser ASTNode :=
  m <- match_ [Operator MINUS; Operator PLUS] ;;
  if m then
    match fuel with
    | O => diverge
    | S fuel' =>
        token <- previous ;;
        operator <- asOperator token ;;
        right <- factor primary ;;
        termLoop primary fuel' (BinaryOpNode expr operator right)
    end
  else ret expr.

Definition term (primary : Parser ASTNode) : Parser ASTNode :=
  expr <- factor primary ;;
  termLoop primary (List.length tokens) expr.

Definition dice (primary : Parser ASTNode) : Parser ASTNode :=
  m <- match_ [NUMBER] ;;
  numDice <- (if m then token <- previous ;; literalOf token
              else ret 1%N) ;;
  expect DICE ;;;
  token <- expect NUMBER ;;
  numSides <- literalOf token ;;
  let dice := mkDice numDice numSides in
  m <- match_ [DiceModifier KEEP_HIGHEST; DiceModifier KEEP_LOWEST] ;;
  if m then
    token <- previous ;;
    operator <- asDiceModifier token ;;
    right <- primary ;;
    ret (DiceModifierNode dice operator right)
  else ret (Dice dice).

(** [primary], with the depth of the nested calls as fuel. *)
Fixpoint primary (fuel : nat) : Parser ASTNode :=
  match fuel with
  | O => diverge
  | S fuel' =>
      token <- peek ;;
      next <- nextType ;;
      if TokenType_eqb (type token) DICE
         || (TokenType_eqb (type token) NUMBER
             && match next with
                | Some t => TokenType_eqb t DICE
                | None => false
                end)
      then dice (primary fuel')
      else
        m <- match_ [NUMBER] ;;
        if m then
          token <- previous ;;
          num <- literalOf token ;;
          ret (NumberNode num)
        else
          m <- match_ [DICE] ;;
          if m then
            token <- expect NUMBER ;;
            numSides <- literalOf token ;;
            ret (Dice (mkDice 1%N numSides))
          else
            m <- match_ [PAREN_OPEN] ;;
            if m then
              expr <- term (primary fuel') ;;
              expect PAREN_CLOSE ;;;
              ret (GroupingNode expr)
            else
              token <- peek ;;
              throw (Error ("Unexpected " ++ showTokenType (type token)
                            ++ " at offset " ++ showNat (offset token)))
  end.

Definition parseFuel : nat := S (List.length tokens).

(** The top-level call [term()] of [parse]. *)
Definition topTerm : Parser ASTNode := term (primary parseFuel).

(** [parse] returns the tree and what it wrote with [console.warn]. *)
Definition parse : outcome (ASTNode * list string) :=
  match
    (ast <- topTerm ;;
     token <- peek ;;
     if TokenType_eqb (type token) EOF then ret (ast, [])
     else ret (ast, ["Could not parse whole expression"])) 0
  with
  | Ok (r, _) => Ok r
  | Throw e => Throw e
  | Diverge => Diverge
  end.

End Parser.

(* ------------------------------------------------------------------ *)
(** ** Roll counter *)

Fixpoint countRolls (ast : ASTNode) : N :=
  match ast with
  | NumberNode _ => 1
  | Dice d => numDice d
  | BinaryOpNode l _ r => countRolls l + countRolls r
  | DiceModifierNode l _ r => numDice l + countRolls r
  | GroupingNode expression => countRolls expression
  end%N.

(* ------------------------------------------------------------------ *)
(** ** Evaluator *)

Record Result : Type := mkResult {
  result : number;
  rolls : option (list number);
  explanation : string
}.

(** [arr.join(sep)] *)
Fixpoint join (sep : string) (l : list string) : string :=
  match l with
  | [] => ""
  | [x] => x
  | x :: l' => x ++ sep ++ join sep l'
  end.

(** [arr.reduce((a, b) => a + b, 0)] *)
Definition sum (arr : list number) : number := fold_left add arr (Num 0%Q).

(** A relative index of [slice] clamped into [0 .. len]. *)
Definition clampIndex (len : nat) (i : integerOrInfinity) : nat :=
  match i with
  | MinusInf => 0
  | PlusInf => len
  | Int z =>
      if (z <? 0)%Z then Z.to_nat (Z.max (Z.of_nat len + z) 0)
      else Z.to_nat (Z.min z (Z.of_nat len))
  end.

(** [arr.slice(start)] *)
Definition sliceFrom {A} (arr : list A) (start : number) : list A :=
  skipn (clampIndex (List.length arr) (toIntegerOrInfinity start)) arr.

(** [arr.slice(start, end_)] *)
Definition sliceRange {A} (arr : list A) (start end_ : number) : list A :=
  let k := clampIndex (List.length arr) (toIntegerOrInfinity start) in
  let final := clampIndex (List.length arr) (toIntegerOrInfinity end_) in
  firstn (final - k) (skipn k arr).

(** [arr.toSorted((a, b) => a - b)]: [a] goes after [b] when [a - b] is
    positive.  The sort is stable; an insertion sort is taken for it, and
    any stable sort agrees with it when the comparison is consistent. *)
Fixpoint insertSorted (x : number) (l : list number) : list number :=
  match l with
  | [] => [x]
  | y :: l' => if gt (sub x y) (Num 0%Q) then y :: insertSorted x l'
               else x :: l
  end.

Definition toSorted (l : list number) : list number :=
  fold_right insertSorted [] l.

(** The largest length [Array.from] can create. *)
Definition maxArrayLength : N := 4294967295.

Section Evaluator.

(** The randomness source: [random(max)], a function with a state of
    its own.  [numberToString] is the text of a number in a template
    string and in [join]. *)
Variable RandomState : Type.
Definition Random : Type := number -> RandomState -> number * RandomState.
Variable random : Random.
Variable numberToString : number -> string.

Definition callRandom (max : number) : M RandomState number :=
  fun s => Ok (random max s).

(** [Array.from({ length: n }, () => f())] *)
Fixpoint arrayFrom (n : nat) (f : M RandomState number)
  : M RandomState (list number) :=
  match n with
  | O => ret []
  | S n' => x <- f ;; xs <- arrayFrom n' f ;; ret (x :: xs)
  end.

(** The case [DICE] of [evaluate]. *)
Definition evaluateDice (node : DiceNode) : M RandomState Result :=
  if (numDice node <=? maxArrayLength)%N then
    rolls <- arrayFrom (N.to_nat (numDice node))
                       (callRandom (ofN (numSides node))) ;;
    let total := sum rolls in
    ret (mkResult total (Some rolls)
           ("[" ++ join " + " (map numberToString rolls) ++ "]"))
  else throw RangeError.

Definition applyOperator (o : OperatorType) (l r : number) : number :=
  match o with
  | PLUS => add l r
  | MINUS => sub l r
  | STAR => mul l r
  | SLASH => div l r
  end.

Definition opExplanation (o : OperatorType) : string :=
  match o with
  | PLUS => "+" | MINUS => "-" | STAR => "*" | SLASH => "/"
  end.

Fixpoint evaluate (node : ASTNode) : M RandomState Result :=
  match node with
  | NumberNode value =>
      ret (mkResult (ofN value) None (numberToString (ofN value)))
  | Dice d => evaluateDice d
  | BinaryOpNode l operator r =>
      left <- evaluate l ;;
      right <- evaluate r ;;
      ret (mkResult (applyOperator operator (result left) (result right))
             None
             (explanation left ++ " " ++ opExplanation operator ++ " "
              ++ explanation right))
  | DiceModifierNode l operator r =>
      left <- evaluateDice l ;;
      right <- evaluate r ;;
      match rolls left with
      | None => throw TypeError
      | Some leftRolls =>
          let rolls := toSorted leftRolls in
          match operator with
          | KEEP_HIGHEST =>
              ret (mkResult (sum (sliceFrom rolls (neg (result right))))
                     None
                     (explanation left ++ "kh" ++ explanation right))
          | KEEP_LOWEST =>
              ret (mkResult
                     (sum (sliceRange rolls (Num 0%Q) (result right)))
                     None
                     (explanation left ++ "kl" ++ explanation right))
          end
      end
  | GroupingNode expression =>
      r <- evaluate expression ;;
      ret (mkResult (result r) (rolls r) ("(" ++ explanation r ++ ")"))
  end.

(** An outcome without effect on the state. *)
Definition lift {A} (o : outcome A) : M RandomState A :=
  fun s =>
    match o with
    | Ok a => Ok (a, s)
    | Throw e => Throw e
    | Diverge => Diverge
    end.

(** The check [if (maxRolls) { ... }] of [roll]; [maxRolls] is [None]
    when the option is left out. *)
Definition checkLimit (maxRolls : option number) (ast : ASTNode)
  : M RandomState unit :=
  match maxRolls with
  | Some limit =>
      if truthy limit then
        let rolls := countRolls ast in
        if gt (ofN rolls) limit then throw (TooManyDiceError rolls)
        else ret tt
      else ret tt
  | None => ret tt
  end.

Definition roll (expression : string) (maxRolls : option number)
  : M RandomState Result :=
  tokens <- lift (lex expression) ;;
  parsed <- lift (parse tokens) ;;
  let ast := fst parsed in
  checkLimit maxRolls ast ;;;
  evaluate ast.

End Evaluator.

Arguments Random RandomState : clear implicits.

(** The source [sequence(numbers)] of the tests: the state is what is left
    of the list; an exhausted generator yields [undefined], which is
    [NaN] in arithmetic. *)
Definition sequence : Random (list number) :=
  fun _max numbers =>
    match numbers with
    | x :: rest => (x, rest)
    | [] => (NaN, [])
    end.

(** A source that always returns [x]. *)
Definition fixed (x : number) : Random unit := fun _max s => (x, s).

(** A source instrumented with the number of times it was called. *)
Definition counting {St} (random : Random St) : Random (St * N) :=
  fun max s =>
    let (x, s') := random max (fst s) in (x, (s', N.succ (snd s))).

(** The text of an integer; enough for the numbers of the examples. *)
Definition showNumber (x : number) : string :=
  match x with
  | Num q =>
      match Qnum q with
      | Zneg p => "-" ++ showNat (Pos.to_nat p)
      | z => showNat (Z.to_nat z)
      end
  | Infinity => "Infinity"
  | NegInfinity => "-Infinity"
  | NaN => "NaN"
  end.

Definition rollSeq (expression : string) (numbers : list number) :=
  roll (list number) sequence showNumber expression None numbers.

(** [parse(lex(expression))], as [roll] computes it. *)
Definition parseExpression (expression : string) : outcome ASTNode :=
  match lex expression with
  | Ok tokens =>
      match parse tokens with
      | Ok (ast, _) => Ok ast
      | Throw e => Throw e
      | Diverge => Diverge
      end
  | Throw e => Throw e
  | Diverge => Diverge
  end.

(* ------------------------------------------------------------------ *)
(** ** Written expressions

    What a source string that [lex] accepts is made of: lexemes, each
    followed by white space. *)

Inductive Lexeme : Type :=
| LNumber (digits : string)
| LDice
| LOperator (o : OperatorType)
| LOpen
| LClose
| LKeepPair (m : DiceModifierType)      (* [kh], [kl] *)
| LKeepLetter (m : DiceModifierType).   (* [h], [l] *)

Definition modifierLetter (m : DiceModifierType) : string :=
  match m with
  | KEEP_HIGHEST => "h"
  | KEEP_LOWEST => "l"
  end.

Definition spelling (l : Lexeme) : string :=
  match l with
  | LNumber digits => digits
  | LDice => "d"
  | LOperator o => opExplanation o
  | LOpen => "("
  | LClose => ")"
  | LKeepPair m => "k" ++ modifierLetter m
  | LKeepLetter m => modifierLetter m
  end.

(** A lexeme and the white space after it. *)
Definition Spelled : Type := (Lexeme * string)%type.

Fixpoint spell (ls : list Spelled) : string :=
  match ls with
  | [] => ""
  | (l, ws) :: rest => spelling l ++ ws ++ spell rest
  end.

(** The token [lex] makes of a lexeme that starts at offset [off]. *)
Definition lexemeToken (l : Lexeme) (off : nat) : Token :=
  match l with
  | LNumber digits => mkToken NUMBER digits off (Some (parseInt digits))
  | LDice => baseToken DICE "d" off
  | LOperator o => baseToken o (opExplanation o) off
  | LOpen => baseToken PAREN_OPEN "(" off
  | LClose => baseToken PAREN_CLOSE ")" off
  | LKeepPair m => baseToken m "kh" (S off)
  | LKeepLetter m => baseToken m (modifierLetter m) off
  end.

Fixpoint tokensAt (off : nat) (ls : list Spelled) : list Token :=
  match ls with
  | [] => []
  | (l, ws) :: rest =>
      lexemeToken l off
      :: tokensAt (off + String.length (spelling l) + String.length ws) rest
  end.

Definition allOf (p : ascii -> bool) (s : string) : bool :=
  forallb p (list_ascii_of_string s).

Definition isNumber (l : Lexeme) : bool :=
  match l with
  | LNumber _ => true
  | _ => false
  end.

(** Numbers are runs of digits, white space is white space, and a number
    is not glued to the number after it. *)
Fixpoint wellSpelled (ls : list Spelled) : bool :=
  match ls with
  | [] => true
  | (l, ws) :: rest =>
      allOf isSpace ws
      && match l with
         | LNumber digits =>
             negb (digits =? "")%string && allOf isDigit digits
             && match ws, rest with
                | EmptyString, (l', _) :: _ => negb (isNumber l')
                | _, _ => true
                end
         | _ => true
         end
      && wellSpelled rest
  end.

(** Arithmetic expressions as they are written: integer literals, the
    four operators and parentheses, with white space after every lexeme.
    [ABin l o ws r] is [l], the operator, [ws], [r]. *)
Inductive Arith : Type :=
| ALit (digits : string) (ws : string)
| AParen (ws1 : string) (e : Arith) (ws2 : string)
| ABin (l : Arith) (o : OperatorType) (ws : string) (r : Arith).

Definition isMultiplicative (o : OperatorType) : bool :=
  match o with
  | STAR | SLASH => true
  | PLUS | MINUS => false
  end.

(** A literal or a parenthesized expression. *)
Definition isPrimaryA (e : Arith) : bool :=
  match e with
  | ABin _ _ _ _ => false
  | _ => true
  end.

(** A product or quotient, or a primary. *)
Definition isFactorA (e : Arith) : bool :=
  match e with
  | ABin _ o _ _ => isMultiplicative o
  | _ => true
  end.

(** The trees that need no more parentheses than they have: [*] and [/]
    bind tighter than [+] and [-], and all four associate to the left. *)
Fixpoint wellFormed (e : Arith) : bool :=
  match e with
  | ALit digits ws =>
      negb (digits =? "")%string && allOf isDigit digits && allOf isSpace ws
  | AParen ws1 e ws2 =>
      allOf isSpace ws1 && wellFormed e && allOf isSpace ws2
  | ABin l o ws r =>
      wellFormed l && allOf isSpace ws && wellFormed r
      && (if isMultiplicative o then isFactorA l && isPrimaryA r
          else isFactorA r)
  end.

Fixpoint flatten (e : Arith) : list Spelled :=
  match e with
  | ALit digits ws => [(LNumber digits, ws)]
  | AParen ws1 e ws2 => (LOpen, ws1) :: flatten e ++ [(LClose, ws2)]
  | ABin l o ws r => flatten l ++ (LOperator o, ws) :: flatten r
  end.

Definition write (e : Arith) : string := spell (flatten e).

(** The tree [parse] is to build. *)
Fixpoint toAST (e : Arith) : ASTNode :=
  match e with
  | ALit digits _ => NumberNode (parseInt digits)
  | AParen _ e _ => GroupingNode (toAST e)
  | ABin l o _ r => BinaryOpNode (toAST l) o (toAST r)
  end.

(** The value of the expression as a real number, here a rational; there
    is none when it divides by zero. *)
Fixpoint value (e : Arith) : option Q :=
  match e with
  | ALit digits _ => Some (inject_Z (Z.of_N (parseInt digits)))
  | AParen _ e _ => value e
  | ABin l o _ r =>
      match value l, value r with
      | Some a, Some b =>
          match o with
          | PLUS => Some (a + b)%Q
          | MINUS => Some (a - b)%Q
          | STAR => Some (a * b)%Q
          | SLASH => if Qeq_bool b 0 then None else Some (a / b)%Q
          end
      | _, _ => None
      end
  end.

(** The value of the expression in the numbers of the evaluator. *)
Fixpoint denote (e : Arith) : number :=
  match e with
  | ALit digits _ => ofN (parseInt digits)
  | AParen _ e _ => denote e
  | ABin l o _ r => applyOperator o (denote l) (denote r)
  end.

(** The type of the first token of [rest], if any. *)
Definition headType (rest : list Token) : option TokenType :=
  option_map type (nth_error rest 0).

(** What may follow a primary, a factor and a term for the parser to
    stop after it. *)
Definition endsPrimary (rest : list Token) : Prop :=
  headType rest <> Some DICE.

Definition endsFactor (rest : list Token) : Prop :=
  exists t, headType rest = Some t
            /\ includes [DICE; Operator STAR; Operator SLASH] t = false.

Definition endsTerm (rest : list Token) : Prop :=
  exists t, headType rest = Some t
            /\ includes [DICE; Operator STAR; Operator SLASH;
                         Operator MINUS; Operator PLUS] t = false.

(* ------------------------------------------------------------------ *)
(** ** Notions used in the proofs *)

(** The number of [NUMBER] nodes of a tree. *)
Fixpoint countNumbers (ast : ASTNode) : N :=
  match ast with
  | NumberNode _ => 1
  | Dice _ => 0
  | BinaryOpNode l _ r => countNumbers l + countNumbers r
  | DiceModifierNode _ _ r => countNumbers r
  | GroupingNode expression => countNumbers expression
  end%N.

(** Every dice count of the tree is a length [Array.from] accepts. *)
Fixpoint validLengths (ast : ASTNode) : bool :=
  match ast with
  | NumberNode _ => true
  | Dice d => (numDice d <=? maxArrayLength)%N
  | BinaryOpNode l _ r => validLengths l && validLengths r
  | DiceModifierNode l _ r =>
      (numDice l <=? maxArrayLength)%N && validLengths r
  | GroupingNode expression => validLengths expression
  end.

(** The dice term [3d6] and the tree of [3d6kh0] and of [3d6kl0]. *)
Definition threeD6 : DiceNode := mkDice 3 6.

Definition threeD6keep (o : DiceModifierType) : ASTNode :=
  DiceModifierNode threeD6 o (NumberNode 0).

(** The tokens of ["3d6"]. *)
Definition threeD6tokens : list Token :=
  [ mkToken NUMBER "3" 0 (Some 3%N); baseToken DICE "d" 1;
    mkToken NUMBER "6" 2 (Some 6%N); baseToken EOF "" 3 ].

(** ["2 * 3 + 1"] as it is written. *)
Definition twoTimesThreePlusOne : Arith :=
  ABin (ABin (ALit "2" " ") STAR " " (ALit "3" " ")) PLUS " " (ALit "1" "").

(** The tokens of ["1 2"]. *)
Definition oneTwoTokens : list Token :=
  [ mkToken NUMBER "1" 0 (Some 1%N); mkToken NUMBER "2" 2 (Some 2%N);
    baseToken EOF "" 3 ].

(** The warning of [parse]. *)
Definition parseWarning (t : Token) : list string :=
  if TokenType_eqb (type t) EOF then []
  else ["Could not parse whole expression"].

(** The tree of ["1 + 2"]. *)
Definition onePlusTwo : ASTNode :=
  BinaryOpNode (NumberNode 1) PLUS (NumberNode 2).

(** [limit] is a positive number. *)
Definition isPositive (limit : number) : Prop :=
  match limit with
  | Num q => (0 < q)%Q
  | Infinity => True
  | _ => False
  end.

(** The count [n] is greater than [limit]. *)
Definition exceeds (n : N) (limit : number) : Prop :=
  match limit with
  | Num q => (q < inject_Z (Z.of_N n))%Q
  | NegInfinity => True
  | _ => False
  end.

(** The order of the finite numbers; the other numbers are not ordered. *)
Definition numLe (x y : number) : Prop :=
  match x, y with
  | Num a, Num b => (a <= b)%Q
  | _, _ => False
  end.

Definition isFinite (x : number) : Prop := exists q, x = Num q.

(** The last [k] elements of a list, all of them when there are fewer. *)
Definition lastn {A} (k : nat) (l : list A) : list A :=
  skipn (List.length l - k) l.

(** The state in which the loop of [lex], started in [st], ends. *)
Definition lexFrom (expression : string) (st : LexState) : LexState :=
  match lexLoop expression (String.length expression - lexOffset st) st with
  | Some st' => st'
  | None => st
  end.

(** The offsets of two consecutive tokens. *)
Definition offsetLe (a b : Token) : Prop := offset a <= offset b.

(** The invariant of the loop of [lex] on the offsets: those of the
    tokens never decrease and none is past the scanning offset. *)
Definition offsetsInv (st : LexState) : Prop :=
  Sorted offsetLe (lexTokens st)
  /\ Forall (fun t => offset t <= lexOffset st) (lexTokens st).

(** The invariant of the loop of [lex] on the pairs [kh] and [kl] it has
    passed: each left a token, with the lexeme ["kh"] for both. *)
Definition keepInv (expression : string) (st : LexState) : Prop :=
  forall p,
    p < lexOffset st -> charAt expression p = Some "k"%char ->
    (charAt expression (S p) = Some "h"%char ->
     In (baseToken KEEP_HIGHEST "kh" (S p)) (lexTokens st))
    /\ (charAt expression (S p) = Some "l"%char ->
        In (baseToken KEEP_LOWEST "kh" (S p)) (lexTokens st)).

(** The characters [lex] accepts on their own. *)
Definition isRecognized (c : ascii) : bool :=
  isSpace c || isDigit c
  || existsb (Ascii.eqb c) ["d"; "+"; "-"; "*"; "/"; "("; ")"; "h"; "l"]%char.

(** The offset of the first lexical error of the characters [cs], which
    start at offset [off], read from left to right: the offset of a
    character that is not recognized, or the offset after a [k] that is
    followed by neither [h] nor [l]. *)
Fixpoint firstErrorOffset (cs : list ascii) (off : nat) : option nat :=
  match cs with
  | [] => None
  | c :: rest =>
      if (c =? "k")%char then
        match rest with
        | n :: rest' =>
            if ((n =? "h") || (n =? "l"))%char
            then firstErrorOffset rest' (S (S off))
            else Some (S off)
        | [] => Some (S off)
        end
      else if isRecognized c then firstErrorOffset rest (S off)
      else Some off
  end.

(** There is a lexical error at offset [off] of the characters [cs]:
    the character at [off] is not recognized, or the character before
    [off] is a [k] and the one at [off], if any, is neither [h] nor [l]. *)
Definition errorIn (cs : list ascii) (off : nat) : Prop :=
  (exists c, nth_error cs off = Some c
             /\ c <> "k"%char /\ isRecognized c = false)
  \/ (exists p, off = S p
                /\ nth_error cs p = Some "k"%char
                /\ nth_error cs off <> Some "h"%char
                /\ nth_error cs off <> Some "l"%char).

Definition errorAt (expression : string) (off : nat) : Prop :=
  errorIn (list_ascii_of_string expression) off.

(** The characters of [expression] are [pre] and then [post]. *)
Definition splitAt (expression : string) (pre post : list ascii) : Prop :=
  list_ascii_of_string expression = (pre ++ post)%list.

(** Where the text of a token is: at its offset, or, for the tokens of
    the pairs [kh] and [kl], one character before its offset. *)
Definition tokenPlaced (expression : string) (t : Token) : Prop :=
  slice expression (offset t) (offset t + String.length (lexeme t))
  = lexeme t
  \/ (exists m p,
         type t = DiceModifier m /\ lexeme t = "kh" /\ offset t = S p
         /\ slice expression p (S (S p)) = "k" ++ modifierLetter m).

(** The exceptions of the parser. *)
Definition isParseError (e : Exception) : Prop :=
  match e with
  | Error _ | TypeError | Unreachable => True
  | _ => False
  end.

(** A computation that throws nothing but exceptions in [P]. *)
Definition throwsOnly {St A} (P : Exception -> Prop) (m : M St A) : Prop :=
  forall s e, m s = Throw e -> P e.

(** A parser that never moves [current] backwards nor past the end. *)
Definition forward (tokens : list Token) {A} (p : Parser A) : Prop :=
  forall cur a cur',
    p cur = Ok (a, cur') ->
    cur <= cur' /\ (cur <= List.length tokens -> cur' <= List.length tokens).

(** A parser that moves [current]. *)
Definition advancing {A} (p : Parser A) : Prop :=
  forall cur a cur', p cur = Ok (a, cur') -> cur < cur'.

(** [p'] does what [p] does as long as [p] stops at [k] or before, unless
    [p'] runs out of fuel. *)
Definition sim (k : nat) {A} (p p' : Parser A) : Prop :=
  forall cur a c,
    p cur = Ok (a, c) -> c <= k ->
    p' cur = Ok (a, c) \/ p' cur = Diverge.

(** A parser that has fuel enough from position [c] on. *)
Definition safe (tokens : list Token) {A} (p : Parser A) (c : nat) : Prop :=
  forall cur, c <= cur -> cur <= List.length tokens -> p cur <> Diverge.

(* ------------------------------------------------------------------ *)
(** ** Notions of the further properties *)

(** The two errors of [lex]: a character that is not recognized, reported
    at its offset, and a [k] that is followed by neither [h] nor [l],
    reported at the offset after the [k]. *)
Definition lexicalError (expression : string) (e : Exception) : Prop :=
  exists off,
    (exists c,
        charAt expression off = Some c
        /\ c <> "k"%char /\ isRecognized c = false
        /\ e = DiceNotationError
                 (diceNotationMessage ("Unexpected '" ++ ofChar c ++ "'!")
                                      expression off)
                 expression off)
    \/ (exists p,
           off = S p
           /\ charAt expression p = Some "k"%char
           /\ charAt expression off <> Some "h"%char
           /\ charAt expression off <> Some "l"%char
           /\ e = DiceNotationError
                    (diceNotationMessage "Unexpected k" expression off)
                    expression off).

(** What a token of [lex] is made of: a [NUMBER] token has a run of
    digits for lexeme, as long as it can be, and the number it reads in
    base ten for literal; the other tokens have no literal. *)
Definition tokenShape (expression : string) (t : Token) : Prop :=
  match type t with
  | NUMBER =>
      lexeme t <> ""
      /\ allOf isDigit (lexeme t) = true
      /\ literal t = Some (parseInt (lexeme t))
      /\ match charAt expression (offset t + String.length (lexeme t)) with
         | Some c => isDigit c = false
         | None => True
         end
  | _ => literal t = None
  end.

(** The elements of [l] from [start] up to [stop], [stop] left out. *)
Definition segment {A} (l : list A) (start stop : nat) : list A :=
  firstn (stop - start) (skipn start l).

(** A parser that, run from a position in [P], ends with a result and a
    position in [Q] when it returns, and throws an exception in [E] when
    it throws. *)
Definition triple {A} (P : nat -> Prop) (p : Parser A)
           (Q : A -> nat -> Prop) (E : Exception -> Prop) : Prop :=
  forall cur, P cur ->
    match p cur with
    | Ok (a, cur') => Q a cur'
    | Throw e => E e
    | Diverge => True
    end.

(** The grammar of [parse], as the trees and the tokens they are read
    from: a dice term is [NUMBER DICE NUMBER] or [DICE NUMBER], with the
    count 1; a primary is a number, a dice term, a dice term with a keep
    modifier and a primary, or a term in parentheses; a factor is
    primaries joined by [*] and [/] and a term is factors joined by [+]
    and [-], both from left to right. *)
Inductive diceTokens : DiceNode -> list Token -> Prop :=
| dice_counted (n d s : Token) (count sides : N) :
    type n = NUMBER -> literal n = Some count -> type d = DICE ->
    type s = NUMBER -> literal s = Some sides ->
    diceTokens (mkDice count sides) [n; d; s]
| dice_single (d s : Token) (sides : N) :
    type d = DICE -> type s = NUMBER -> literal s = Some sides ->
    diceTokens (mkDice 1 sides) [d; s].

Inductive Primary : ASTNode -> list Token -> Prop :=
| primary_number (t : Token) (v : N) :
    type t = NUMBER -> literal t = Some v -> Primary (NumberNode v) [t]
| primary_dice (d : DiceNode) (ts : list Token) :
    diceTokens d ts -> Primary (Dice d) ts
| primary_keep (d : DiceNode) (ts : list Token) (m : Token)
               (o : DiceModifierType) (r : ASTNode) (rs : list Token) :
    diceTokens d ts -> type m = DiceModifier o -> Primary r rs ->
    Primary (DiceModifierNode d o r) (ts ++ m :: rs)
| primary_group (open : Token) (e : ASTNode) (ts : list Token)
                (close : Token) :
    type open = PAREN_OPEN -> Term e ts -> type close = PAREN_CLOSE ->
    Primary (GroupingNode e) (open :: ts ++ [close])
with Factor : ASTNode -> list Token -> Prop :=
| factor_primary (a : ASTNode) (ts : list Token) :
    Primary a ts -> Factor a ts
| factor_binary (l : ASTNode) (ls : list Token) (o : Token)
                (op : OperatorType) (r : ASTNode) (rs : list Token) :
    Factor l ls -> type o = Operator op -> isMultiplicative op = true ->
    Primary r rs -> Factor (BinaryOpNode l op r) (ls ++ o :: rs)
with Term : ASTNode -> list Token -> Prop :=
| term_factor (a : ASTNode) (ts : list Token) :
    Factor a ts -> Term a ts
| term_binary (l : ASTNode) (ls : list Token) (o : Token)
              (op : OperatorType) (r : ASTNode) (rs : list Token) :
    Term l ls -> type o = Operator op -> isMultiplicative op = false ->
    Factor r rs -> Term (BinaryOpNode l op r) (ls ++ o :: rs).

(** The errors of [parse] on the tokens of [lex]: a token of the list is
    not the [NUMBER] or the [PAREN_CLOSE] that is expected, or it is a
    token no primary starts with; the message names its offset. *)
Definition syntaxError (tokens : list Token) (e : Exception) : Prop :=
  exists token,
    In token tokens
    /\ ((exists t,
            includes [NUMBER; PAREN_CLOSE] t = true /\ type token <> t
            /\ e = Error ("Expected " ++ showTokenType t ++ " at offset "
                          ++ showNat (offset token)))
        \/ (includes [NUMBER; DICE; PAREN_OPEN] (type token) = false
            /\ e = Error ("Unexpected " ++ showTokenType (type token)
                          ++ " at offset " ++ showNat (offset token)))).

(** A parser that, when it returns, has read from the position at which
    it was started a run of tokens that makes the tree it returns, by
    the grammar [G]. *)
Definition reads (tokens : list Token)
           (G : ASTNode -> list Token -> Prop) (p : Parser ASTNode) : Prop :=
  forall start,
    triple (eq start) p
           (fun a c => start <= c /\ c <= List.length tokens
                       /\ G a (segment tokens start c))
           (fun _ => True).

(** The start of a dice term at [c]: a [DICE] token, or a [NUMBER] token
    and then a [DICE] token. *)
Definition diceStart (tokens : list Token) (c : nat) : Prop :=
  exists t,
    nth_error tokens c = Some t
    /\ (type t = DICE
        \/ (type t = NUMBER
            /\ option_map type (nth_error tokens (S c)) = Some DICE)).

(** Tokens as [lex] makes them: the [NUMBER] tokens have a literal. *)
Definition hasLiteral (t : Token) : Prop :=
  type t = NUMBER -> literal t <> None.

(** A source instrumented with the arguments of its calls, in order. *)
Definition recording {St} (random : Random St)
  : Random (St * list number) :=
  fun max s =>
    let (x, s') := random max (fst s) in (x, (s', (snd s ++ [max])%list)).

(** The arguments of the calls of the randomness source in the
    evaluation of a tree, in order: the sides count of a dice term, once
    for each of its dice, the terms from left to right. *)
Fixpoint requests (ast : ASTNode) : list number :=
  match ast with
  | NumberNode _ => []
  | Dice d => repeat (ofN (numSides d)) (N.to_nat (numDice d))
  | BinaryOpNode l _ r => requests l ++ requests r
  | DiceModifierNode d _ r =>
      repeat (ofN (numSides d)) (N.to_nat (numDice d)) ++ requests r
  | GroupingNode e => requests e
  end%list.

(** A randomness source that, in the states [I], returns for a positive
    whole number [max] a whole number from 1 to [max], and stays in the
    states [I]. *)
Definition fair {St} (I : St -> Prop) (random : Random St) : Prop :=
  forall (n : N) (s : St),
    I s -> (0 < n)%N ->
    I (snd (random (ofN n) s))
    /\ exists k, fst (random (ofN n) s) = ofN k /\ (1 <= k <= n)%N.

(** The sum of natural numbers. *)
Definition total (ks : list N) : N := fold_right N.add 0%N ks.

(** [Math.floor] *)
Definition floor (x : number) : number :=
  match x with
  | Num q => Num (inject_Z (Qfloor q))
  | _ => x
  end.

(** [(max) => 1 + Math.floor(Math.random() * max)]: the state is the
    sequence of the numbers that [Math.random()] is to return. *)
Definition defaultRandom : Random (nat -> Q) :=
  fun max u =>
    (add (ofN 1) (floor (mul (Num (u 0)) max)), fun i => u (S i)).

(** What [Math.random()] returns: numbers from 0, included, to 1, not
    included. *)
Definition unitInterval (u : nat -> Q) : Prop :=
  forall i, (0 <= u i)%Q /\ (u i < 1)%Q.

(** Two finite numbers that are equal. *)
Definition numEq (x y : number) : Prop := numLe x y /\ numLe y x.


(** [limit] is a negative number. *)
Definition isNegative (limit : number) : Prop :=
  match limit with
  | Num q => (q < 0)%Q
  | NegInfinity => True
  | _ => False
  end.

(** A run of digits, not empty. *)
Definition isDigits (s : string) : bool :=
  negb (s =? "")%string && allOf isDigit s.

(** The offsets of two consecutive tokens, the second past the first. *)
Definition offsetLt (a b : Token) : Prop := offset a < offset b.

(** The invariant of the loop of [lex] on the offsets, in its strict
    form: the offsets of the tokens increase, and all are before the
    scanning offset. *)
Definition offsetsBelow (tokens : list Token) (off : nat) : Prop :=
  Sorted offsetLt tokens /\ Forall (fun t => offset t < off) tokens.

(** What [parse] reads of a token: its type and its literal. *)
Definition kind (t : Token) : TokenType * option N := (type t, literal t).

Definition sameKind (a b : Token) : Prop := kind a = kind b.

(** [p'] returns what [p] returns, up to [R], and stops where [p]
    stops. *)
Definition agrees {A B} (R : A -> B -> Prop) (p : Parser A) (p' : Parser B)
  : Prop :=
  forall cur a c, p cur = Ok (a, c) -> exists b, p' cur = Ok (b, c) /\ R a b.

(** The type and the literal of the token of a lexeme. *)
Definition lexemeKind (l : Spelled) : TokenType * option N :=
  kind (lexemeToken (fst l) 0).

(* ------------------------------------------------------------------ *)
(** ** Dice expressions as they are written *)

(** A dice term as it is written: the count, if there is one, the letter
    [d] and the sides count, each with the white space after it. *)
Record DiceText : Type := mkDiceText {
  countText : option (string * string);
  afterD : string;
  sidesText : string;
  afterSides : string
}.

(** The expressions of the grammar of [parse], as they are written:
    numbers, dice terms, dice terms with a keep modifier (in its long or
    its short spelling) and its operand, parentheses and the four
    operators, with white space after every lexeme. *)
Inductive Expr : Type :=
| ENumber (digits : string) (ws : string)
| EDice (d : DiceText)
| EKeep (d : DiceText) (short : bool) (m : DiceModifierType) (ws : string)
        (operand : Expr)
| EParen (ws1 : string) (e : Expr) (ws2 : string)
| EBinary (l : Expr) (o : OperatorType) (ws : string) (r : Expr).

Definition isPrimaryE (e : Expr) : bool :=
  match e with
  | EBinary _ _ _ _ => false
  | _ => true
  end.

Definition isFactorE (e : Expr) : bool :=
  match e with
  | EBinary _ o _ _ => isMultiplicative o
  | _ => true
  end.

Definition wellFormedDice (d : DiceText) : bool :=
  match countText d with
  | Some (count, ws) => isDigits count && allOf isSpace ws
  | None => true
  end
  && allOf isSpace (afterD d)
  && isDigits (sidesText d) && allOf isSpace (afterSides d).

(** The trees that need no more parentheses than they have; the operand
    of a keep modifier is a primary. *)
Fixpoint wellFormedE (e : Expr) : bool :=
  match e with
  | ENumber digits ws => isDigits digits && allOf isSpace ws
  | EDice d => wellFormedDice d
  | EKeep d _ _ ws operand =>
      wellFormedDice d && allOf isSpace ws
      && wellFormedE operand && isPrimaryE operand
  | EParen ws1 e ws2 =>
      allOf isSpace ws1 && wellFormedE e && allOf isSpace ws2
  | EBinary l o ws r =>
      wellFormedE l && allOf isSpace ws && wellFormedE r
      && (if isMultiplicative o then isFactorE l && isPrimaryE r
          else isFactorE r)
  end.

Definition flattenDice (d : DiceText) : list Spelled :=
  (match countText d with
   | Some (count, ws) => [(LNumber count, ws)]
   | None => []
   end
   ++ [(LDice, afterD d); (LNumber (sidesText d), afterSides d)])%list.

Definition keepLexeme (short : bool) (m : DiceModifierType) : Lexeme :=
  if short then LKeepLetter m else LKeepPair m.

Fixpoint flattenE (e : Expr) : list Spelled :=
  match e with
  | ENumber digits ws => [(LNumber digits, ws)]
  | EDice d => flattenDice d
  | EKeep d short m ws operand =>
      flattenDice d ++ (keepLexeme short m, ws) :: flattenE operand
  | EParen ws1 e ws2 => (LOpen, ws1) :: flattenE e ++ [(LClose, ws2)]
  | EBinary l o ws r => flattenE l ++ (LOperator o, ws) :: flattenE r
  end%list.

Definition writeE (e : Expr) : string := spell (flattenE e).

(** The dice node of a dice term; the count that is not written is 1. *)
Definition diceNode (d : DiceText) : DiceNode :=
  mkDice (match countText d with
          | Some (count, _) => parseInt count
          | None => 1%N
          end)
         (parseInt (sidesText d)).

(** The tree [parse] is to build. *)
Fixpoint toASTE (e : Expr) : ASTNode :=
  match e with
  | ENumber digits _ => NumberNode (parseInt digits)
  | EDice d => Dice (diceNode d)
  | EKeep d _ m _ operand => DiceModifierNode (diceNode d) m (toASTE operand)
  | EParen _ e _ => GroupingNode (toASTE e)
  | EBinary l o _ r => BinaryOpNode (toASTE l) o (toASTE r)
  end.

(** What may follow a primary and a factor of these expressions for the
    parser to stop after it: a token, that is neither [DICE] nor a keep
    modifier, nor, after a factor, [*] or [/]. *)
Definition stopsPrimary (rest : list Token) : Prop :=
  exists t, headType rest = Some t
            /\ includes [DICE; DiceModifier KEEP_HIGHEST;
                         DiceModifier KEEP_LOWEST] t = false.

Definition stopsFactor (rest : list Token) : Prop :=
  exists t, headType rest = Some t
            /\ includes [DICE; DiceModifier KEEP_HIGHEST;
                         DiceModifier KEEP_LOWEST;
                         Operator STAR; Operator SLASH] t = false.


(** ["2d6kh1 + (3 * d4)"]. *)
Definition keepPlusProduct : Expr :=
  EBinary (EKeep (mkDiceText (Some ("2", "")) "" "6" "") false KEEP_HIGHEST ""
                 (ENumber "1" " "))
          PLUS " "
          (EParen "" (EBinary (ENumber "3" " ") STAR " "
                              (EDice (mkDiceText None "" "4" ""))) "").

(* ------------------------------------------------------------------ *)
(** ** The limit and the doubles *)

(** The limit check of [roll] lets a count of [n] pass: the condition
    [maxRolls && n > maxRolls] is false. *)
Definition allows (maxRolls : option number) (n : N) : bool :=
  match maxRolls with
  | Some limit => negb (truthy limit && gt (ofN n) limit)
  | None => true
  end.

Fixpoint isPowerOfTwo (p : positive) : bool :=
  match p with
  | xH => true
  | xO p' => isPowerOfTwo p'
  | xI _ => false
  end.

(** A rational that is a double: an integer of at most 2^53 in magnitude
    over a power of two of at most 2^1074.  On such numbers an operation
    whose exact result is again one of them is not rounded. *)
Definition isDouble (q : Q) : bool :=
  let r := Qred q in
  (Z.abs (Qnum r) <=? 2 ^ 53)%Z
  && isPowerOfTwo (Qden r) && (Pos.size_nat (Qden r) <=? 1075)%nat.

(** The literals of the expression and the values of all its parts are
    doubles. *)
Fixpoint exactA (e : Arith) : bool :=
  match e with
  | ALit digits _ => isDouble (inject_Z (Z.of_N (parseInt digits)))
  | AParen _ e' _ => exactA e'
  | ABin l _ _ r =>
      exactA l && exactA r
      && match value e with
         | Some q => isDouble q
         | None => false
         end
  end.

(** The rolls are whole numbers, with a sum of at most 2^53: they add up
    to the same number in any order, in the doubles as well. *)
Definition wholeRolls (xs : list number) (ks : list N) : Prop :=
  xs = map ofN ks /\ (total ks <= 2 ^ 53)%N.

(** The double of an integer literal: the nearest one. *)
Definition toDouble (n : N) : PrimFloat.float :=
  FloatOps.SF2Prim
    (SpecFloat.binary_normalize FloatOps.prec FloatOps.emax
                                (Z.of_N n) 0 false).

Definition applyOperator64 (o : OperatorType) (l r : PrimFloat.float)
  : PrimFloat.float :=
  match o with
  | PLUS => PrimFloat.add l r
  | MINUS => PrimFloat.sub l r
  | STAR => PrimFloat.mul l r
  | SLASH => PrimFloat.div l r
  end.

(** The [result] of [evaluate] on a tree without dice, in the doubles of
    the source: the cases [NUMBER], [BINARY_OP] and [GROUPING]. *)
Fixpoint evaluate64 (ast : ASTNode) : option PrimFloat.float :=
  match ast with
  | NumberNode v => Some (toDouble v)
  | BinaryOpNode l o r =>
      match evaluate64 l, evaluate64 r with
      | Some a, Some b => Some (applyOperator64 o a b)
      | _, _ => None
      end
  | GroupingNode expression => evaluate64 expression
  | Dice _ | DiceModifierNode _ _ _ => None
  end.

(** The rational a finite double is. *)
Definition doubleValue (x : PrimFloat.float) : option Q :=
  match FloatOps.Prim2SF x with
  | SpecFloat.S754_zero _ => Some 0%Q
  | SpecFloat.S754_finite s m e =>
      Some ((if s then inject_Z (Z.neg m) else inject_Z (Z.pos m))
            * Qpower 2 e)%Q
  | _ => None
  end.

(** ["1/10 + 2/10"] and ["(1 + 4) / 2"] as they are written. *)
Definition oneTenthPlusTwoTenths : Arith :=
  ABin (ABin (ALit "1" "") SLASH "" (ALit "10" " ")) PLUS " "
       (ABin (ALit "2" "") SLASH "" (ALit "10" "")).

Definition fiveHalves : Arith :=
  ABin (AParen "" (ABin (ALit "1" " ") PLUS " " (ALit "4" "")) " ")
       SLASH " " (ALit "2" "").

(** ["1 2"] as it is written: the number [1], and the number [2] after
    it. *)
Definition oneE : Expr := ENumber "1" " ".

(** The tokens that continue no term: after a term of the grammar, the
    parser stops at them. *)
Definition stopsTerm (t : Token) : bool :=
  includes [NUMBER; PAREN_OPEN; PAREN_CLOSE; EOF] (type t).

(* ================================================================== *)
(** * Properties of the lexer *)

(** ** Lists and strings *)

Lemma length_list_ascii (s : string) :
  List.length (list_ascii_of_string s) = String.length s.
Proof. induction s as [|c s IH]; simpl; congruence. Qed.

Lemma list_ascii_app (s1 s2 : string) :
  list_ascii_of_string (s1 ++ s2)
  = (list_ascii_of_string s1 ++ list_ascii_of_string s2)%list.
Proof. induction s1 as [|c s1 IH]; simpl; congruence. Qed.

Lemma skipn_nth_error_cons {A} (l : list A) (n : nat) (x : A) :
  nth_error l n = Some x -> skipn n l = x :: skipn (S n) l.
Proof.
  revert n; induction l as [|y l IH]; intros [|n] H; simpl in *;
    try discriminate.
  - now inversion H.
  - now apply IH.
Qed.

Lemma digitRun_le (cs : list ascii) : digitRun cs <= List.length cs.
Proof.
  induction cs as [|c cs IH]; simpl; [lia|].
  destruct (isDigit c); lia.
Qed.

Lemma digitRun_digits (cs : list ascii) (i : nat) (c : ascii) :
  i < digitRun cs -> nth_error cs i = Some c -> isDigit c = true.
Proof.
  revert i; induction cs as [|d cs IH]; intros i Hi Hc; simpl in *; [lia|].
  destruct (isDigit d) eqn:Hd; [|lia].
  destruct i as [|i]; simpl in Hc.
  - now inversion Hc; subst.
  - apply (IH i); [lia | assumption].
Qed.

Lemma digitRun_all (cs rest : list ascii) :
  forallb isDigit cs = true ->
  digitRun (cs ++ rest) = List.length cs + digitRun rest.
Proof.
  induction cs as [|c cs IH]; simpl; intros H; [reflexivity|].
  apply andb_true_iff in H as [Hc Hcs]. rewrite Hc, IH; auto.
Qed.

Lemma charAt_Some_lt (s : string) (i : nat) (c : ascii) :
  charAt s i = Some c -> i < String.length s.
Proof.
  unfold charAt; intros H. rewrite <- length_list_ascii.
  apply nth_error_Some. congruence.
Qed.

Lemma charAt_None_ge (s : string) (i : nat) :
  charAt s i = None -> String.length s <= i.
Proof.
  unfold charAt; intros H. rewrite <- length_list_ascii.
  now apply nth_error_None.
Qed.

(** ** Every turn of the loop moves forward, so the loop ends *)

Section LexerFacts.

Variable expression : string.

Lemma lexStep_progress (st : LexState) (c : ascii) :
  charAt expression (lexOffset st) = Some c ->
  lexOffset st < lexOffset (lexStep expression st c)
  /\ lexOffset (lexStep expression st c) <= String.length expression.
Proof.
  intros Hc. pose proof (charAt_Some_lt _ _ _ Hc) as Hlt.
  unfold lexStep, single.
  repeat match goal with
         | |- context [if ?b then _ else _] => destruct b eqn:?
         end; simpl; try lia.
  - (* a number *)
    unfold charAt in Hc.
    rewrite (skipn_nth_error_cons _ _ _ Hc). cbn [digitRun].
    match goal with H : isDigit c = true |- _ => rewrite H end.
    pose proof (digitRun_le (skipn (S (lexOffset st))
                                   (list_ascii_of_string expression))) as Hle.
    rewrite length_skipn, length_list_ascii in Hle. lia.
  - (* kh *)
    match goal with H : charIs ?x _ = true |- _ =>
      destruct x eqn:Hn; [|discriminate] end.
    apply charAt_Some_lt in Hn. lia.
  - (* kl *)
    match goal with H : charIs ?x "l" = true |- _ =>
      destruct x eqn:Hn; [|discriminate] end.
    apply charAt_Some_lt in Hn. lia.
Qed.

Lemma lexLoop_enough (fuel : nat) (st : LexState) :
  String.length expression - lexOffset st <= fuel ->
  exists st', lexLoop expression fuel st = Some st'.
Proof.
  revert st; induction fuel as [|fuel IH]; intros st Hf; simpl.
  - destruct (charAt expression (lexOffset st)) eqn:Hc; [|eauto].
    apply charAt_Some_lt in Hc. lia.
  - destruct (charAt expression (lexOffset st)) eqn:Hc; [|eauto].
    apply IH. apply lexStep_progress in Hc. lia.
Qed.

Lemma lexLoop_more (fuel fuel' : nat) (st st' : LexState) :
  lexLoop expression fuel st = Some st' -> fuel <= fuel' ->
  lexLoop expression fuel' st = Some st'.
Proof.
  revert fuel' st; induction fuel as [|fuel IH]; intros fuel' st H Hle;
    simpl in H.
  - destruct fuel'; simpl;
      destruct (charAt expression (lexOffset st)); congruence.
  - destruct fuel' as [|fuel']; [lia|]. simpl.
    destruct (charAt expression (lexOffset st)); [|assumption].
    apply IH; [assumption | lia].
Qed.

Lemma lexLoop_lexFrom (fuel : nat) (st : LexState) :
  String.length expression - lexOffset st <= fuel ->
  lexLoop expression fuel st = Some (lexFrom expression st).
Proof.
  intros Hf. unfold lexFrom.
  destruct (lexLoop_enough _ st (Nat.le_refl _)) as [st' H].
  rewrite H. eapply lexLoop_more; eauto.
Qed.

Lemma lexFrom_done (st : LexState) :
  charAt expression (lexOffset st) = None -> lexFrom expression st = st.
Proof.
  intros H. unfold lexFrom.
  destruct (String.length expression - lexOffset st); simpl; now rewrite H.
Qed.

Lemma lexFrom_step (st : LexState) (c : ascii) :
  charAt expression (lexOffset st) = Some c ->
  lexFrom expression st = lexFrom expression (lexStep expression st c).
Proof.
  intros H.
  pose proof (lexStep_progress st c H) as [Hlt Hle].
  pose proof (lexLoop_lexFrom (S (String.length expression)) st
                ltac:(lia)) as E.
  simpl in E. rewrite H in E.
  rewrite lexLoop_lexFrom in E by lia. congruence.
Qed.

Lemma lexRun_lexFrom :
  lexRun expression = Some (lexFrom expression (mkLexState 0 [] [])).
Proof. unfold lexRun. apply lexLoop_lexFrom. simpl. lia. Qed.

(** [lex] never runs out of fuel. *)
Lemma lex_terminates : lex expression <> Diverge.
Proof.
  unfold lex. rewrite lexRun_lexFrom.
  destruct (lexErrors _); discriminate.
Qed.

End LexerFacts.

(* ================================================================== *)
(** * Properties of the parser *)

Lemma bind_Ok {St A B} (m : M St A) (k : A -> M St B) (s : St) r :
  bind m k s = Ok r -> exists a s', m s = Ok (a, s') /\ k a s' = Ok r.
Proof.
  unfold bind. destruct (m s) as [[a s']| |]; intros H; try discriminate.
  eauto.
Qed.

Lemma bind_step {St A B} (m : M St A) (k : A -> M St B) (s s' : St) a :
  m s = Ok (a, s') -> bind m k s = k a s'.
Proof. unfold bind. now intros ->. Qed.

Lemma bind_defined {St A B} (m : M St A) (k : A -> M St B) (s : St) :
  bind m k s <> Diverge -> m s <> Diverge.
Proof. unfold bind. destruct (m s) as [[a s']| |]; congruence. Qed.

Create HintDb parser.

Section ParserFacts.

Variable tokens : list Token.


(** ** [current] only moves forward *)

Lemma forward_ret {A} (a : A) : forward tokens (ret a).
Proof. intros cur b cur' H. inversion H; subst. auto. Qed.

Lemma forward_throw {A} (e : Exception) : forward tokens (@throw nat A e).
Proof. intros cur b cur' H. discriminate. Qed.

Lemma forward_diverge {A} : forward tokens (@diverge nat A).
Proof. intros cur b cur' H. discriminate. Qed.

Lemma forward_bind {A B} (m : Parser A) (k : A -> Parser B) :
  forward tokens m -> (forall a, forward tokens (k a)) -> forward tokens (bind m k).
Proof.
  intros Hm Hk cur b cur' H.
  apply bind_Ok in H as (a & c & H1 & H2).
  apply Hm in H1. apply Hk in H2. intuition lia.
Qed.

Lemma peek_Ok (cur cur' : nat) (token : Token) :
  peek tokens cur = Ok (token, cur') ->
  nth_error tokens cur = Some token /\ cur' = cur.
Proof.
  unfold peek. destruct (nth_error tokens cur); intros H; inversion H; auto.
Qed.

Lemma advance_Ok (cur cur' : nat) (token : Token) :
  advance tokens cur = Ok (token, cur') ->
  nth_error tokens cur = Some token /\ cur' = S cur.
Proof.
  unfold advance. intros H. apply bind_Ok in H as (a & c & H1 & H2).
  apply peek_Ok in H1 as [H1 ->]. inversion H2; subst. auto.
Qed.

Lemma previous_Ok (cur cur' : nat) (token : Token) :
  previous tokens cur = Ok (token, cur') ->
  nth_error tokens (pred cur) = Some token /\ 0 < cur /\ cur' = cur.
Proof.
  unfold previous. destruct cur as [|c]; [discriminate|]. simpl.
  destruct (nth_error tokens c); intros H; inversion H; subst.
  repeat split; lia.
Qed.

Lemma match_Ok (types : list TokenType) (cur cur' : nat) (b : bool) :
  match_ tokens types cur = Ok (b, cur') ->
  exists token,
    nth_error tokens cur = Some token
    /\ b = includes types (type token)
    /\ cur' = if b then S cur else cur.
Proof.
  unfold match_. intros H. apply bind_Ok in H as (token & c & H1 & H2).
  apply peek_Ok in H1 as [H1 ->]. exists token.
  destruct (includes types (type token)).
  - apply bind_Ok in H2 as (t & c & H2 & H3).
    apply advance_Ok in H2 as [_ ->]. inversion H3; subst. auto.
  - inversion H2; subst. auto.
Qed.

Lemma expect_Ok (t : TokenType) (cur cur' : nat) (token : Token) :
  expect tokens t cur = Ok (token, cur') ->
  nth_error tokens cur = Some token
  /\ TokenType_eqb (type token) t = true
  /\ cur' = S cur.
Proof.
  unfold expect. intros H. apply bind_Ok in H as (tk & c & H1 & H2).
  apply peek_Ok in H1 as [H1 ->].
  destruct (TokenType_eqb (type tk) t) eqn:E; [|discriminate].
  apply advance_Ok in H2 as [H2 ->].
  assert (tk = token) by congruence. subst. auto.
Qed.

Lemma nth_error_bound {A} (l : list A) (n : nat) (x : A) :
  nth_error l n = Some x -> S n <= List.length l.
Proof. intros H. apply nth_error_Some. congruence. Qed.

Lemma forward_peek : forward tokens (peek tokens).
Proof. intros cur a cur' H. apply peek_Ok in H as [_ ->]. auto. Qed.

Lemma forward_advance : forward tokens (advance tokens).
Proof.
  intros cur a cur' H. apply advance_Ok in H as [H ->].
  apply nth_error_bound in H. lia.
Qed.

Lemma forward_previous : forward tokens (previous tokens).
Proof. intros cur a cur' H. apply previous_Ok in H as (_ & _ & ->). auto. Qed.

Lemma forward_nextType : forward tokens (nextType tokens).
Proof. intros cur a cur' H. inversion H; subst. auto. Qed.

Lemma forward_match (types : list TokenType) : forward tokens (match_ tokens types).
Proof.
  intros cur b cur' H. apply match_Ok in H as (token & H & _ & ->).
  apply nth_error_bound in H. destruct b; lia.
Qed.

Lemma forward_expect (t : TokenType) : forward tokens (expect tokens t).
Proof.
  intros cur a cur' H. apply expect_Ok in H as (H & _ & ->).
  apply nth_error_bound in H. lia.
Qed.

Lemma forward_literalOf (token : Token) : forward tokens (literalOf token).
Proof.
  unfold literalOf. destruct (literal token);
    [apply forward_ret | apply forward_throw].
Qed.

Lemma forward_asOperator (token : Token) : forward tokens (asOperator token).
Proof.
  unfold asOperator. destruct (type token);
    first [apply forward_ret | apply forward_throw].
Qed.

Lemma forward_asDiceModifier (token : Token) : forward tokens (asDiceModifier token).
Proof.
  unfold asDiceModifier. destruct (type token);
    first [apply forward_ret | apply forward_throw].
Qed.

Hint Resolve forward_ret forward_throw forward_diverge forward_peek
  forward_advance forward_previous forward_nextType forward_match
  forward_expect forward_literalOf forward_asOperator
  forward_asDiceModifier : parser.

(** Splits a goal [forward (x <- m ;; k)] along the binds and the tests. *)
Ltac forward_steps :=
  repeat first
    [ solve [auto with parser]
    | match goal with
      | |- forward _ (if ?b then _ else _) => destruct b
      end
    | match goal with
      | |- forward _ (bind _ _) => apply forward_bind; [ | intros ]
      end ].

Lemma forward_factorLoop (P : Parser ASTNode) :
  forward tokens P -> forall fuel expr, forward tokens (factorLoop tokens P fuel expr).
Proof.
  intros HP fuel. induction fuel as [|fuel IH]; intros expr;
    cbn [factorLoop]; forward_steps.
Qed.

Lemma forward_factor (P : Parser ASTNode) : forward tokens P -> forward tokens (factor tokens P).
Proof.
  intros HP. unfold factor. forward_steps. now apply forward_factorLoop.
Qed.

Lemma forward_termLoop (P : Parser ASTNode) :
  forward tokens P -> forall fuel expr, forward tokens (termLoop tokens P fuel expr).
Proof.
  intros HP fuel. pose proof (forward_factor P HP).
  induction fuel as [|fuel IH]; intros expr; cbn [termLoop]; forward_steps.
Qed.

Lemma forward_term (P : Parser ASTNode) : forward tokens P -> forward tokens (term tokens P).
Proof.
  intros HP. unfold term. pose proof (forward_factor P HP).
  forward_steps. now apply forward_termLoop.
Qed.

Lemma forward_dice (P : Parser ASTNode) : forward tokens P -> forward tokens (dice tokens P).
Proof. intros HP. unfold dice. forward_steps. Qed.

Lemma forward_primary (fuel : nat) : forward tokens (primary tokens fuel).
Proof.
  induction fuel as [|fuel IH]; cbn [primary]; [auto with parser|].
  pose proof (forward_dice _ IH). pose proof (forward_term _ IH).
  forward_steps.
Qed.

Hint Resolve forward_factorLoop forward_factor forward_termLoop
  forward_term forward_dice forward_primary : parser.

(** ** The parser has fuel enough *)

Lemma safe_weaken {A} (p : Parser A) (c c' : nat) :
  c <= c' -> safe tokens p c -> safe tokens p c'.
Proof. intros Hc Hp cur H1 H2. apply Hp; lia. Qed.

Lemma safe_ret {A} (a : A) (c : nat) : safe tokens (ret a) c.
Proof. intros cur _ _. discriminate. Qed.

Lemma safe_throw {A} (e : Exception) (c : nat) : safe tokens (@throw nat A e) c.
Proof. intros cur _ _. discriminate. Qed.

Lemma safe_peek (c : nat) : safe tokens (peek tokens) c.
Proof.
  intros cur _ _. unfold peek. destruct (nth_error tokens cur); discriminate.
Qed.

Lemma safe_previous (c : nat) : safe tokens (previous tokens) c.
Proof.
  intros cur _ _. unfold previous. destruct cur; [discriminate|].
  destruct (nth_error tokens cur); discriminate.
Qed.

Lemma safe_nextType (c : nat) : safe tokens (nextType tokens) c.
Proof. intros cur _ _. discriminate. Qed.

Lemma safe_advance (c : nat) : safe tokens (advance tokens) c.
Proof.
  intros cur _ _. unfold advance, bind, peek.
  destruct (nth_error tokens cur); discriminate.
Qed.

Lemma safe_match (types : list TokenType) (c : nat) :
  safe tokens (match_ tokens types) c.
Proof.
  intros cur _ _. unfold match_, bind, peek, advance, bind, peek.
  destruct (nth_error tokens cur) as [token|] eqn:E; [|discriminate].
  destruct (includes types (type token)); [|discriminate].
  rewrite E. discriminate.
Qed.

Lemma safe_expect (t : TokenType) (c : nat) : safe tokens (expect tokens t) c.
Proof.
  intros cur _ _. unfold expect, bind, peek, advance, bind, peek.
  destruct (nth_error tokens cur) as [token|] eqn:E; [|discriminate].
  destruct (TokenType_eqb (type token) t); [|discriminate].
  rewrite E. discriminate.
Qed.

Lemma safe_literalOf (token : Token) (c : nat) : safe tokens (literalOf token) c.
Proof.
  unfold literalOf. destruct (literal token);
    [apply safe_ret | apply safe_throw].
Qed.

Lemma safe_asOperator (token : Token) (c : nat) : safe tokens (asOperator token) c.
Proof.
  unfold asOperator. destruct (type token);
    first [apply safe_ret | apply safe_throw].
Qed.

Lemma safe_asDiceModifier (token : Token) (c : nat) :
  safe tokens (asDiceModifier token) c.
Proof.
  unfold asDiceModifier. destruct (type token);
    first [apply safe_ret | apply safe_throw].
Qed.

Lemma safe_bind {A B} (m : Parser A) (k : A -> Parser B) (c : nat) :
  safe tokens m c -> forward tokens m -> (forall a, safe tokens (k a) c) -> safe tokens (bind m k) c.
Proof.
  intros Hm Hf Hk cur H1 H2. unfold bind.
  destruct (m cur) as [[a cur']| |] eqn:E; [| discriminate |].
  - apply Hf in E as [E1 E2]. apply Hk; [lia | auto].
  - exfalso. now apply (Hm cur).
Qed.

(** After a token was consumed, what follows runs from [S c] on. *)
Lemma safe_bind_expect {B} (t : TokenType) (k : Token -> Parser B)
      (c : nat) :
  (forall a, safe tokens (k a) (S c)) -> safe tokens (bind (expect tokens t) k) c.
Proof.
  intros Hk cur H1 H2. unfold bind.
  destruct (expect tokens t cur) as [[a cur']| |] eqn:E; [| discriminate |].
  - apply expect_Ok in E as (E & _ & ->). apply nth_error_bound in E.
    apply Hk; lia.
  - exfalso. now apply (safe_expect t c cur).
Qed.

Lemma safe_bind_match {B} (types : list TokenType) (k : bool -> Parser B)
      (c : nat) :
  safe tokens (k true) (S c) -> safe tokens (k false) c -> safe tokens (bind (match_ tokens types) k) c.
Proof.
  intros Ht Hf cur H1 H2. unfold bind.
  destruct (match_ tokens types cur) as [[b cur']| |] eqn:E;
    [| discriminate |].
  - apply match_Ok in E as (token & E & _ & ->). apply nth_error_bound in E.
    destruct b; [apply Ht | apply Hf]; lia.
  - exfalso. now apply (safe_match types c cur).
Qed.

Hint Resolve safe_ret safe_throw safe_peek safe_previous safe_nextType
  safe_advance safe_match safe_expect safe_literalOf safe_asOperator
  safe_asDiceModifier : parser.

(** Splits a goal [safe (x <- m ;; k)] along the binds and the tests. *)
Ltac safe_steps :=
  repeat first
    [ solve [auto with parser]
    | match goal with
      | |- safe _ (if ?b then _ else _) _ => destruct b
      end
    | apply safe_bind_match
    | apply safe_bind_expect; intros
    | apply safe_bind; [ | | intros ] ].

Lemma safe_factorLoop (P : Parser ASTNode) :
  forward tokens P ->
  forall fuel c expr,
    List.length tokens <= fuel + c -> safe tokens P (S c) ->
    safe tokens (factorLoop tokens P fuel expr) c.
Proof.
  intros HP fuel. induction fuel as [|fuel IH]; intros c expr Hf Hs;
    cbn [factorLoop].
  - apply safe_bind_match; [|auto with parser].
    intros cur H1 H2. lia.
  - apply safe_bind_match; [|auto with parser].
    safe_steps. apply IH; [lia|]. eapply safe_weaken; [|exact Hs]. lia.
Qed.

Lemma safe_factor (P : Parser ASTNode) (c : nat) :
  forward tokens P -> safe tokens P c -> safe tokens (factor tokens P) c.
Proof.
  intros HP Hs. unfold factor. safe_steps.
  apply safe_factorLoop; [assumption | lia |].
  eapply safe_weaken; [|exact Hs]. lia.
Qed.

Lemma safe_termLoop (P : Parser ASTNode) :
  forward tokens P ->
  forall fuel c expr,
    List.length tokens <= fuel + c -> safe tokens P (S c) ->
    safe tokens (termLoop tokens P fuel expr) c.
Proof.
  intros HP fuel. induction fuel as [|fuel IH]; intros c expr Hf Hs;
    cbn [termLoop].
  - apply safe_bind_match; [|auto with parser].
    intros cur H1 H2. lia.
  - apply safe_bind_match; [|auto with parser].
    pose proof (safe_factor P (S c) HP Hs).
    safe_steps. apply IH; [lia|]. eapply safe_weaken; [|exact Hs]. lia.
Qed.

Lemma safe_term (P : Parser ASTNode) (c : nat) :
  forward tokens P -> safe tokens P c -> safe tokens (term tokens P) c.
Proof.
  intros HP Hs. unfold term. pose proof (safe_factor P c HP Hs).
  safe_steps.
  apply safe_termLoop; [assumption | lia |].
  eapply safe_weaken; [|exact Hs]. lia.
Qed.

Lemma safe_dice (P : Parser ASTNode) (c : nat) :
  forward tokens P -> safe tokens P (S c) -> safe tokens (dice tokens P) c.
Proof.
  intros HP Hs. unfold dice.
  apply safe_bind; [auto with parser | auto with parser | intros m].
  apply safe_bind; [destruct m; safe_steps | destruct m; forward_steps |].
  intros n. safe_steps.
  eapply safe_weaken; [|exact Hs]. lia.
Qed.

Lemma safe_primary (fuel c : nat) :
  List.length tokens < fuel + c -> safe tokens (primary tokens fuel) c.
Proof.
  revert c. induction fuel as [|fuel IH]; intros c Hf; cbn [primary].
  - intros cur H1 H2. lia.
  - assert (Hs : safe tokens (primary tokens fuel) (S c)) by (apply IH; lia).
    pose proof (forward_primary fuel) as HP.
    pose proof (safe_dice _ c HP Hs).
    pose proof (safe_term _ (S c) HP Hs).
    safe_steps.
Qed.

Lemma topTerm_terminates : topTerm tokens 0 <> Diverge.
Proof.
  assert (H : safe tokens (topTerm tokens) 0).
  { apply safe_term; [apply forward_primary|].
    apply safe_primary. unfold parseFuel. lia. }
  apply H; lia.
Qed.

(** [parse] never runs out of fuel. *)
Lemma parse_terminates : parse tokens <> Diverge.
Proof.
  unfold parse.
  assert (H : safe tokens (topTerm tokens) 0).
  { apply safe_term; [apply forward_primary|].
    apply safe_primary. unfold parseFuel. lia. }
  match goal with |- context [?p 0] =>
    assert (Hp : safe tokens p 0) by (safe_steps; apply forward_term, forward_primary)
  end.
  specialize (Hp 0 (Nat.le_refl _) (Nat.le_0_l _)).
  match goal with |- context [match ?x with _ => _ end] =>
    destruct x as [[r c]| |] end; congruence.
Qed.

End ParserFacts.

#[global] Hint Resolve forward_ret forward_throw forward_diverge forward_peek
  forward_advance forward_previous forward_nextType forward_match
  forward_expect forward_literalOf forward_asOperator
  forward_asDiceModifier forward_factorLoop forward_factor forward_termLoop
  forward_term forward_dice forward_primary : parser.

(* ================================================================== *)
(** * Properties of the roll counter and of the evaluator *)

Section EvaluatorFacts.

Variable St : Type.
Variable random : Random St.
Variable numberToString : number -> string.

Lemma arrayFrom_total (n : nat) (max : number) (s : St) :
  exists xs s',
    arrayFrom St n (callRandom St random max) s = Ok (xs, s')
    /\ List.length xs = n.
Proof.
  revert s. induction n as [|n IH]; intros s; cbn [arrayFrom].
  - exists [], s. split; reflexivity.
  - unfold bind at 1. unfold callRandom at 1.
    destruct (random max s) as [x s1].
    destruct (IH s1) as (xs & s' & E & L).
    unfold bind at 1. rewrite E. exists (x :: xs), s'. simpl. auto.
Qed.

Lemma evaluateDice_Ok (node : DiceNode) (s : St) :
  (numDice node <=? maxArrayLength)%N = true ->
  exists xs s',
    arrayFrom St (N.to_nat (numDice node))
              (callRandom St random (ofN (numSides node))) s = Ok (xs, s')
    /\ List.length xs = N.to_nat (numDice node)
    /\ evaluateDice St random numberToString node s
       = Ok (mkResult (sum xs) (Some xs)
               ("[" ++ join " + " (map numberToString xs) ++ "]"), s').
Proof.
  intros H. unfold evaluateDice. rewrite H.
  destruct (arrayFrom_total (N.to_nat (numDice node))
              (ofN (numSides node)) s) as (xs & s' & E & L).
  exists xs, s'. repeat split; auto.
  unfold bind. now rewrite E.
Qed.

Lemma evaluateDice_rolls (node : DiceNode) (s s' : St) (r : Result) :
  evaluateDice St random numberToString node s = Ok (r, s') ->
  exists xs, rolls r = Some xs /\ result r = sum xs
             /\ List.length xs = N.to_nat (numDice node).
Proof.
  unfold evaluateDice.
  destruct (numDice node <=? maxArrayLength)%N; [|discriminate].
  destruct (arrayFrom_total (N.to_nat (numDice node))
              (ofN (numSides node)) s) as (xs & s1 & E & L).
  unfold bind. rewrite E. intros H. inversion H; subst. simpl. eauto.
Qed.

(** [evaluate] has no loop of its own: it returns or throws. *)
Lemma evaluate_terminates (ast : ASTNode) (s : St) :
  evaluate St random numberToString ast s <> Diverge.
Proof.
  revert s. induction ast as [v|d|l IHl o r IHr|d o r IHr|e IHe]; intros s;
    cbn [evaluate].
  - discriminate.
  - unfold evaluateDice.
    destruct (numDice d <=? maxArrayLength)%N; [|discriminate].
    destruct (arrayFrom_total (N.to_nat (numDice d))
                (ofN (numSides d)) s) as (xs & s1 & E & L).
    unfold bind. rewrite E. discriminate.
  - unfold bind. specialize (IHl s).
    destruct (evaluate St random numberToString l s) as [[a s1]| |];
      [|discriminate|congruence].
    specialize (IHr s1).
    destruct (evaluate St random numberToString r s1) as [[b s2]| |];
      [discriminate|discriminate|congruence].
  - unfold bind at 1.
    destruct (evaluateDice St random numberToString d s) as [[a s1]| |] eqn:E;
      [|discriminate|].
    + unfold bind. specialize (IHr s1).
      destruct (evaluate St random numberToString r s1) as [[b s2]| |];
        [|discriminate|congruence].
      destruct (rolls a); [destruct o|]; discriminate.
    + exfalso. revert E. unfold evaluateDice.
      destruct (numDice d <=? maxArrayLength)%N; [|discriminate].
      destruct (arrayFrom_total (N.to_nat (numDice d))
                  (ofN (numSides d)) s) as (xs & s1 & E & L).
      unfold bind. rewrite E. discriminate.
  - unfold bind. specialize (IHe s).
    destruct (evaluate St random numberToString e s) as [[a s1]| |];
      [discriminate|discriminate|congruence].
Qed.

(** [evaluate] never throws the error of the limit check. *)
Lemma evaluate_not_TooManyDice (ast : ASTNode) (s : St) (n : N) :
  evaluate St random numberToString ast s <> Throw (TooManyDiceError n).
Proof.
  revert s. induction ast as [v|d|l IHl o r IHr|d o r IHr|e IHe]; intros s;
    cbn [evaluate].
  - discriminate.
  - unfold evaluateDice.
    destruct (numDice d <=? maxArrayLength)%N; [|discriminate].
    destruct (arrayFrom_total (N.to_nat (numDice d))
                (ofN (numSides d)) s) as (xs & s1 & E & L).
    unfold bind. rewrite E. discriminate.
  - unfold bind. specialize (IHl s).
    destruct (evaluate St random numberToString l s) as [[a s1]| |];
      [|congruence|discriminate].
    specialize (IHr s1).
    destruct (evaluate St random numberToString r s1) as [[b s2]| |];
      [discriminate|congruence|discriminate].
  - unfold bind at 1.
    destruct (evaluateDice St random numberToString d s) as [[a s1]| |] eqn:E.
    + unfold bind. specialize (IHr s1).
      destruct (evaluate St random numberToString r s1) as [[b s2]| |];
        [|congruence|discriminate].
      destruct (rolls a); [destruct o|]; discriminate.
    + revert E. unfold evaluateDice, throw.
      destruct (numDice d <=? maxArrayLength)%N; [|congruence].
      destruct (arrayFrom_total (N.to_nat (numDice d))
                  (ofN (numSides d)) s) as (xs & s1 & E & L).
      unfold bind. rewrite E. discriminate.
    + discriminate.
  - unfold bind. specialize (IHe s).
    destruct (evaluate St random numberToString e s) as [[a s1]| |];
      [discriminate|congruence|discriminate].
Qed.

End EvaluatorFacts.

(** ** Calls of the randomness source *)

Section Counting.

Variable St : Type.
Variable random : Random St.
Variable numberToString : number -> string.

Lemma arrayFrom_counting (n : nat) (max : number) (s : St) (k : N) :
  exists xs s',
    arrayFrom (St * N) n (callRandom (St * N) (counting random) max) (s, k)
    = Ok (xs, (s', (k + N.of_nat n)%N)).
Proof.
  revert s k. induction n as [|n IH]; intros s k; cbn [arrayFrom].
  - exists [], s. unfold ret. now rewrite N.add_0_r.
  - unfold bind at 1. unfold callRandom at 1. unfold counting at 1.
    cbn [fst snd]. destruct (random max s) as [x s1].
    destruct (IH s1 (N.succ k)) as (xs & s' & E).
    unfold bind at 1. rewrite E. exists (x :: xs), s'. unfold ret.
    do 3 f_equal. lia.
Qed.

Lemma evaluateDice_counting (d : DiceNode) (s : St) (k : N) :
  (numDice d <=? maxArrayLength)%N = true ->
  exists r s',
    evaluateDice (St * N) (counting random) numberToString d (s, k)
    = Ok (r, (s', (k + numDice d)%N)).
Proof.
  intros H. unfold evaluateDice. rewrite H.
  destruct (arrayFrom_counting (N.to_nat (numDice d)) (ofN (numSides d)) s k)
    as (xs & s' & E).
  unfold bind. rewrite E. rewrite N2Nat.id. unfold ret. eauto.
Qed.

Lemma evaluate_counting (ast : ASTNode) (s : St) (k : N) :
  validLengths ast = true ->
  exists r s' calls,
    evaluate (St * N) (counting random) numberToString ast (s, k)
    = Ok (r, (s', calls))
    /\ (calls + countNumbers ast = k + countRolls ast)%N.
Proof.
  revert s k.
  induction ast as [v|d|l IHl o r IHr|d o r IHr|e IHe]; intros s k V;
    cbn [evaluate countRolls countNumbers validLengths] in *.
  - unfold ret. do 3 eexists. split; [reflexivity|lia].
  - destruct (evaluateDice_counting d s k V) as (r & s' & E).
    rewrite E. do 3 eexists. split; [reflexivity|lia].
  - apply andb_true_iff in V as [Vl Vr].
    destruct (IHl s k Vl) as (a & s1 & c1 & E1 & H1).
    destruct (IHr s1 c1 Vr) as (b & s2 & c2 & E2 & H2).
    unfold bind. rewrite E1, E2. unfold ret.
    do 3 eexists. split; [reflexivity|lia].
  - apply andb_true_iff in V as [Vl Vr].
    destruct (evaluateDice_counting d s k Vl) as (a & s1 & E1).
    destruct (IHr s1 (k + numDice d)%N Vr) as (b & s2 & c2 & E2 & H2).
    destruct (evaluateDice_rolls _ _ _ _ _ _ _ E1) as (xs & Hx & _).
    unfold bind. rewrite E1, E2, Hx.
    destruct o; unfold ret; do 3 eexists; (split; [reflexivity|lia]).
  - destruct (IHe s k V) as (a & s1 & c1 & E1 & H1).
    unfold bind. rewrite E1. unfold ret.
    do 3 eexists. split; [reflexivity|lia].
Qed.

End Counting.

(** C1, as amended.  [countRolls] counts one for every [NUMBER] node on top
    of the calls of the randomness source: for a tree whose dice counts
    are array lengths, the evaluation returns after a number of calls
    [calls] with [countRolls ast = calls + countNumbers ast].  A [NUMBER]
    node contributes 1 and a [DICE] node its [numDice]. *)
Theorem countRolls_is_calls_plus_numbers :
  forall (St : Type) (random : Random St) (numberToString : number -> string)
         (ast : ASTNode) (s : St),
    validLengths ast = true ->
    (exists r s' calls,
        evaluate (St * N) (counting random) numberToString ast (s, 0%N)
        = Ok (r, (s', calls))
        /\ countRolls ast = (calls + countNumbers ast)%N)
    /\ (forall value, countRolls (NumberNode value) = 1%N)
    /\ (forall d, countRolls (Dice d) = numDice d).
Proof.
  intros St random nts ast s V. split; [|split; reflexivity].
  destruct (evaluate_counting St random nts ast s 0%N V)
    as (r & s' & calls & E & H).
  exists r, s', calls. split; [assumption|lia].
Qed.

Lemma countRolls_is_calls_plus_numbers_witness :
  validLengths onePlusTwo = true
  /\ exists r s' calls,
      evaluate (unit * N) (counting (fixed (ofN 1))) showNumber onePlusTwo
               (tt, 0%N) = Ok (r, (s', calls))
      /\ countRolls onePlusTwo = (calls + countNumbers onePlusTwo)%N.
Proof.
  split; [reflexivity|].
  apply (countRolls_is_calls_plus_numbers unit (fixed (ofN 1)) showNumber
           onePlusTwo tt).
  reflexivity.
Defined.

(** C1 as stated fails on ["1 + 2"]: [countRolls] is 2 and the evaluation
    calls the randomness source 0 times. *)
Lemma countRolls_is_not_the_number_of_calls :
  parseExpression "1 + 2" = Ok onePlusTwo
  /\ countRolls onePlusTwo = 2%N
  /\ evaluate (unit * N) (counting (fixed (ofN 1))) showNumber onePlusTwo
              (tt, 0%N)
     = Ok (mkResult (Num 3) None "1 + 2", (tt, 0%N))
  /\ 2%N <> 0%N.
Proof. repeat split; try reflexivity. discriminate. Qed.

(** ** Arithmetic of numbers *)

Lemma Qnum_zero (q : Q) : (q == 0)%Q -> Qnum q = 0%Z.
Proof. unfold Qeq. simpl. lia. Qed.

Lemma Qred_inject_Z (q : Q) (z : Z) :
  (q == inject_Z z)%Q -> Qred q = inject_Z z.
Proof.
  intros H. rewrite (Qred_complete _ _ H).
  apply Qcanon.Qred_identity. simpl. apply Z.gcd_1_r.
Qed.

Lemma add_comm (x y : number) : add x y = add y x.
Proof.
  destruct x, y; cbn [add]; try reflexivity.
  f_equal. apply Qred_complete. apply Qplus_comm.
Qed.

Lemma add_assoc (x y z : number) : add (add x y) z = add x (add y z).
Proof.
  destruct x, y, z; cbn [add]; try reflexivity.
  f_equal. apply Qred_complete.
  rewrite !Qred_correct. symmetry. apply Qplus_assoc.
Qed.

Lemma fold_left_add_perm (l l' : list number) :
  Permutation l l' ->
  forall a, fold_left add l a = fold_left add l' a.
Proof.
  induction 1 as [|x l l' _ IH|x y l|l l' l'' _ IH1 _ IH2]; intros a; simpl.
  - reflexivity.
  - apply IH.
  - f_equal. rewrite !add_assoc. f_equal. apply add_comm.
  - now rewrite IH1.
Qed.

Lemma sum_perm (l l' : list number) : Permutation l l' -> sum l = sum l'.
Proof. intros H. now apply fold_left_add_perm. Qed.

(** ** Sorting and slicing *)

Lemma insertSorted_perm (x : number) (l : list number) :
  Permutation (insertSorted x l) (x :: l).
Proof.
  induction l as [|y l IH]; cbn [insertSorted]; [reflexivity|].
  destruct (gt (sub x y) (Num 0%Q)); [|reflexivity].
  rewrite IH. apply perm_swap.
Qed.

Lemma toSorted_perm (l : list number) : Permutation (toSorted l) l.
Proof.
  induction l as [|x l IH]; simpl; [reflexivity|].
  rewrite insertSorted_perm. now constructor.
Qed.

Lemma toSorted_length (l : list number) :
  List.length (toSorted l) = List.length l.
Proof. apply Permutation_length, toSorted_perm. Qed.

(** On finite numbers the comparison is that of the rationals. *)
Lemma gt_sub_finite (a b : Q) :
  gt (sub (Num a) (Num b)) (Num 0%Q) = true <-> (b < a)%Q.
Proof.
  unfold sub, neg, add, gt. rewrite Qlt_minus_iff.
  destruct (Qcompare_spec (Qred (a + Qred (- b))) 0) as [H|H|H];
    rewrite !Qred_correct in H; split; intros H'; try discriminate;
    try reflexivity; try assumption.
  - rewrite H in H'. now apply Qlt_irrefl in H'.
  - exfalso. apply (Qlt_irrefl 0). eapply Qlt_trans; eauto.
Qed.

Lemma insertSorted_HdRel (y x : number) (l : list number) :
  numLe y x -> HdRel numLe y l -> HdRel numLe y (insertSorted x l).
Proof.
  intros Hyx Hl. destruct l as [|z l]; cbn [insertSorted];
    [now constructor|].
  destruct (gt (sub x z) (Num 0%Q)); constructor; [|assumption].
  now inversion Hl.
Qed.

Lemma insertSorted_sorted (x : number) (l : list number) :
  isFinite x -> Forall isFinite l -> Sorted numLe l ->
  Sorted numLe (insertSorted x l).
Proof.
  intros [a ->] Hf Hs. induction l as [|y l IH]; cbn [insertSorted].
  - repeat constructor.
  - inversion Hf as [|? ? [b ->] Hf']; subst.
    inversion Hs as [|? ? Hs' Hd]; subst.
    destruct (gt (sub (Num a) (Num b)) (Num 0%Q)) eqn:E.
    + constructor; [now apply IH|].
      apply insertSorted_HdRel; [|assumption].
      apply gt_sub_finite in E. cbn [numLe]. now apply Qlt_le_weak.
    + constructor; [assumption|]. constructor. cbn [numLe].
      apply Qnot_lt_le. intros H. apply gt_sub_finite in H. congruence.
Qed.

Lemma insertSorted_finite (x : number) (l : list number) :
  isFinite x -> Forall isFinite l -> Forall isFinite (insertSorted x l).
Proof.
  intros Hx Hl. eapply Permutation_Forall.
  - symmetry. apply insertSorted_perm.
  - now constructor.
Qed.

(** [toSorted] sorts finite numbers in ascending order. *)
Lemma toSorted_sorted (l : list number) :
  Forall isFinite l -> Sorted numLe (toSorted l).
Proof.
  induction 1 as [|x l Hx Hl IH]; simpl; [constructor|].
  apply insertSorted_sorted; auto.
  eapply Permutation_Forall; [symmetry; apply toSorted_perm | assumption].
Qed.

Lemma toInteger_zero (q : Q) :
  (q == 0)%Q -> toIntegerOrInfinity (Num q) = Int 0.
Proof.
  intros H. unfold toIntegerOrInfinity. now rewrite (Qnum_zero _ H).
Qed.

Lemma toInteger_integer (q : Q) (z : Z) :
  (q == inject_Z z)%Q -> toIntegerOrInfinity (Num q) = Int z.
Proof.
  intros H. unfold toIntegerOrInfinity. f_equal.
  unfold Qeq in H. simpl in H. rewrite Z.mul_1_r in H. rewrite H.
  apply Z.quot_mul. discriminate.
Qed.

Lemma toInteger_neg_integer (q : Q) (z : Z) :
  (q == inject_Z z)%Q -> toIntegerOrInfinity (neg (Num q)) = Int (- z).
Proof.
  intros H. unfold neg. apply toInteger_integer.
  rewrite Qred_correct, H. reflexivity.
Qed.

(** [arr.slice(-k)] for a count [k >= 1]: the last [k] elements. *)
Lemma sliceFrom_neg_count {A} (arr : list A) (q : Q) (k : nat) :
  (q == inject_Z (Z.of_nat k))%Q -> 1 <= k ->
  sliceFrom arr (neg (Num q)) = lastn k arr.
Proof.
  intros H Hk. unfold sliceFrom, lastn.
  rewrite (toInteger_neg_integer _ _ H). unfold clampIndex.
  destruct (Z.ltb_spec (- Z.of_nat k) 0) as [_|]; [|lia].
  f_equal. lia.
Qed.

(** [arr.slice(0, k)] for a count [k]: the first [k] elements. *)
Lemma sliceRange_count {A} (arr : list A) (q : Q) (k : nat) :
  (q == inject_Z (Z.of_nat k))%Q ->
  sliceRange arr (Num 0%Q) (Num q) = firstn k arr.
Proof.
  intros H. unfold sliceRange.
  rewrite (toInteger_integer _ _ H).
  rewrite (toInteger_zero 0%Q) by reflexivity. unfold clampIndex.
  destruct (Z.ltb_spec 0 0) as [|_]; [lia|].
  destruct (Z.ltb_spec (Z.of_nat k) 0) as [|_]; [lia|].
  replace (Z.to_nat (Z.min 0 (Z.of_nat (List.length arr)))) with 0 by lia.
  rewrite Nat.sub_0_r. simpl.
  destruct (Nat.le_gt_cases k (List.length arr)).
  - f_equal. lia.
  - rewrite !firstn_all2 by lia. reflexivity.
Qed.

(** [arr.slice(-0)] is the whole array, [arr.slice(0, 0)] is empty. *)
Lemma sliceFrom_neg_zero {A} (arr : list A) (q : Q) :
  (q == 0)%Q -> sliceFrom arr (neg (Num q)) = arr.
Proof.
  intros H. unfold sliceFrom.
  rewrite (toInteger_neg_integer q 0%Z H). unfold clampIndex.
  change (- 0 <? 0)%Z with false. cbv iota.
  replace (Z.to_nat (Z.min (- 0) (Z.of_nat (List.length arr)))) with 0 by lia.
  reflexivity.
Qed.

Lemma sliceRange_zero {A} (arr : list A) (q : Q) :
  (q == 0)%Q -> sliceRange arr (Num 0%Q) (Num q) = [].
Proof.
  intros H. unfold sliceRange.
  rewrite (toInteger_zero _ H), (toInteger_zero 0%Q) by reflexivity.
  unfold clampIndex. change (0 <? 0)%Z with false. cbv iota.
  replace (Z.to_nat (Z.min 0 (Z.of_nat (List.length arr)))) with 0 by lia.
  reflexivity.
Qed.

Lemma lastn_all {A} (k : nat) (l : list A) :
  List.length l <= k -> lastn k l = l.
Proof.
  intros H. unfold lastn. replace (List.length l - k) with 0 by lia.
  reflexivity.
Qed.

(** ** The keep modifiers *)

Section Keep.

Variable St : Type.
Variable random : Random St.
Variable numberToString : number -> string.

Lemma evaluate_modifier (l : DiceNode) (o : DiceModifierType) (r : ASTNode)
      (s s1 s2 : St) (left right : Result) (xs : list number) :
  evaluateDice St random numberToString l s = Ok (left, s1) ->
  evaluate St random numberToString r s1 = Ok (right, s2) ->
  rolls left = Some xs ->
  evaluate St random numberToString (DiceModifierNode l o r) s
  = Ok (match o with
        | KEEP_HIGHEST =>
            mkResult (sum (sliceFrom (toSorted xs) (neg (result right))))
              None (explanation left ++ "kh" ++ explanation right)
        | KEEP_LOWEST =>
            mkResult (sum (sliceRange (toSorted xs) (Num 0%Q) (result right)))
              None (explanation left ++ "kl" ++ explanation right)
        end, s2).
Proof.
  intros E1 E2 Hx. cbn [evaluate]. unfold bind. rewrite E1, E2, Hx.
  destruct o; reflexivity.
Qed.

(** With a keep count [k >= 1], [KEEP_HIGHEST] sums the last [k] and
    [KEEP_LOWEST] the first [k] of the rolls sorted in ascending order; a
    count above the number of rolls sums them all. *)
Lemma keep_count (l : DiceNode) (r : ASTNode) (s s1 s2 : St)
      (left right : Result) (q : Q) (k : nat) :
  evaluateDice St random numberToString l s = Ok (left, s1) ->
  evaluate St random numberToString r s1 = Ok (right, s2) ->
  result right = Num q -> (q == inject_Z (Z.of_nat k))%Q -> 1 <= k ->
  exists xs,
    rolls left = Some xs
    /\ Permutation (toSorted xs) xs
    /\ (Forall isFinite xs -> Sorted numLe (toSorted xs))
    /\ evaluate St random numberToString (DiceModifierNode l KEEP_HIGHEST r) s
       = Ok (mkResult (sum (lastn k (toSorted xs))) None
               (explanation left ++ "kh" ++ explanation right), s2)
    /\ evaluate St random numberToString (DiceModifierNode l KEEP_LOWEST r) s
       = Ok (mkResult (sum (firstn k (toSorted xs))) None
               (explanation left ++ "kl" ++ explanation right), s2)
    /\ (List.length xs <= k ->
        lastn k (toSorted xs) = toSorted xs
        /\ firstn k (toSorted xs) = toSorted xs).
Proof.
  intros E1 E2 Hq Hk H1.
  destruct (evaluateDice_rolls _ _ _ _ _ _ _ E1) as (xs & Hx & _).
  exists xs. split; [assumption|].
  split; [apply toSorted_perm|]. split; [apply toSorted_sorted|].
  rewrite !(evaluate_modifier _ _ _ _ _ _ _ _ _ E1 E2 Hx), Hq.
  rewrite (sliceFrom_neg_count _ _ _ Hk H1), (sliceRange_count _ _ _ Hk).
  repeat split.
  - apply lastn_all. now rewrite toSorted_length.
  - apply firstn_all2. now rewrite toSorted_length.
Qed.

End Keep.

(* ================================================================== *)
(** * What [lex] and [parse] throw *)

Lemma throwsOnly_ret {St A} (P : Exception -> Prop) (a : A) :
  throwsOnly P (@ret St A a).
Proof. intros s e H. discriminate. Qed.

Lemma throwsOnly_throw {St A} (P : Exception -> Prop) (e : Exception) :
  P e -> throwsOnly P (@throw St A e).
Proof. intros He s e' H. inversion H; subst. assumption. Qed.

Lemma throwsOnly_diverge {St A} (P : Exception -> Prop) :
  throwsOnly P (@diverge St A).
Proof. intros s e H. discriminate. Qed.

Lemma throwsOnly_bind {St A B} (P : Exception -> Prop)
      (m : M St A) (k : A -> M St B) :
  throwsOnly P m -> (forall a, throwsOnly P (k a)) -> throwsOnly P (bind m k).
Proof.
  intros Hm Hk s e. unfold bind.
  destruct (m s) as [[a s']| |] eqn:E; intros H; try discriminate.
  - now apply (Hk a s').
  - inversion H; subst. now apply (Hm s).
Qed.

Section ParserThrows.

Variable tokens : list Token.

Lemma throws_peek : throwsOnly isParseError (peek tokens).
Proof.
  intros s e. unfold peek. destruct (nth_error tokens s); intros H;
    inversion H. exact I.
Qed.

Lemma throws_previous : throwsOnly isParseError (previous tokens).
Proof.
  intros s e. unfold previous. destruct s as [|c].
  - intros H; inversion H. exact I.
  - destruct (nth_error tokens c); intros H; inversion H. exact I.
Qed.

Lemma throws_nextType : throwsOnly isParseError (nextType tokens).
Proof. intros s e H. discriminate. Qed.

Lemma throws_advance : throwsOnly isParseError (advance tokens).
Proof.
  unfold advance. apply throwsOnly_bind; [apply throws_peek|].
  intros a s e H. discriminate.
Qed.

Lemma throws_match (types : list TokenType) :
  throwsOnly isParseError (match_ tokens types).
Proof.
  unfold match_. apply throwsOnly_bind; [apply throws_peek|]. intros a.
  destruct (includes types (type a)); [|apply throwsOnly_ret].
  apply throwsOnly_bind; [apply throws_advance|].
  intros; apply throwsOnly_ret.
Qed.

Lemma throws_expect (t : TokenType) :
  throwsOnly isParseError (expect tokens t).
Proof.
  unfold expect. apply throwsOnly_bind; [apply throws_peek|]. intros a.
  destruct (TokenType_eqb (type a) t); [apply throws_advance|].
  now apply throwsOnly_throw.
Qed.

Lemma throws_literalOf (token : Token) :
  throwsOnly isParseError (@literalOf token).
Proof.
  unfold literalOf. destruct (literal token);
    [apply throwsOnly_ret | now apply throwsOnly_throw].
Qed.

Lemma throws_asOperator (token : Token) :
  throwsOnly isParseError (@asOperator token).
Proof.
  unfold asOperator. destruct (type token);
    first [apply throwsOnly_ret | now apply throwsOnly_throw].
Qed.

Lemma throws_asDiceModifier (token : Token) :
  throwsOnly isParseError (@asDiceModifier token).
Proof.
  unfold asDiceModifier. destruct (type token);
    first [apply throwsOnly_ret | now apply throwsOnly_throw].
Qed.

Hint Resolve throwsOnly_ret throwsOnly_diverge throws_peek throws_previous
  throws_nextType throws_advance throws_match throws_expect
  throws_literalOf throws_asOperator throws_asDiceModifier : parser.

Ltac throws_steps :=
  repeat first
    [ solve [auto with parser]
    | match goal with
      | |- throwsOnly _ (if ?b then _ else _) => destruct b
      end
    | apply throwsOnly_throw; exact I
    | apply throwsOnly_bind; [ | intros ] ].

Lemma throws_factorLoop (P : Parser ASTNode) :
  throwsOnly isParseError P ->
  forall fuel expr, throwsOnly isParseError (factorLoop tokens P fuel expr).
Proof.
  intros HP fuel. induction fuel as [|fuel IH]; intros expr;
    cbn [factorLoop]; throws_steps.
Qed.

Lemma throws_factor (P : Parser ASTNode) :
  throwsOnly isParseError P -> throwsOnly isParseError (factor tokens P).
Proof.
  intros HP. unfold factor. pose proof (throws_factorLoop P HP).
  throws_steps.
Qed.

Lemma throws_termLoop (P : Parser ASTNode) :
  throwsOnly isParseError P ->
  forall fuel expr, throwsOnly isParseError (termLoop tokens P fuel expr).
Proof.
  intros HP fuel. pose proof (throws_factor P HP).
  induction fuel as [|fuel IH]; intros expr; cbn [termLoop]; throws_steps.
Qed.

Lemma throws_term (P : Parser ASTNode) :
  throwsOnly isParseError P -> throwsOnly isParseError (term tokens P).
Proof.
  intros HP. unfold term. pose proof (throws_factor P HP).
  pose proof (throws_termLoop P HP). throws_steps.
Qed.

Lemma throws_dice (P : Parser ASTNode) :
  throwsOnly isParseError P -> throwsOnly isParseError (dice tokens P).
Proof. intros HP. unfold dice. throws_steps. Qed.

Lemma throws_primary (fuel : nat) :
  throwsOnly isParseError (primary tokens fuel).
Proof.
  induction fuel as [|fuel IH]; cbn [primary]; [auto with parser|].
  pose proof (throws_dice _ IH). pose proof (throws_term _ IH).
  throws_steps.
Qed.

(** [parse] throws nothing but its own errors. *)
Lemma parse_throws (e : Exception) :
  parse tokens = Throw e -> isParseError e.
Proof.
  unfold parse.
  match goal with |- context [?p 0] =>
    assert (Hp : throwsOnly isParseError p)
      by (pose proof (throws_term _ (throws_primary (parseFuel tokens)));
          unfold topTerm; throws_steps)
  end.
  specialize (Hp 0).
  match goal with |- context [match ?x with _ => _ end] =>
    destruct x as [[r c]| |] end; intros H; inversion H; subst.
  now apply Hp.
Qed.

End ParserThrows.

(** ** Invariants of the loop of [lex] *)

Section LexerInvariants.

Variable expression : string.

Lemma lexLoop_invariant (Inv : LexState -> Prop) :
  (forall st c, charAt expression (lexOffset st) = Some c ->
                Inv st -> Inv (lexStep expression st c)) ->
  forall fuel st st',
    lexLoop expression fuel st = Some st' -> Inv st ->
    Inv st' /\ charAt expression (lexOffset st') = None.
Proof.
  intros Hstep fuel. induction fuel as [|fuel IH]; intros st st' H HI;
    simpl in H; destruct (charAt expression (lexOffset st)) eqn:E;
    try discriminate.
  - inversion H; subst. auto.
  - eapply IH; eauto.
  - inversion H; subst. auto.
Qed.

Lemma lexFrom_invariant (Inv : LexState -> Prop) :
  (forall st c, charAt expression (lexOffset st) = Some c ->
                Inv st -> Inv (lexStep expression st c)) ->
  forall st, Inv st ->
    Inv (lexFrom expression st)
    /\ charAt expression (lexOffset (lexFrom expression st)) = None.
Proof.
  intros Hstep st HI.
  eapply lexLoop_invariant; eauto.
  apply lexLoop_lexFrom. apply Nat.le_refl.
Qed.

(** Every error [lex] collects is a [DiceNotationError] that carries the
    whole source string. *)
Lemma lexErrors_kind (st : LexState) :
  Forall (fun e => exists m o, e = DiceNotationError m expression o)
         (lexErrors st) ->
  Forall (fun e => exists m o, e = DiceNotationError m expression o)
         (lexErrors (lexFrom expression st)).
Proof.
  intros H. apply (lexFrom_invariant
    (fun st => Forall (fun e => exists m o, e = DiceNotationError m expression o)
                      (lexErrors st))); [|assumption].
  clear. intros st c _ H. unfold lexStep, single, push.
  repeat match goal with
         | |- context [if ?b then _ else _] => destruct b
         end; cbn [lexErrors]; try assumption;
    (apply Forall_app; split; [assumption|]; repeat constructor; eauto).
Qed.

Lemma lex_throws (e : Exception) :
  lex expression = Throw e ->
  exists m o, e = DiceNotationError m expression o.
Proof.
  unfold lex. rewrite lexRun_lexFrom.
  pose proof (lexErrors_kind (mkLexState 0 [] []) (Forall_nil _)) as H.
  destruct (lexErrors (lexFrom expression (mkLexState 0 [] [])));
    intros E; inversion E; subst.
  now inversion H.
Qed.

End LexerInvariants.

(* ================================================================== *)
(** * The facade *)

Section Facade.

Variable St : Type.
Variable random : Random St.
Variable numberToString : number -> string.

Lemma roll_unfold (expression : string) (maxRolls : option number) (s : St)
      (tokens : list Token) (ast : ASTNode) (warnings : list string) :
  lex expression = Ok tokens -> parse tokens = Ok (ast, warnings) ->
  roll St random numberToString expression maxRolls s
  = bind (checkLimit St maxRolls ast)
         (fun _ => evaluate St random numberToString ast) s.
Proof.
  intros E1 E2. unfold roll. unfold bind at 1. unfold lift at 1.
  rewrite E1. unfold bind at 1. unfold lift at 1. rewrite E2. reflexivity.
Qed.

Lemma roll_lex_throws (expression : string) (maxRolls : option number)
      (s : St) (e : Exception) :
  lex expression = Throw e ->
  roll St random numberToString expression maxRolls s = Throw e.
Proof. intros E. unfold roll, bind, lift. now rewrite E. Qed.

Lemma roll_parse_throws (expression : string) (maxRolls : option number)
      (s : St) (tokens : list Token) (e : Exception) :
  lex expression = Ok tokens -> parse tokens = Throw e ->
  roll St random numberToString expression maxRolls s = Throw e.
Proof. intros E1 E2. unfold roll, bind, lift. now rewrite E1, E2. Qed.

(** [roll] returns or throws. *)
Lemma roll_terminates (expression : string) (maxRolls : option number)
      (s : St) :
  roll St random numberToString expression maxRolls s <> Diverge.
Proof.
  destruct (lex expression) as [tokens|e|] eqn:E1.
  - destruct (parse tokens) as [[ast w]|e|] eqn:E2.
    + rewrite (roll_unfold _ _ _ _ _ _ E1 E2). unfold bind, checkLimit.
      destruct maxRolls as [limit|]; [destruct (truthy limit)|];
        try destruct (gt _ _); try discriminate;
        apply evaluate_terminates.
    + rewrite (roll_parse_throws _ _ _ _ _ E1 E2). discriminate.
    + now apply parse_terminates in E2.
  - rewrite (roll_lex_throws _ _ _ _ E1). discriminate.
  - now apply lex_terminates in E1.
Qed.

(** Without a limit, [roll] never throws the error of the limit check. *)
Lemma roll_no_limit_error (expression : string) (s : St) (n : N) :
  roll St random numberToString expression None s
  <> Throw (TooManyDiceError n).
Proof.
  destruct (lex expression) as [tokens|e|] eqn:E1.
  - destruct (parse tokens) as [[ast w]|e|] eqn:E2.
    + rewrite (roll_unfold _ _ _ _ _ _ E1 E2). unfold bind, checkLimit, ret.
      apply evaluate_not_TooManyDice.
    + rewrite (roll_parse_throws _ _ _ _ _ E1 E2).
      apply parse_throws in E2. intros H; inversion H; subst. exact E2.
    + now apply parse_terminates in E2.
  - rewrite (roll_lex_throws _ _ _ _ E1).
    apply lex_throws in E1 as (m & o & ->). discriminate.
  - now apply lex_terminates in E1.
Qed.

Lemma gt_exceeds (n : N) (limit : number) :
  isPositive limit -> (gt (ofN n) limit = true <-> exceeds n limit).
Proof.
  destruct limit as [q| | |]; simpl; try tauto.
  - intros _. unfold ofN.
    destruct (Qcompare_spec (inject_Z (Z.of_N n)) q) as [H|H|H]; split;
      intros H'; try discriminate; try reflexivity; try assumption.
    + rewrite H in H'. now apply Qlt_irrefl in H'.
    + exfalso. apply (Qlt_irrefl q). eapply Qlt_trans; eauto.
  - intros _. split; [discriminate | tauto].
Qed.

Lemma truthy_positive (limit : number) : isPositive limit -> truthy limit = true.
Proof.
  destruct limit as [q| | |]; simpl; try tauto. intros H.
  destruct (Qeq_bool q 0) eqn:E; [|reflexivity].
  apply Qeq_bool_eq in E. rewrite E in H. now apply Qlt_irrefl in H.
Qed.

End Facade.

(** C9.  [maxRolls: 0] switches the limit check off: [roll] behaves as when
    [maxRolls] is left out, and throws no [TooManyDiceError].  With a
    positive [maxRolls], [roll] throws [TooManyDiceError] with the count
    [countRolls(ast)] when that count is greater than [maxRolls], and
    otherwise evaluates the tree and throws no [TooManyDiceError]. *)
Theorem maxRolls_zero_is_no_limit :
  forall (St : Type) (random : Random St) (numberToString : number -> string)
         (expression : string) (s : St),
    roll St random numberToString expression (Some (Num 0%Q)) s
    = roll St random numberToString expression None s
    /\ (forall n, roll St random numberToString expression (Some (Num 0%Q)) s
                  <> Throw (TooManyDiceError n))
    /\ (forall limit tokens ast warnings,
           isPositive limit ->
           lex expression = Ok tokens ->
           parse tokens = Ok (ast, warnings) ->
           (exceeds (countRolls ast) limit ->
            roll St random numberToString expression (Some limit) s
            = Throw (TooManyDiceError (countRolls ast)))
           /\ (~ exceeds (countRolls ast) limit ->
               roll St random numberToString expression (Some limit) s
               = evaluate St random numberToString ast s
               /\ forall n,
                   roll St random numberToString expression (Some limit) s
                   <> Throw (TooManyDiceError n))).
Proof.
  intros St random nts expression s.
  assert (E0 : roll St random nts expression (Some (Num 0%Q)) s
               = roll St random nts expression None s) by reflexivity.
  split; [exact E0|]. split.
  - intros n. rewrite E0. apply roll_no_limit_error.
  - intros limit tokens ast w Hpos E1 E2.
    rewrite (roll_unfold _ _ _ _ _ _ _ _ _ E1 E2).
    unfold bind, checkLimit. rewrite (truthy_positive _ Hpos).
    pose proof (gt_exceeds (countRolls ast) limit Hpos) as G.
    destruct (gt (ofN (countRolls ast)) limit) eqn:Egt.
    + split; [reflexivity|]. intros H. exfalso. apply H. now apply G.
    + split.
      * intros H. apply G in H. discriminate.
      * intros _. split; [reflexivity|].
        intros n. apply evaluate_not_TooManyDice.
Qed.

Lemma maxRolls_zero_is_no_limit_witness :
  isPositive (Num 2)
  /\ roll unit (fixed (ofN 4)) showNumber "3d6" (Some (Num 2)) tt
     = Throw (TooManyDiceError (countRolls (Dice threeD6))).
Proof.
  split; [reflexivity|].
  apply (proj1 (proj2 (proj2
            (maxRolls_zero_is_no_limit unit (fixed (ofN 4)) showNumber
               "3d6" tt))
            (Num 2) threeD6tokens (Dice threeD6) []
            eq_refl eq_refl eq_refl)).
  reflexivity.
Defined.

(* ================================================================== *)
(** * Tokens and their offsets *)

Lemma Sorted_push (l : list Token) (t : Token) :
  Sorted offsetLe l -> Forall (fun a => offset a <= offset t) l ->
  Sorted offsetLe (push l t).
Proof.
  unfold push. induction l as [|a l IH]; intros Hs Hf; simpl.
  - repeat constructor.
  - inversion Hs as [|? ? Hs' Hd]; subst. inversion Hf as [|? ? Ha Hf']; subst.
    constructor; [now apply IH|].
    destruct l as [|b l]; simpl; constructor; [exact Ha|].
    now inversion Hd.
Qed.

Lemma offsetsInv_push (st : LexState) (t : Token) (off : nat) :
  offsetsInv st -> lexOffset st <= offset t -> offset t <= off ->
  offsetsInv (mkLexState off (push (lexTokens st) t) (lexErrors st)).
Proof.
  intros [Hs Hf] H1 H2. split; cbn [lexTokens lexOffset].
  - apply Sorted_push; [assumption|].
    eapply Forall_impl; [|exact Hf]. simpl. intros; lia.
  - unfold push. apply Forall_app. split.
    + eapply Forall_impl; [|exact Hf]. simpl. intros; lia.
    + repeat constructor. assumption.
Qed.

Lemma offsetsInv_skip (st : LexState) (off : nat) (errors : list Exception) :
  offsetsInv st -> lexOffset st <= off ->
  offsetsInv (mkLexState off (lexTokens st) errors).
Proof.
  intros [Hs Hf] H. split; cbn [lexTokens lexOffset]; [assumption|].
  eapply Forall_impl; [|exact Hf]. simpl. intros; lia.
Qed.

Section LexerOffsets.

Variable expression : string.

Lemma offsetsInv_step (st : LexState) (c : ascii) :
  charAt expression (lexOffset st) = Some c ->
  offsetsInv st -> offsetsInv (lexStep expression st c).
Proof.
  intros Hc HI. pose proof (lexStep_progress expression st c Hc) as [Hlt _].
  revert Hlt. unfold lexStep, single.
  repeat match goal with
         | |- context [if ?b then _ else _] => destruct b
         end; cbn [lexOffset]; intros Hlt;
    first [ apply offsetsInv_skip; [assumption | lia]
          | apply offsetsInv_push; cbn [offset baseToken]; [assumption | lia | lia] ].
Qed.

(** The offsets of the tokens [lex] returns never decrease, and the last
    token is [EOF], with the empty lexeme, at the length of the source. *)
Lemma lex_offsets (tokens : list Token) :
  lex expression = Ok tokens ->
  Sorted offsetLe tokens
  /\ exists front,
      tokens = push front (baseToken EOF "" (String.length expression)).
Proof.
  unfold lex. rewrite lexRun_lexFrom.
  destruct (lexFrom_invariant expression offsetsInv offsetsInv_step
              (mkLexState 0 [] [])) as [[Hs Hf] Hend].
  { split; constructor. }
  pose proof (lexFrom_invariant expression
                (fun st => lexOffset st <= String.length expression)) as Hb.
  destruct (Hb ltac:(intros st c Hc _; now apply lexStep_progress)
               (mkLexState 0 [] []) ltac:(simpl; lia)) as [Hle _].
  apply charAt_None_ge in Hend.
  destruct (lexErrors _); intros H; inversion H; subst.
  replace (lexOffset (lexFrom expression (mkLexState 0 [] [])))
    with (String.length expression) by lia.
  split; [|eauto].
  apply Sorted_push; [assumption|].
  eapply Forall_impl; [|exact Hf]. simpl. intros; lia.
Qed.

(** ** The pairs [kh] and [kl] *)

Lemma charIs_true (x : option ascii) (c : ascii) :
  charIs x c = true <-> x = Some c.
Proof.
  destruct x as [a|]; simpl.
  - rewrite Ascii.eqb_eq. split; congruence.
  - split; discriminate.
Qed.

Lemma charAt_skipn (n i : nat) :
  nth_error (skipn n (list_ascii_of_string expression)) i
  = charAt expression (n + i).
Proof. unfold charAt. apply nth_error_skipn. Qed.

Lemma keepInv_grow (st : LexState) (off : nat) (tokens : list Token)
      (errors : list Exception) :
  keepInv expression st ->
  (forall t, In t (lexTokens st) -> In t tokens) ->
  (forall p, lexOffset st <= p < off ->
             charAt expression p = Some "k"%char ->
             (charAt expression (S p) = Some "h"%char ->
              In (baseToken KEEP_HIGHEST "kh" (S p)) tokens)
             /\ (charAt expression (S p) = Some "l"%char ->
                 In (baseToken KEEP_LOWEST "kh" (S p)) tokens)) ->
  keepInv expression (mkLexState off tokens errors).
Proof.
  intros HI Hin Hnew p Hp Hk. cbn [lexOffset lexTokens] in *.
  destruct (Nat.lt_ge_cases p (lexOffset st)) as [Hlt|Hge].
  - destruct (HI p Hlt Hk) as [H1 H2]. split; intros H; apply Hin; auto.
  - apply Hnew; [lia | assumption].
Qed.

Lemma keepInv_step (st : LexState) (c : ascii) :
  charAt expression (lexOffset st) = Some c ->
  keepInv expression st -> keepInv expression (lexStep expression st c).
Proof.
  intros Hc HI. unfold lexStep, single, push.
  repeat match goal with
         | |- context [if ?b then _ else _] => destruct b eqn:?
         end;
    (apply (keepInv_grow st); [assumption | intros t Ht; try assumption;
                                            apply in_or_app; now left |]);
    intros p Hp Hk;
    try (assert (p = lexOffset st) by lia; subst p;
         assert (c = "k"%char) by congruence; subst c; try discriminate).
  - (* a number: no [k] among its digits *)
    exfalso.
    assert (Hd : isDigit "k" = true); [|discriminate Hd].
    apply (digitRun_digits
             (skipn (lexOffset st) (list_ascii_of_string expression))
             (p - lexOffset st)); [lia|].
    rewrite charAt_skipn. replace (lexOffset st + (p - lexOffset st)) with p
      by lia. assumption.
  - (* kh *)
    destruct (Nat.eq_dec p (lexOffset st)) as [->|Hne].
    + match goal with H : charIs _ "h" = true |- _ =>
        apply charIs_true in H; rewrite H end.
      split; intros H'; [|discriminate H'].
      apply in_or_app. right. now left.
    + assert (p = S (lexOffset st)) by lia. subst p.
      match goal with H : charIs _ "h" = true |- _ =>
        apply charIs_true in H; rewrite H in Hk end. discriminate.
  - (* kl *)
    destruct (Nat.eq_dec p (lexOffset st)) as [->|Hne].
    + match goal with H : charIs _ "l" = true |- _ =>
        apply charIs_true in H; rewrite H end.
      split; intros H'; [discriminate H'|].
      apply in_or_app. right. now left.
    + assert (p = S (lexOffset st)) by lia. subst p.
      match goal with H : charIs _ "l" = true |- _ =>
        apply charIs_true in H; rewrite H in Hk end. discriminate.
  - (* k, and neither h nor l after it *)
    split; intros H';
      match goal with H : charIs _ ?x = false |- _ =>
        (assert (E : charIs (charAt expression (S (lexOffset st))) x = true)
           by (now apply charIs_true)); congruence
      end.
Qed.

Lemma lex_keep_tokens (tokens : list Token) (p : nat) :
  lex expression = Ok tokens ->
  charAt expression p = Some "k"%char ->
  (charAt expression (S p) = Some "h"%char ->
   In (baseToken KEEP_HIGHEST "kh" (S p)) tokens)
  /\ (charAt expression (S p) = Some "l"%char ->
      In (baseToken KEEP_LOWEST "kh" (S p)) tokens).
Proof.
  unfold lex. rewrite lexRun_lexFrom.
  destruct (lexFrom_invariant expression (keepInv expression) keepInv_step
              (mkLexState 0 [] [])) as [HI Hend].
  { intros q Hq. simpl in Hq. lia. }
  destruct (lexErrors _); intros H Hk; inversion H; subst.
  apply charAt_None_ge in Hend. pose proof (charAt_Some_lt _ _ _ Hk).
  destruct (HI p ltac:(lia) Hk) as [H1 H2].
  unfold push. split; intros H'; apply in_or_app; left; auto.
Qed.

End LexerOffsets.

(** C5.  The pair [kh] gives a [KEEP_HIGHEST] token with the lexeme
    ["kh"], and the pair [kl] a [KEEP_LOWEST] token with the lexeme ["kh"]
    as well; the two tokens differ in their type only.  This holds for the
    two strings ["kh"] and ["kl"] and for every [k] of a string that [lex]
    accepts. *)
Theorem lex_kh_kl_share_the_lexeme_kh :
  lex "kh" = Ok [baseToken KEEP_HIGHEST "kh" 1; baseToken EOF "" 2]
  /\ lex "kl" = Ok [baseToken KEEP_LOWEST "kh" 1; baseToken EOF "" 2]
  /\ forall (expression : string) (tokens : list Token) (p : nat),
      lex expression = Ok tokens ->
      charAt expression p = Some "k"%char ->
      (charAt expression (S p) = Some "h"%char ->
       In (baseToken KEEP_HIGHEST "kh" (S p)) tokens)
      /\ (charAt expression (S p) = Some "l"%char ->
          In (baseToken KEEP_LOWEST "kh" (S p)) tokens).
Proof.
  split; [reflexivity|]. split; [reflexivity|].
  intros expression tokens p. apply lex_keep_tokens.
Qed.

Lemma lex_kh_kl_share_the_lexeme_kh_witness :
  In (baseToken KEEP_LOWEST "kh" 3)
     [ mkToken NUMBER "12" 0 (Some 12%N); baseToken KEEP_LOWEST "kh" 3;
       mkToken NUMBER "3" 4 (Some 3%N); baseToken EOF "" 5 ].
Proof.
  apply (proj2 (proj2 (proj2 lex_kh_kl_share_the_lexeme_kh) "12kl3" _ 2
                  eq_refl eq_refl)).
  reflexivity.
Defined.

(** C6 fails on ["3d6kh1"]: the text [kh] starts at offset 3, and the
    [KEEP_HIGHEST] token carries offset 4, that of the [h]. *)
Theorem lex_keep_token_offset_is_past_the_k :
  lex "3d6kh1"
  = Ok [ mkToken NUMBER "3" 0 (Some 3%N); baseToken DICE "d" 1;
         mkToken NUMBER "6" 2 (Some 6%N); baseToken KEEP_HIGHEST "kh" 4;
         mkToken NUMBER "1" 5 (Some 1%N); baseToken EOF "" 6 ]
  /\ slice "3d6kh1" 3 5 = "kh"
  /\ slice "3d6kh1" 4 6 = "h1".
Proof. repeat split; reflexivity. Qed.

(* ================================================================== *)
(** * The first lexical error *)

Lemma firstErrorOffset_digits (ds rest : list ascii) (off : nat) :
  forallb isDigit ds = true ->
  firstErrorOffset (ds ++ rest) off
  = firstErrorOffset rest (off + List.length ds).
Proof.
  revert off. induction ds as [|d ds IH]; intros off H; simpl.
  - now rewrite Nat.add_0_r.
  - apply andb_true_iff in H as [Hd Hds].
    destruct (d =? "k")%char eqn:Ek.
    + apply Ascii.eqb_eq in Ek. subst d. discriminate Hd.
    + unfold isRecognized. rewrite Hd, orb_true_r. simpl.
      rewrite IH by assumption. f_equal. lia.
Qed.

Lemma digitRun_prefix (cs : list ascii) :
  forallb isDigit (firstn (digitRun cs) cs) = true.
Proof.
  induction cs as [|c cs IH]; simpl; [reflexivity|].
  destruct (isDigit c) eqn:E; simpl; [|reflexivity].
  now rewrite E.
Qed.

Lemma digitRun_split (cs rest : list ascii) (c : ascii) :
  cs = c :: rest -> isDigit c = true ->
  exists ds,
    forallb isDigit ds = true
    /\ rest = (ds ++ skipn (digitRun cs) cs)%list
    /\ digitRun cs = S (List.length ds).
Proof.
  intros -> Hc. exists (firstn (digitRun rest) rest).
  cbn [digitRun]. rewrite Hc. cbn [skipn].
  split; [apply digitRun_prefix|]. split.
  - symmetry. apply firstn_skipn.
  - rewrite length_firstn. pose proof (digitRun_le rest). lia.
Qed.

Section FirstError.

Variable expression : string.

Lemma lexErrors_grow (st : LexState) :
  exists more,
    lexErrors (lexFrom expression st) = (lexErrors st ++ more)%list.
Proof.
  apply (lexFrom_invariant expression
           (fun st' => exists more, lexErrors st' = (lexErrors st ++ more)%list)).
  - intros st' c _ [more E]. unfold lexStep, single, push.
    repeat match goal with
           | |- context [if ?b then _ else _] => destruct b
           end; cbn [lexErrors]; rewrite E; try (now exists more);
      rewrite <- app_assoc; eauto.
  - exists []. now rewrite app_nil_r.
Qed.

Lemma lexFrom_first_error (n : nat) (st : LexState) :
  String.length expression - lexOffset st <= n ->
  lexErrors st = [] ->
  match firstErrorOffset (skipn (lexOffset st) (list_ascii_of_string expression))
                         (lexOffset st) with
  | Some off =>
      exists message rest,
        lexErrors (lexFrom expression st)
        = DiceNotationError message expression off :: rest
  | None => lexErrors (lexFrom expression st) = []
  end.
Proof.
  revert st. induction n as [|n IH]; intros st Hn He.
  - assert (Hc : charAt expression (lexOffset st) = None).
    { destruct (charAt expression (lexOffset st)) eqn:E; [|reflexivity].
      apply charAt_Some_lt in E. lia. }
    rewrite (lexFrom_done _ _ Hc).
    unfold charAt in Hc. apply nth_error_None in Hc.
    rewrite skipn_all2 by assumption. assumption.
  - destruct (charAt expression (lexOffset st)) as [c|] eqn:Hc.
    2:{ rewrite (lexFrom_done _ _ Hc).
        unfold charAt in Hc. apply nth_error_None in Hc.
        rewrite skipn_all2 by assumption. assumption. }
    rewrite (lexFrom_step _ _ _ Hc).
    pose proof (lexStep_progress expression st c Hc) as [Hlt Hle].
    pose proof Hc as Hs. unfold charAt in Hs.
    apply skipn_nth_error_cons in Hs. rewrite Hs. cbn [firstErrorOffset].
    destruct (c =? "k")%char eqn:Ek.
    + (* k *)
      apply Ascii.eqb_eq in Ek. subst c.
      clear Hlt Hle. unfold lexStep.
      cbn -[charAt diceNotationMessage skipn charIs].
      destruct (charAt expression (S (lexOffset st))) as [c'|] eqn:Hn'.
      * pose proof Hn' as Hs'. unfold charAt in Hs'.
        apply skipn_nth_error_cons in Hs'. rewrite Hs'. cbn [charIs].
        destruct (c' =? "h")%char eqn:Eh; cbn [orb].
        { apply (IH (mkLexState _ _ _)); cbn [lexOffset lexErrors];
            [lia | assumption]. }
        destruct (c' =? "l")%char eqn:El.
        { apply (IH (mkLexState _ _ _)); cbn [lexOffset lexErrors];
            [lia | assumption]. }
        match goal with |- context [lexFrom expression ?s] =>
          destruct (lexErrors_grow s) as [more E] end.
        rewrite E. cbn [lexErrors]. rewrite He. cbn. eauto.
      * unfold charAt in Hn'. apply nth_error_None in Hn'.
        rewrite skipn_all2 by assumption. cbn [charIs].
        match goal with |- context [lexFrom expression ?s] =>
          destruct (lexErrors_grow s) as [more E] end.
        rewrite E. cbn [lexErrors]. rewrite He. cbn. eauto.
    + (* another character *)
      revert Hlt Hle. unfold lexStep, single, isRecognized.
      cbn [existsb]. rewrite Ek.
      destruct (isSpace c) eqn:E1; cbn [orb].
      { intros Hlt Hle. apply (IH (mkLexState _ _ _));
          cbn [lexOffset lexErrors] in *; [lia | assumption]. }
      destruct (isDigit c) eqn:E2; cbn [orb].
      { intros Hlt Hle. cbn [lexOffset] in *.
        destruct (digitRun_split _ _ _ Hs E2) as (ds & Hds & Hrest & Hrun).
        rewrite Hrest, (firstErrorOffset_digits _ _ _ Hds).
        rewrite skipn_skipn.
        replace (S (lexOffset st) + List.length ds)
          with (lexOffset st
                + digitRun (skipn (lexOffset st)
                                  (list_ascii_of_string expression)))
          by lia.
        replace (digitRun (skipn (lexOffset st)
                                 (list_ascii_of_string expression))
                 + lexOffset st)
          with (lexOffset st
                + digitRun (skipn (lexOffset st)
                                  (list_ascii_of_string expression)))
          by lia.
        apply (IH (mkLexState _ _ _)); [|assumption].
        change (String.length expression
                - (lexOffset st
                   + digitRun (skipn (lexOffset st)
                                     (list_ascii_of_string expression)))
                <= n).
        lia. }
      repeat match goal with
             | |- context [if (c =? ?x)%char then _ else _] =>
                 destruct (c =? x)%char eqn:?; cbn [orb];
                 [ intros Hlt Hle; apply (IH (mkLexState _ _ _));
                   cbn [lexOffset lexErrors] in *; [lia | assumption] | ]
             end.
      intros _ _.
      match goal with |- context [lexFrom expression ?s] =>
        destruct (lexErrors_grow s) as [more E] end.
      rewrite E. cbn [lexErrors]. rewrite He. cbn. eauto.
Qed.

End FirstError.

(** ** Where the first error is *)

Lemma firstErrorOffset_cons (c : ascii) (rest : list ascii) (off : nat) :
  firstErrorOffset (c :: rest) off
  = if (c =? "k")%char then
      match rest with
      | n :: rest' =>
          if ((n =? "h") || (n =? "l"))%char
          then firstErrorOffset rest' (S (S off))
          else Some (S off)
      | [] => Some (S off)
      end
    else if isRecognized c then firstErrorOffset rest (S off)
    else Some off.
Proof. reflexivity. Qed.

Lemma firstErrorOffset_shift (cs : list ascii) (off : nat) :
  firstErrorOffset cs off = option_map (Nat.add off) (firstErrorOffset cs 0).
Proof.
  revert off.
  enough (H : (forall off, firstErrorOffset cs off
                           = option_map (Nat.add off) (firstErrorOffset cs 0))
              /\ forall c off,
                  firstErrorOffset (c :: cs) off
                  = option_map (Nat.add off) (firstErrorOffset (c :: cs) 0))
    by apply H.
  induction cs as [|d cs [IH1 IH2]]; split; intros;
    try rewrite (firstErrorOffset_cons c _ off), (firstErrorOffset_cons c _ 0).
  - reflexivity.
  - repeat match goal with
           | |- context [if ?b then _ else _] => destruct b
           end; cbn [firstErrorOffset option_map]; f_equal; lia.
  - apply IH2.
  - destruct (c =? "k")%char.
    + destruct ((d =? "h") || (d =? "l"))%char.
      * rewrite (IH1 (S (S off))), (IH1 2).
        destruct (firstErrorOffset cs 0); cbn [option_map]; f_equal; lia.
      * cbn [option_map]. f_equal; lia.
    + destruct (isRecognized c).
      * rewrite (IH2 d (S off)), (IH2 d 1).
        destruct (firstErrorOffset (d :: cs) 0); cbn [option_map];
          f_equal; lia.
      * cbn [option_map]. f_equal; lia.
Qed.

Lemma errorIn_cons (c : ascii) (cs : list ascii) (off : nat) :
  errorIn cs off -> errorIn (c :: cs) (S off).
Proof.
  intros [(x & H1 & H2 & H3)|(p & -> & H1 & H2 & H3)].
  - left. exists x. auto.
  - right. exists (S p). auto.
Qed.

Lemma keep_letter_recognized (n : ascii) :
  ((n =? "h") || (n =? "l"))%char = true ->
  isRecognized n = true /\ n <> "k"%char.
Proof.
  intros H. apply orb_true_iff in H as [H|H]; apply Ascii.eqb_eq in H;
    subst n; split; try reflexivity; discriminate.
Qed.

Lemma firstErrorOffset_sound (cs : list ascii) (off : nat) :
  firstErrorOffset cs 0 = Some off -> errorIn cs off.
Proof.
  revert off.
  enough (H : (forall off, firstErrorOffset cs 0 = Some off -> errorIn cs off)
              /\ forall c off, firstErrorOffset (c :: cs) 0 = Some off ->
                               errorIn (c :: cs) off)
    by apply H.
  induction cs as [|d cs [IH1 IH2]]; split; intros; try discriminate;
    try (now apply IH2);
    match goal with H : firstErrorOffset _ 0 = Some _ |- _ =>
      rewrite firstErrorOffset_cons in H; rename H into E end.
  - destruct (c =? "k")%char eqn:Ek.
    + apply Ascii.eqb_eq in Ek. subst c. inversion E; subst.
      right. exists 0. repeat split; discriminate.
    + destruct (isRecognized c) eqn:Er; inversion E; subst.
      left. exists c. repeat split; auto.
      intros ->. discriminate.
  - destruct (c =? "k")%char eqn:Ek.
    + apply Ascii.eqb_eq in Ek. subst c.
      destruct ((d =? "h") || (d =? "l"))%char eqn:Ed.
      * rewrite firstErrorOffset_shift in E.
        destruct (firstErrorOffset cs 0) as [o|] eqn:E0; inversion E; subst.
        apply errorIn_cons, errorIn_cons. now apply IH1.
      * inversion E; subst. right. exists 0.
        apply orb_false_iff in Ed as [Eh El].
        repeat split; cbn [nth_error]; intros H; inversion H; subst;
          discriminate.
    + destruct (isRecognized c) eqn:Er.
      * rewrite firstErrorOffset_shift in E.
        destruct (firstErrorOffset (d :: cs) 0) as [o|] eqn:E0;
          inversion E; subst.
        apply errorIn_cons. now apply IH2.
      * inversion E; subst. left. exists c. repeat split; auto.
        intros ->. discriminate.
Qed.

Lemma errorIn_tail (c : ascii) (cs : list ascii) (off : nat) :
  errorIn (c :: cs) (S off) -> c <> "k"%char \/ 0 < off -> errorIn cs off.
Proof.
  intros [(x & H1 & H2 & H3)|(p & E & H1 & H2 & H3)] Hc.
  - left. exists x. auto.
  - inversion E; subst p. destruct off as [|off].
    + cbn [nth_error] in H1. inversion H1; subst.
      destruct Hc as [Hc|Hc]; [congruence|lia].
    + right. exists off. auto.
Qed.

Lemma firstErrorOffset_first (cs : list ascii) (off' : nat) :
  errorIn cs off' ->
  exists off, firstErrorOffset cs 0 = Some off /\ off <= off'.
Proof.
  revert off'.
  enough (H : (forall off', errorIn cs off' ->
                 exists off, firstErrorOffset cs 0 = Some off /\ off <= off')
              /\ forall c off', errorIn (c :: cs) off' ->
                   exists off, firstErrorOffset (c :: cs) 0 = Some off
                               /\ off <= off')
    by apply H.
  induction cs as [|d cs [IH1 IH2]]; split; intros; try (now apply IH2).
  - destruct H as [(x & H1 & _)|(p & _ & H1 & _)]; destruct off';
      try destruct p; discriminate.
  - rewrite firstErrorOffset_cons.
    destruct (c =? "k")%char eqn:Ek.
    + apply Ascii.eqb_eq in Ek. subst c. exists 1. split; [reflexivity|].
      destruct H as [(x & H1 & H2 & _)|(p & -> & _)]; [|lia].
      destruct off' as [|[|o]]; cbn [nth_error] in H1; inversion H1.
      congruence.
    + destruct (isRecognized c) eqn:Er; [|exists 0; split; [auto|lia]].
      exfalso.
      destruct H as [(x & H1 & H2 & H3)|(p & -> & H1 & _)].
      * destruct off' as [|[|o]]; cbn [nth_error] in H1; inversion H1.
        congruence.
      * destruct p as [|[|p]]; cbn [nth_error] in H1; inversion H1; subst.
        discriminate.
  - rewrite firstErrorOffset_cons.
    destruct (c =? "k")%char eqn:Ek.
    + apply Ascii.eqb_eq in Ek. subst c.
      destruct ((d =? "h") || (d =? "l"))%char eqn:Ed.
      * destruct (keep_letter_recognized d Ed) as [Hr Hk].
        destruct off' as [|[|o]].
        -- exfalso. destruct H as [(x & H1 & H2 & _)|(p & E & _)];
             [|discriminate]. inversion H1. congruence.
        -- exfalso.
           destruct H as [(x & H1 & H2 & H3)|(p & E & H1 & H2 & H3)].
           ++ inversion H1; subst. congruence.
           ++ cbn [nth_error] in H2, H3.
              apply orb_true_iff in Ed as [Ed|Ed]; apply Ascii.eqb_eq in Ed;
                subst d; congruence.
        -- apply errorIn_tail in H; [|right; lia].
           apply errorIn_tail in H; [|left; assumption].
           destruct (IH1 o H) as (off & E & Hle).
           rewrite firstErrorOffset_shift, E. cbn [option_map].
           exists (2 + off). split; [reflexivity|lia].
      * exists 1. split; [reflexivity|].
        destruct H as [(x & H1 & H2 & _)|(p & -> & _)]; [|lia].
        destruct off' as [|o]; [|lia]. inversion H1. congruence.
    + assert (Hk : c <> "k"%char).
      { intros ->. discriminate. }
      destruct (isRecognized c) eqn:Er; [|exists 0; split; [auto|lia]].
      destruct off' as [|o].
      * exfalso. destruct H as [(x & H1 & H2 & H3)|(p & E & _)];
          [|discriminate]. inversion H1; subst. congruence.
      * apply errorIn_tail in H; [|left; assumption].
        destruct (IH2 d o H) as (off & E & Hle).
        rewrite firstErrorOffset_shift, E. cbn [option_map].
        exists (1 + off). split; [reflexivity|lia].
Qed.

(** C4, as amended.  When the source has a lexical error, [lex] throws the
    first of the errors it collected from left to right; that error is a
    [DiceNotationError] with the whole source string and with [offset] the
    smallest offset of an error, an error offset being the offset of a
    character that is not recognized, or the offset after a [k] that is
    followed by neither [h] nor [l].  On ["1 @ 2"], [offset] is 2, the
    offset of the [@]. *)
Theorem lex_throws_the_first_error :
  (forall (expression : string) (off' : nat),
      errorAt expression off' ->
      exists message off rest,
        lexErrors (lexFrom expression (mkLexState 0 [] []))
        = DiceNotationError message expression off :: rest
        /\ lex expression = Throw (DiceNotationError message expression off)
        /\ errorAt expression off
        /\ off <= off')
  /\ (exists message,
         lex "1 @ 2" = Throw (DiceNotationError message "1 @ 2" 2))
  /\ charAt "1 @ 2" 2 = Some "@"%char.
Proof.
  split; [|split; [eexists; reflexivity | reflexivity]].
  intros expression off' H.
  destruct (firstErrorOffset_first _ _ H) as (off & E & Hle).
  pose proof (lexFrom_first_error expression (String.length expression)
                (mkLexState 0 [] []) ltac:(simpl; lia) eq_refl) as F.
  cbn [lexOffset skipn] in F. rewrite E in F.
  destruct F as (message & rest & F).
  exists message, off, rest. repeat split; try assumption.
  - unfold lex. rewrite lexRun_lexFrom, F. reflexivity.
  - now apply firstErrorOffset_sound.
Qed.

Lemma lex_throws_the_first_error_witness :
  exists message off rest,
    lexErrors (lexFrom "k@" (mkLexState 0 [] []))
    = DiceNotationError message "k@" off :: rest
    /\ lex "k@" = Throw (DiceNotationError message "k@" off)
    /\ errorAt "k@" off
    /\ off <= 1.
Proof.
  apply (proj1 lex_throws_the_first_error "k@" 1).
  left. exists "@"%char. repeat split; try reflexivity. discriminate.
Defined.

(** C4 as stated fails on ["k"]: the error carries the offset 1, and there
    is no character at offset 1; the [k] is at offset 0. *)
Lemma lex_error_offset_is_past_the_k :
  lex "k"
  = Throw (DiceNotationError
             (diceNotationMessage "Unexpected k" "k" 1) "k" 1)
  /\ charAt "k" 1 = None
  /\ charAt "k" 0 = Some "k"%char.
Proof. repeat split; reflexivity. Qed.

(* ================================================================== *)
(** * What [lex] makes of a written expression *)

Lemma space_not_digit (c : ascii) : isSpace c = true -> isDigit c = false.
Proof.
  unfold isSpace, isDigit, codeOf. intros H.
  destruct (N_of_ascii c <=? N_of_ascii "9")%N eqn:E9;
    [|now rewrite andb_false_r].
  destruct (N_of_ascii "0" <=? N_of_ascii c)%N eqn:E0; [|reflexivity].
  exfalso. change (N_of_ascii "0") with 48%N in E0.
  change (N_of_ascii "9") with 57%N in E9.
  apply N.leb_le in E0, E9.
  repeat (apply orb_true_iff in H as [H|H]).
  - apply andb_true_iff in H as [_ H]. apply N.leb_le in H. lia.
  - apply N.eqb_eq in H. lia.
  - apply N.eqb_eq in H. lia.
Qed.

Lemma string_of_list_ascii_app (l1 l2 : list ascii) :
  string_of_list_ascii (l1 ++ l2)
  = string_of_list_ascii l1 ++ string_of_list_ascii l2.
Proof. induction l1 as [|c l1 IH]; simpl; congruence. Qed.

Lemma string_length_app (s1 s2 : string) :
  String.length (s1 ++ s2) = String.length s1 + String.length s2.
Proof. induction s1 as [|c s1 IH]; simpl; congruence. Qed.

Section Spelling.

Variable expression : string.

Lemma splitAt_charAt (pre post : list ascii) :
  splitAt expression pre post ->
  charAt expression (List.length pre) = nth_error post 0.
Proof.
  unfold splitAt, charAt. intros ->.
  rewrite nth_error_app2 by lia. now rewrite Nat.sub_diag.
Qed.

Lemma splitAt_skipn (pre post : list ascii) :
  splitAt expression pre post ->
  skipn (List.length pre) (list_ascii_of_string expression) = post.
Proof.
  unfold splitAt. intros ->. rewrite skipn_app, Nat.sub_diag, skipn_all.
  reflexivity.
Qed.

Lemma splitAt_next (pre post : list ascii) (c : ascii) :
  splitAt expression pre (c :: post) -> splitAt expression (pre ++ [c]) post.
Proof. unfold splitAt. intros ->. now rewrite <- app_assoc. Qed.

Lemma splitAt_more (pre mid post : list ascii) :
  splitAt expression pre (mid ++ post) -> splitAt expression (pre ++ mid) post.
Proof. unfold splitAt. intros ->. now rewrite <- app_assoc. Qed.

Lemma splitAt_slice (pre mid post : list ascii) :
  splitAt expression pre (mid ++ post) ->
  slice expression (List.length pre) (List.length pre + List.length mid)
  = string_of_list_ascii mid.
Proof.
  intros H. unfold slice. rewrite (splitAt_skipn _ _ H).
  replace (List.length pre + List.length mid - List.length pre)
    with (List.length mid) by lia.
  rewrite firstn_app, Nat.sub_diag, firstn_all. simpl.
  now rewrite app_nil_r.
Qed.

(** One turn of the loop on a character that is a token of its own. *)
Lemma lexFrom_white (pre post ws : list ascii) (tokens : list Token)
      (errors : list Exception) :
  forallb isSpace ws = true ->
  splitAt expression pre (ws ++ post) ->
  lexFrom expression (mkLexState (List.length pre) tokens errors)
  = lexFrom expression
      (mkLexState (List.length pre + List.length ws) tokens errors).
Proof.
  revert pre. induction ws as [|c ws IH]; intros pre Hw Hs.
  - simpl. now rewrite Nat.add_0_r.
  - simpl in Hw. apply andb_true_iff in Hw as [Hc Hw].
    rewrite (lexFrom_step expression _ c)
      by (cbn [lexOffset]; now rewrite (splitAt_charAt _ _ Hs)).
    unfold lexStep. rewrite Hc. cbn [lexOffset lexTokens lexErrors].
    apply splitAt_next in Hs.
    specialize (IH (pre ++ [c])%list Hw Hs).
    rewrite length_app in IH. simpl in IH.
    replace (S (List.length pre)) with (List.length pre + 1) by lia.
    rewrite IH. do 2 f_equal. simpl. lia.
Qed.

(** One turn of the loop on a lexeme. *)
Lemma lexFrom_lexeme (l : Lexeme) (pre post : list ascii)
      (tokens : list Token) (errors : list Exception) :
  match l with
  | LNumber digits =>
      (digits =? "")%string = false /\ allOf isDigit digits = true
      /\ digitRun post = 0
  | _ => True
  end ->
  splitAt expression pre (list_ascii_of_string (spelling l) ++ post) ->
  lexFrom expression (mkLexState (List.length pre) tokens errors)
  = lexFrom expression
      (mkLexState (List.length pre + String.length (spelling l))
                  (push tokens (lexemeToken l (List.length pre))) errors).
Proof.
  intros Hl Hs.
  assert (Hc : charAt expression (List.length pre)
               = nth_error (list_ascii_of_string (spelling l) ++ post) 0)
    by now apply splitAt_charAt.
  destruct l as [digits| |o| | |m|m]; cbn [spelling lexemeToken] in *.
  - (* a number *)
    destruct Hl as (Hne & Hd & Hp).
    destruct digits as [|c digits]; [discriminate|]. clear Hne.
    unfold allOf in Hd. pose proof Hd as Hd'.
    cbn [list_ascii_of_string forallb] in Hd'.
    apply andb_true_iff in Hd' as [Hc1 _].
    rewrite (lexFrom_step expression _ c) by exact Hc.
    unfold lexStep. cbn [lexOffset lexTokens lexErrors].
    destruct (isSpace c) eqn:Esp.
    { apply space_not_digit in Esp. congruence. }
    rewrite Hc1, (splitAt_skipn _ _ Hs), (digitRun_all _ _ Hd), Hp.
    rewrite Nat.add_0_r, length_list_ascii.
    rewrite <- (length_list_ascii (String c digits)).
    rewrite (splitAt_slice _ _ _ Hs), string_of_list_ascii_of_string.
    rewrite length_list_ascii. reflexivity.
  - (* d *)
    rewrite (lexFrom_step expression _ "d") by exact Hc.
    unfold lexStep. cbn [lexOffset lexTokens lexErrors].
    change (isSpace "d") with false. change (isDigit "d") with false.
    cbv iota. change ("d" =? "d")%char with true. cbv iota.
    replace (S (List.length pre))
      with (List.length pre + List.length ["d"%char]) by (simpl; lia).
    rewrite (splitAt_slice pre ["d"%char] post Hs). reflexivity.
  - (* an operator *)
    destruct o; cbn [opExplanation list_ascii_of_string app nth_error] in Hc;
      rewrite (lexFrom_step expression (mkLexState (List.length pre) tokens errors) _ Hc);
      unfold lexStep, single; cbn [lexOffset lexTokens lexErrors];
      cbn; do 2 f_equal; lia.
  - rewrite (lexFrom_step expression (mkLexState (List.length pre) tokens errors) _ Hc).
    unfold lexStep, single; cbn [lexOffset lexTokens lexErrors].
    cbn; do 2 f_equal; lia.
  - rewrite (lexFrom_step expression (mkLexState (List.length pre) tokens errors) _ Hc).
    unfold lexStep, single; cbn [lexOffset lexTokens lexErrors].
    cbn; do 2 f_equal; lia.
  - (* kh, kl *)
    assert (Hn : charAt expression (S (List.length pre))
                 = nth_error (list_ascii_of_string (modifierLetter m)) 0).
    { unfold charAt. rewrite Hs. rewrite nth_error_app2 by lia.
      replace (S (List.length pre) - List.length pre) with 1 by lia.
      destruct m; reflexivity. }
    rewrite (lexFrom_step expression _ "k") by (destruct m; exact Hc).
    unfold lexStep. cbn [lexOffset lexTokens lexErrors].
    change (isSpace "k") with false. change (isDigit "k") with false.
    cbv iota. rewrite Hn.
    destruct m; cbn; do 2 f_equal; lia.
  - destruct m; cbn [modifierLetter list_ascii_of_string app nth_error] in Hc;
      rewrite (lexFrom_step expression (mkLexState (List.length pre) tokens errors) _ Hc);
      unfold lexStep, single; cbn [lexOffset lexTokens lexErrors];
      cbn; do 2 f_equal; lia.
Qed.

Lemma digitRun_not_number (l : Lexeme) (rest : list ascii) :
  isNumber l = false ->
  digitRun (list_ascii_of_string (spelling l) ++ rest) = 0.
Proof. destruct l as [d| |[]| | |[]|[]]; intros H; try discriminate; reflexivity. Qed.

Lemma lexFrom_spelled (ls : list Spelled) :
  forall (pre : list ascii) (tokens : list Token) (errors : list Exception),
    wellSpelled ls = true ->
    splitAt expression pre (list_ascii_of_string (spell ls)) ->
    lexFrom expression (mkLexState (List.length pre) tokens errors)
    = mkLexState (String.length expression)
                 (tokens ++ tokensAt (List.length pre) ls) errors.
Proof.
  induction ls as [|[l ws] rest IH]; intros pre tokens errors Hw Hs.
  - cbn [spell list_ascii_of_string tokensAt] in *.
    assert (Hlen : String.length expression = List.length pre).
    { rewrite <- length_list_ascii, Hs, length_app. simpl. lia. }
    rewrite lexFrom_done.
    + now rewrite app_nil_r, Hlen.
    + cbn [lexOffset]. unfold charAt. apply nth_error_None.
      rewrite length_list_ascii. lia.
  - cbn [spell wellSpelled tokensAt] in *.
    rewrite !list_ascii_app in Hs.
    apply andb_true_iff in Hw as [Hw Hrest].
    apply andb_true_iff in Hw as [Hws Hl].
    assert (Hcond :
              match l with
              | LNumber digits =>
                  (digits =? "")%string = false
                  /\ allOf isDigit digits = true
                  /\ digitRun (list_ascii_of_string ws
                               ++ list_ascii_of_string (spell rest)) = 0
              | _ => True
              end).
    { destruct l as [digits| | | | | |]; try exact I.
      apply andb_true_iff in Hl as [Hl Hsep].
      apply andb_true_iff in Hl as [Hne Hd].
      apply negb_true_iff in Hne. repeat split; try assumption.
      destruct ws as [|c ws].
      - destruct rest as [|[l' ws'] rest]; [reflexivity|].
        cbn [spell]. rewrite list_ascii_app. cbn [list_ascii_of_string app].
        apply digitRun_not_number. now apply negb_true_iff.
      - unfold allOf in Hws. cbn [list_ascii_of_string forallb] in Hws.
        apply andb_true_iff in Hws as [Hc _].
        cbn [list_ascii_of_string app digitRun].
        now rewrite (space_not_digit _ Hc). }
    rewrite (lexFrom_lexeme l pre _ tokens errors Hcond Hs).
    apply splitAt_more in Hs.
    rewrite <- length_list_ascii, <- length_app.
    rewrite (lexFrom_white _ _ _ _ _ Hws Hs).
    apply splitAt_more in Hs.
    rewrite <- length_app.
    rewrite (IH _ _ _ Hrest Hs). unfold push.
    rewrite <- app_assoc. cbn [app].
    rewrite !length_app, !length_list_ascii. reflexivity.
Qed.

End Spelling.

(** [lex] on leading white space and then lexemes, each followed by white
    space: one token for each lexeme, with the offset at which it starts
    (the pairs [kh] and [kl]: the offset of the second letter), and
    [EOF]. *)
Lemma lex_spelled (lead : string) (ls : list Spelled) :
  allOf isSpace lead = true -> wellSpelled ls = true ->
  lex (lead ++ spell ls)
  = Ok (push (tokensAt (String.length lead) ls)
             (baseToken EOF "" (String.length (lead ++ spell ls)))).
Proof.
  intros Hlead Hw. unfold lex. rewrite lexRun_lexFrom.
  assert (Hs : splitAt (lead ++ spell ls) []
                 (list_ascii_of_string lead
                  ++ list_ascii_of_string (spell ls))).
  { unfold splitAt. now rewrite list_ascii_app. }
  change 0 with (@List.length ascii []).
  rewrite (lexFrom_white _ _ _ _ _ _ Hlead Hs).
  apply splitAt_more in Hs. rewrite <- length_app.
  rewrite (lexFrom_spelled _ _ _ _ _ Hw Hs).
  cbn [lexErrors lexTokens lexOffset app].
  now rewrite length_list_ascii.
Qed.

(* ================================================================== *)
(** * A dice term without its count *)

Lemma append_empty_r (s : string) : s ++ "" = s.
Proof. induction s as [|c s IH]; simpl; congruence. Qed.

Lemma parseExpression_dN (sides : string) :
  (sides =? "")%string = false -> allOf isDigit sides = true ->
  parseExpression ("d" ++ sides) = Ok (Dice (mkDice 1 (parseInt sides))).
Proof.
  intros Hne Hd. unfold parseExpression.
  replace ("d" ++ sides)
    with ("" ++ spell [(LDice, ""); (LNumber sides, "")])
    by (cbn; now rewrite append_empty_r).
  rewrite lex_spelled; [reflexivity | reflexivity |].
  cbn [wellSpelled]. now rewrite Hne, Hd.
Qed.

Lemma parseExpression_1dN (sides : string) :
  (sides =? "")%string = false -> allOf isDigit sides = true ->
  parseExpression ("1d" ++ sides) = Ok (Dice (mkDice 1 (parseInt sides))).
Proof.
  intros Hne Hd. unfold parseExpression.
  replace ("1d" ++ sides)
    with ("" ++ spell [(LNumber "1", ""); (LDice, ""); (LNumber sides, "")])
    by (cbn; now rewrite append_empty_r).
  rewrite lex_spelled; [reflexivity | reflexivity |].
  cbn [wellSpelled]. now rewrite Hne, Hd.
Qed.

Lemma roll_parseExpression (St : Type) (random : Random St)
      (numberToString : number -> string) (expression : string)
      (maxRolls : option number) (s : St) (ast : ASTNode) :
  parseExpression expression = Ok ast ->
  roll St random numberToString expression maxRolls s
  = bind (checkLimit St maxRolls ast)
         (fun _ => evaluate St random numberToString ast) s.
Proof.
  unfold parseExpression.
  destruct (lex expression) as [tokens|e|] eqn:E1; try discriminate.
  destruct (parse tokens) as [[a w]|e|] eqn:E2; try discriminate.
  intros H. inversion H; subst. now apply roll_unfold with tokens w.
Qed.

(** The limit check, as a condition on the count. *)
Lemma checkLimit_allows (St : Type) (maxRolls : option number)
      (ast : ASTNode) (s : St) :
  checkLimit St maxRolls ast s
  = if allows maxRolls (countRolls ast) then Ok (tt, s)
    else Throw (TooManyDiceError (countRolls ast)).
Proof.
  unfold checkLimit, allows. destruct maxRolls as [limit|]; [|reflexivity].
  destruct (truthy limit); [|reflexivity]. cbn [andb negb].
  destruct (gt (ofN (countRolls ast)) limit); reflexivity.
Qed.

(** C8.  A dice term written without its count is the term with the count
    1: for every sides count [N], ["dN"] and ["1dN"] both parse to the
    dice term with one die of [N] sides, so [roll] gives the same outcome
    on both from the same state of the randomness source, whatever the
    options.  That outcome is one call of the source, with [N] for
    argument, whose number is the only roll and, added to 0, the result;
    unless a limit below 1 rejects the one die.  ["d8"] with a source that
    returns 5 gives 5, as ["1d8"] does. *)
Theorem omitted_dice_count_is_one :
  forall (St : Type) (random : Random St) (numberToString : number -> string)
         (sides : string) (maxRolls : option number) (s : St),
    (sides =? "")%string = false -> allOf isDigit sides = true ->
    parseExpression ("d" ++ sides) = Ok (Dice (mkDice 1 (parseInt sides)))
    /\ parseExpression ("1d" ++ sides) = Ok (Dice (mkDice 1 (parseInt sides)))
    /\ roll St random numberToString ("d" ++ sides) maxRolls s
       = roll St random numberToString ("1d" ++ sides) maxRolls s
    /\ roll St random numberToString ("d" ++ sides) maxRolls s
       = (if allows maxRolls 1
          then Ok (mkResult
                     (add (Num 0%Q) (fst (random (ofN (parseInt sides)) s)))
                     (Some [fst (random (ofN (parseInt sides)) s)])
                     ("[" ++ numberToString
                               (fst (random (ofN (parseInt sides)) s))
                          ++ "]"),
                   snd (random (ofN (parseInt sides)) s))
          else Throw (TooManyDiceError 1))
    /\ roll unit (fixed (ofN 5)) showNumber "d8" None tt
       = Ok (mkResult (Num 5) (Some [ofN 5]) "[5]", tt)
    /\ roll unit (fixed (ofN 5)) showNumber "1d8" None tt
       = Ok (mkResult (Num 5) (Some [ofN 5]) "[5]", tt).
Proof.
  intros St random nts sides maxRolls s Hne Hd.
  pose proof (parseExpression_dN sides Hne Hd) as E1.
  pose proof (parseExpression_1dN sides Hne Hd) as E2.
  split; [exact E1|]. split; [exact E2|].
  rewrite (roll_parseExpression _ _ _ _ _ _ _ E1).
  rewrite (roll_parseExpression _ _ _ _ _ _ _ E2).
  split; [reflexivity|]. split; [|split; reflexivity].
  unfold bind at 1. rewrite checkLimit_allows. cbn [countRolls numDice].
  destruct (allows maxRolls 1); [|reflexivity].
  cbn [evaluate]. unfold evaluateDice. cbn [numDice numSides].
  change (1 <=? maxArrayLength)%N with true. cbn iota.
  change (N.to_nat 1) with 1. cbn [arrayFrom].
  unfold bind, callRandom, ret.
  destruct (random (ofN (parseInt sides)) s) as [x s']. reflexivity.
Qed.

Lemma omitted_dice_count_is_one_witness :
  parseExpression ("d" ++ "20") = Ok (Dice (mkDice 1 (parseInt "20")))
  /\ parseExpression ("1d" ++ "20") = Ok (Dice (mkDice 1 (parseInt "20")))
  /\ roll (list number) sequence showNumber ("d" ++ "20") (Some (ofN 1))
          [ofN 15]
     = roll (list number) sequence showNumber ("1d" ++ "20") (Some (ofN 1))
            [ofN 15]
  /\ roll (list number) sequence showNumber ("d" ++ "20") (Some (ofN 1))
          [ofN 15]
     = Ok (mkResult (Num 15) (Some [ofN 15]) "[15]", [])
  /\ roll unit (fixed (ofN 5)) showNumber "d8" None tt
     = Ok (mkResult (Num 5) (Some [ofN 5]) "[5]", tt)
  /\ roll unit (fixed (ofN 5)) showNumber "1d8" None tt
     = Ok (mkResult (Num 5) (Some [ofN 5]) "[5]", tt).
Proof.
  apply (omitted_dice_count_is_one (list number) sequence showNumber "20"
           (Some (ofN 1)) [ofN 15] eq_refl eq_refl).
Defined.

(** C2, on the input on which it fails.  With the rolls 1, 2, 5, the keep
    count 0 of ["3d6kh0"] keeps the three rolls, which sum to 8, where the
    last 0 rolls sum to 0, as ["3d6kl0"] has it.  The keep counts of the
    tests give 5 for ["3d6kh1"] and 3 for ["3d6kl2"], and a count above the
    number of rolls keeps them all. *)
Theorem keep_highest_zero_sums_every_roll :
  rollSeq "3d6kh0" [ofN 1; ofN 2; ofN 5]
  = Ok (mkResult (Num 8) None "[1 + 2 + 5]kh0", [])
  /\ rollSeq "3d6kl0" [ofN 1; ofN 2; ofN 5]
     = Ok (mkResult (Num 0) None "[1 + 2 + 5]kl0", [])
  /\ rollSeq "3d6kh1" [ofN 1; ofN 2; ofN 5]
     = Ok (mkResult (Num 5) None "[1 + 2 + 5]kh1", [])
  /\ rollSeq "3d6kl2" [ofN 1; ofN 2; ofN 5]
     = Ok (mkResult (Num 3) None "[1 + 2 + 5]kl2", [])
  /\ rollSeq "3d6kh7" [ofN 1; ofN 2; ofN 5]
     = Ok (mkResult (Num 8) None "[1 + 2 + 5]kh7", []).
Proof. repeat split; reflexivity. Qed.

(** The other tests of the repository. *)
Example roll_tests :
  rollSeq "1d20" [ofN 15] = Ok (mkResult (Num 15) (Some [ofN 15]) "[15]", [])
  /\ rollSeq "2d6 + d8" [ofN 1; ofN 2; ofN 5]
     = Ok (mkResult (Num 8) None "[1 + 2] + [5]", [])
  /\ rollSeq "1d6 + 2" [ofN 4] = Ok (mkResult (Num 6) None "[4] + 2", [])
  /\ rollSeq "2d20kh1" [ofN 8; ofN 15]
     = Ok (mkResult (Num 15) None "[8 + 15]kh1", [])
  /\ rollSeq "6 / 2" [] = Ok (mkResult (Num 3) None "6 / 2", [])
  /\ rollSeq "5 / 2" [] = Ok (mkResult (Num (5 # 2)) None "5 / 2", [])
  /\ rollSeq "(1 + 2" [] = Throw (Error "Expected PAREN_CLOSE at offset 6").
Proof. repeat split; reflexivity. Qed.

(* ================================================================== *)
(** * Arithmetic expressions *)

Lemma tokensAt_length (ls : list Spelled) (off : nat) :
  List.length (tokensAt off ls) = List.length ls.
Proof.
  revert off. induction ls as [|[l ws] ls IH]; intros off; simpl; auto.
Qed.

Lemma tokensAt_app (l1 l2 : list Spelled) (off : nat) :
  exists off',
    tokensAt off (l1 ++ l2) = (tokensAt off l1 ++ tokensAt off' l2)%list.
Proof.
  revert off. induction l1 as [|[l ws] l1 IH]; intros off; simpl.
  - now exists off.
  - destruct (IH (off + String.length (spelling l) + String.length ws))
      as [off' E].
    exists off'. now rewrite E.
Qed.

Lemma wellSpelled_app (l1 l2 : list Spelled) (x : Spelled) :
  wellSpelled l1 = true -> wellSpelled (x :: l2) = true ->
  isNumber (fst x) = false ->
  wellSpelled (l1 ++ x :: l2) = true.
Proof.
  intros H1 H2 Hx. induction l1 as [|[l ws] l1 IH]; [exact H2|].
  cbn [app wellSpelled] in *.
  apply andb_true_iff in H1 as [H1 Hr].
  apply andb_true_iff in H1 as [Hws Hl].
  rewrite Hws, (IH Hr), andb_true_r. cbn [andb].
  destruct l as [digits| | | | | |]; try reflexivity.
  apply andb_true_iff in Hl as [Hl Hsep]. rewrite Hl. cbn [andb].
  destruct ws; [|reflexivity].
  destruct l1 as [|[l' ws'] l1]; cbn [app]; [|exact Hsep].
  destruct x as [lx wx]. cbn [fst] in Hx. now rewrite Hx.
Qed.

Lemma wellFormed_wellSpelled (e : Arith) :
  wellFormed e = true -> wellSpelled (flatten e) = true.
Proof.
  induction e as [digits ws|ws1 e IH ws2|l IHl o ws r IHr]; cbn [wellFormed flatten];
    intros H.
  - apply andb_true_iff in H as [H Hws].
    cbn [wellSpelled]. rewrite Hws, H. cbn [andb].
    destruct ws; reflexivity.
  - apply andb_true_iff in H as [H Hws2].
    apply andb_true_iff in H as [Hws1 He].
    cbn [wellSpelled]. rewrite Hws1. cbn [andb].
    apply wellSpelled_app; [now apply IH | | reflexivity].
    cbn [wellSpelled]. now rewrite Hws2.
  - apply andb_true_iff in H as [H _].
    apply andb_true_iff in H as [H Hr].
    apply andb_true_iff in H as [Hl Hws].
    apply wellSpelled_app; [now apply IHl | | reflexivity].
    cbn [wellSpelled]. rewrite Hws. cbn [andb]. now apply IHr.
Qed.

(** ** The value an arithmetic tree evaluates to *)

Section ArithEvaluation.

Variable St : Type.
Variable random : Random St.
Variable numberToString : number -> string.

Lemma evaluate_toAST (e : Arith) (s : St) :
  exists text,
    evaluate St random numberToString (toAST e) s
    = Ok (mkResult (denote e) None text, s).
Proof.
  induction e as [digits ws|ws1 e IH ws2|l IHl o ws r IHr];
    cbn [toAST denote evaluate].
  - eexists. reflexivity.
  - destruct IH as [text E]. unfold bind. rewrite E. eexists. reflexivity.
  - destruct IHl as [tl El]. destruct IHr as [tr Er].
    unfold bind. rewrite El, Er. eexists. reflexivity.
Qed.

End ArithEvaluation.

Lemma denote_value (e : Arith) (q : Q) :
  value e = Some q -> exists q', denote e = Num q' /\ (q' == q)%Q.
Proof.
  revert q. induction e as [digits ws|ws1 e IH ws2|l IHl o ws r IHr];
    intros q; cbn [value denote].
  - intros H. inversion H; subst. eexists. split; reflexivity.
  - apply IH.
  - destruct (value l) as [a|]; [|discriminate].
    destruct (value r) as [b|]; [|discriminate].
    destruct (IHl a eq_refl) as (a' & -> & Ha).
    destruct (IHr b eq_refl) as (b' & -> & Hb).
    destruct o; cbn [applyOperator add sub neg mul div]; intros H.
    + inversion H; subst. eexists. split; [reflexivity|].
      now rewrite Qred_correct, Ha, Hb.
    + inversion H; subst. eexists. split; [reflexivity|].
      now rewrite !Qred_correct, Ha, Hb.
    + inversion H; subst. eexists. split; [reflexivity|].
      now rewrite Qred_correct, Ha, Hb.
    + destruct (Qeq_bool b 0) eqn:E0; [discriminate|].
      inversion H; subst.
      destruct (Qcompare_spec b' 0) as [E|E|E].
      * rewrite Hb in E. apply Qeq_eq_bool in E. congruence.
      * eexists. split; [reflexivity|]. now rewrite Qred_correct, Ha, Hb.
      * eexists. split; [reflexivity|]. now rewrite Qred_correct, Ha, Hb.
Qed.

(** ** The parser at a known token *)

Lemma bind_defined_step {St A B} (m : M St A) (k : A -> M St B)
      (s s' : St) (a : A) :
  bind m k s <> Diverge -> m s = Ok (a, s') -> k a s' <> Diverge.
Proof. intros H E. now rewrite (bind_step _ _ _ _ _ E) in H. Qed.

Section ParserAt.

Variable tokens : list Token.

Lemma peek_at (cur : nat) (t : Token) :
  nth_error tokens cur = Some t -> peek tokens cur = Ok (t, cur).
Proof. unfold peek. now intros ->. Qed.

Lemma match_at (types : list TokenType) (cur : nat) (t : Token) :
  nth_error tokens cur = Some t ->
  match_ tokens types cur
  = Ok (includes types (type t),
        if includes types (type t) then S cur else cur).
Proof.
  intros H. unfold match_, bind. rewrite (peek_at _ _ H).
  destruct (includes types (type t)); [|reflexivity].
  unfold advance, bind. now rewrite (peek_at _ _ H).
Qed.

Lemma expect_at (ty : TokenType) (cur : nat) (t : Token) :
  nth_error tokens cur = Some t -> TokenType_eqb (type t) ty = true ->
  expect tokens ty cur = Ok (t, S cur).
Proof.
  intros H E. unfold expect, bind. rewrite (peek_at _ _ H), E.
  unfold advance, bind. now rewrite (peek_at _ _ H).
Qed.

Lemma previous_at (cur : nat) (t : Token) :
  nth_error tokens cur = Some t -> previous tokens (S cur) = Ok (t, S cur).
Proof. unfold previous. now intros ->. Qed.

Variable P : Parser ASTNode.

Lemma factorLoop_stop (n : nat) (expr : ASTNode) (cur : nat) (t : Token) :
  nth_error tokens cur = Some t ->
  includes [Operator STAR; Operator SLASH] (type t) = false ->
  factorLoop tokens P n expr cur = Ok (expr, cur).
Proof.
  intros H E. destruct n; cbn [factorLoop]; unfold bind;
    rewrite (match_at _ _ _ H), E; reflexivity.
Qed.

Lemma termLoop_stop (n : nat) (expr : ASTNode) (cur : nat) (t : Token) :
  nth_error tokens cur = Some t ->
  includes [Operator MINUS; Operator PLUS] (type t) = false ->
  termLoop tokens P n expr cur = Ok (expr, cur).
Proof.
  intros H E. destruct n; cbn [termLoop]; unfold bind;
    rewrite (match_at _ _ _ H), E; reflexivity.
Qed.

Lemma factorLoop_iter (n : nat) (expr : ASTNode) (cur : nat) (t : Token)
      (o : OperatorType) :
  nth_error tokens cur = Some t -> type t = Operator o ->
  isMultiplicative o = true ->
  factorLoop tokens P n expr cur <> Diverge ->
  exists n',
    factorLoop tokens P n expr cur
    = bind P (fun right =>
                factorLoop tokens P n' (BinaryOpNode expr o right)) (S cur).
Proof.
  intros H Ht Ho Hd.
  assert (E : includes [Operator STAR; Operator SLASH] (type t) = true)
    by (rewrite Ht; destruct o; try discriminate; reflexivity).
  destruct n as [|n]; cbn [factorLoop] in *; unfold bind at 1 in Hd;
    unfold bind at 1; rewrite (match_at _ _ _ H), E in *.
  - now elim Hd.
  - exists n. unfold bind at 1. rewrite (previous_at _ _ H).
    unfold bind at 1. unfold asOperator. rewrite Ht. reflexivity.
Qed.

Lemma termLoop_iter (n : nat) (expr : ASTNode) (cur : nat) (t : Token)
      (o : OperatorType) :
  nth_error tokens cur = Some t -> type t = Operator o ->
  isMultiplicative o = false ->
  termLoop tokens P n expr cur <> Diverge ->
  exists n',
    termLoop tokens P n expr cur
    = bind (factor tokens P)
           (fun right =>
              termLoop tokens P n' (BinaryOpNode expr o right)) (S cur).
Proof.
  intros H Ht Ho Hd.
  assert (E : includes [Operator MINUS; Operator PLUS] (type t) = true)
    by (rewrite Ht; destruct o; try discriminate; reflexivity).
  destruct n as [|n]; cbn [termLoop] in *; unfold bind at 1 in Hd;
    unfold bind at 1; rewrite (match_at _ _ _ H), E in *.
  - now elim Hd.
  - exists n. unfold bind at 1. rewrite (previous_at _ _ H).
    unfold bind at 1. unfold asOperator. rewrite Ht. reflexivity.
Qed.

(** From a production to the loop that follows it, and from the loop to
    the production it is the end of. *)
Lemma production_then_loop {A} (p : Parser ASTNode)
      (loop : ASTNode -> Parser A) (start stop : nat) (ast : ASTNode) :
  (p start <> Diverge -> p start = Ok (ast, stop)) ->
  bind p loop start <> Diverge ->
  bind p loop start = loop ast stop.
Proof.
  intros Hp Hd. apply bind_step, Hp. now apply bind_defined in Hd.
Qed.

Lemma factorLoop_then_factor (start stop : nat) (ast : ASTNode) (t : Token) :
  (forall n, bind P (factorLoop tokens P n) start <> Diverge ->
             exists n', bind P (factorLoop tokens P n) start
                        = factorLoop tokens P n' ast stop) ->
  nth_error tokens stop = Some t ->
  includes [Operator STAR; Operator SLASH] (type t) = false ->
  factor tokens P start <> Diverge ->
  factor tokens P start = Ok (ast, stop).
Proof.
  intros H Ht E Hd. unfold factor in *.
  destruct (H (List.length tokens) Hd) as [n' E'].
  etransitivity; [exact E'|]. now apply factorLoop_stop with t.
Qed.

Lemma termLoop_then_term (start stop : nat) (ast : ASTNode) (t : Token) :
  (forall n, bind (factor tokens P) (termLoop tokens P n) start <> Diverge ->
             exists n', bind (factor tokens P) (termLoop tokens P n) start
                        = termLoop tokens P n' ast stop) ->
  nth_error tokens stop = Some t ->
  includes [Operator MINUS; Operator PLUS] (type t) = false ->
  term tokens P start <> Diverge ->
  term tokens P start = Ok (ast, stop).
Proof.
  intros H Ht E Hd. unfold term in *.
  destruct (H (List.length tokens) Hd) as [n' E'].
  etransitivity; [exact E'|]. now apply termLoop_stop with t.
Qed.

End ParserAt.

(** ** The parser on the tokens of an arithmetic expression *)

Lemma TokenType_eqb_eq (a b : TokenType) :
  TokenType_eqb a b = true <-> a = b.
Proof.
  split.
  - destruct a as [[]|[]| | | | |], b as [[]|[]| | | | |];
      simpl; intros H; try discriminate; reflexivity.
  - intros ->. destruct b as [[]|[]| | | | |]; reflexivity.
Qed.

Lemma nth_error_middle {A} (pre post : list A) (x : A) :
  nth_error (pre ++ x :: post) (List.length pre) = Some x.
Proof. rewrite nth_error_app2 by lia. now rewrite Nat.sub_diag. Qed.

Lemma nth_error_after {A} (pre mid rest : list A) (i : nat) :
  nth_error (pre ++ mid ++ rest) (List.length pre + List.length mid + i)
  = nth_error rest i.
Proof.
  rewrite app_assoc, nth_error_app2 by (rewrite length_app; lia).
  f_equal. rewrite length_app. lia.
Qed.

Lemma endsFactor_inv (rest : list Token) :
  endsFactor rest ->
  exists t, nth_error rest 0 = Some t
            /\ includes [Operator STAR; Operator SLASH] (type t) = false
            /\ endsPrimary rest.
Proof.
  intros (ty & H & E). unfold headType in H.
  destruct (nth_error rest 0) as [t|] eqn:Ht; [|discriminate].
  inversion H; subst. exists t. split; [reflexivity|]. split.
  - cbn in E |- *. destruct (type t) as [[]|[]| | | | |];
      try discriminate; reflexivity.
  - unfold endsPrimary, headType. rewrite Ht. cbn. intros H'.
    inversion H' as [H'']. rewrite H'' in E. discriminate.
Qed.

Lemma endsTerm_inv (rest : list Token) :
  endsTerm rest ->
  exists t, nth_error rest 0 = Some t
            /\ includes [Operator MINUS; Operator PLUS] (type t) = false
            /\ endsFactor rest.
Proof.
  intros (ty & H & E). unfold headType in H.
  destruct (nth_error rest 0) as [t|] eqn:Ht; [|discriminate].
  inversion H; subst. exists t. split; [reflexivity|]. split.
  - cbn in E |- *. destruct (type t) as [[]|[]| | | | |];
      try discriminate; reflexivity.
  - exists (type t). unfold headType. rewrite Ht. split; [reflexivity|].
    cbn in E |- *. destruct (type t) as [[]|[]| | | | |];
      try discriminate; reflexivity.
Qed.

Section ArithParsing.

Variable tokens : list Token.

Lemma termG_of_factorG (P : Parser ASTNode) (start stop : nat)
      (ast : ASTNode) (t : Token) :
  (forall n, bind P (factorLoop tokens P n) start <> Diverge ->
             exists n', bind P (factorLoop tokens P n) start
                        = factorLoop tokens P n' ast stop) ->
  nth_error tokens stop = Some t ->
  includes [Operator STAR; Operator SLASH] (type t) = false ->
  forall n,
    bind (factor tokens P) (termLoop tokens P n) start <> Diverge ->
    exists n', bind (factor tokens P) (termLoop tokens P n) start
               = termLoop tokens P n' ast stop.
Proof.
  intros H Ht E n Hd. exists n.
  apply production_then_loop; [|assumption].
  now apply factorLoop_then_factor with t.
Qed.

Lemma nth_error_stop (pre mid rest : list Token) (n : nat) (t : Token) :
  tokens = (pre ++ mid ++ rest)%list -> List.length mid = n ->
  nth_error rest 0 = Some t ->
  nth_error tokens (List.length pre + n) = Some t.
Proof.
  intros -> <- H. rewrite <- (Nat.add_0_r (_ + _)).
  now rewrite nth_error_after.
Qed.

Lemma primary_literal (fuel : nat) (pre rest : list Token) (t : Token)
      (n : N) :
  tokens = (pre ++ t :: rest)%list ->
  type t = NUMBER -> literal t = Some n -> endsPrimary rest ->
  primary tokens fuel (List.length pre) <> Diverge ->
  primary tokens fuel (List.length pre)
  = Ok (NumberNode n, List.length pre + 1).
Proof.
  intros Htok Hty Hlit Hrest Hd.
  destruct fuel as [|fuel]; [now elim Hd|]. clear Hd.
  assert (Hnth : nth_error tokens (List.length pre) = Some t)
    by (rewrite Htok; apply nth_error_middle).
  assert (Hnext : nth_error tokens (S (List.length pre)) = nth_error rest 0).
  { rewrite Htok. rewrite nth_error_app2 by lia.
    replace (S (List.length pre) - List.length pre) with 1 by lia.
    reflexivity. }
  cbn [primary]. unfold bind at 1. rewrite (peek_at _ _ _ Hnth).
  unfold bind at 1. unfold nextType. rewrite Hnext, Hty.
  cbn [TokenType_eqb orb andb].
  assert (Hno : match option_map type (nth_error rest 0) with
                | Some t0 => TokenType_eqb t0 DICE
                | None => false
                end = false).
  { unfold endsPrimary, headType in Hrest.
    destruct (option_map type (nth_error rest 0)) as [ty|]; [|reflexivity].
    destruct (TokenType_eqb ty DICE) eqn:E; [|reflexivity].
    apply TokenType_eqb_eq in E. congruence. }
  rewrite Hno. unfold bind at 1. rewrite (match_at _ _ _ _ Hnth), Hty.
  cbn [includes existsb TokenType_eqb orb].
  unfold bind at 1. rewrite (previous_at _ _ _ Hnth).
  unfold bind at 1. unfold literalOf. rewrite Hlit. unfold ret.
  do 2 f_equal. lia.
Qed.

Lemma primary_paren (fuel : nat) (pre : list Token) (t : Token) :
  nth_error tokens (List.length pre) = Some t -> type t = PAREN_OPEN ->
  primary tokens (S fuel) (List.length pre)
  = bind (term tokens (primary tokens fuel))
         (fun expr => bind (expect tokens PAREN_CLOSE)
                           (fun _ => ret (GroupingNode expr)))
         (S (List.length pre)).
Proof.
  intros Hnth Hty.
  cbn [primary]. unfold bind at 1. rewrite (peek_at _ _ _ Hnth).
  unfold bind at 1. unfold nextType. rewrite Hty.
  cbn [TokenType_eqb orb andb].
  unfold bind at 1. rewrite (match_at _ _ _ _ Hnth), Hty.
  cbn [includes existsb TokenType_eqb orb].
  unfold bind at 1. rewrite (match_at _ _ _ _ Hnth), Hty.
  cbn [includes existsb TokenType_eqb orb].
  unfold bind at 1. rewrite (match_at _ _ _ _ Hnth), Hty.
  cbn [includes existsb TokenType_eqb orb].
  reflexivity.
Qed.

Lemma parse_arith (e : Arith) :
  wellFormed e = true ->
  forall (fuel : nat) (pre rest : list Token) (off : nat),
    tokens = (pre ++ tokensAt off (flatten e) ++ rest)%list ->
    (isPrimaryA e = true -> endsPrimary rest ->
     primary tokens fuel (List.length pre) <> Diverge ->
     primary tokens fuel (List.length pre)
     = Ok (toAST e, List.length pre + List.length (flatten e)))
    /\ (isFactorA e = true -> endsPrimary rest ->
        forall n,
          bind (primary tokens fuel)
               (factorLoop tokens (primary tokens fuel) n) (List.length pre)
          <> Diverge ->
          exists n',
            bind (primary tokens fuel)
                 (factorLoop tokens (primary tokens fuel) n) (List.length pre)
            = factorLoop tokens (primary tokens fuel) n' (toAST e)
                (List.length pre + List.length (flatten e)))
    /\ (endsFactor rest ->
        forall n,
          bind (factor tokens (primary tokens fuel))
               (termLoop tokens (primary tokens fuel) n) (List.length pre)
          <> Diverge ->
          exists n',
            bind (factor tokens (primary tokens fuel))
                 (termLoop tokens (primary tokens fuel) n) (List.length pre)
            = termLoop tokens (primary tokens fuel) n' (toAST e)
                (List.length pre + List.length (flatten e))).
Proof.
  induction e as [digits ws|ws1 e IH ws2|l IHl o ws r IHr];
    intros Hwf fuel pre rest off Htok.
  - (* a literal *)
    cbn [flatten tokensAt app List.length toAST] in *.
    assert (H1 : endsPrimary rest ->
                 primary tokens fuel (List.length pre) <> Diverge ->
                 primary tokens fuel (List.length pre)
                 = Ok (NumberNode (parseInt digits), List.length pre + 1)).
    { intros Hrest. now apply primary_literal with rest
                      (lexemeToken (LNumber digits) off). }
    assert (H2 : endsPrimary rest ->
                 forall n,
                   bind (primary tokens fuel)
                        (factorLoop tokens (primary tokens fuel) n)
                        (List.length pre) <> Diverge ->
                   exists n',
                     bind (primary tokens fuel)
                          (factorLoop tokens (primary tokens fuel) n)
                          (List.length pre)
                     = factorLoop tokens (primary tokens fuel) n'
                         (NumberNode (parseInt digits))
                         (List.length pre + 1)).
    { intros Hrest n Hd. exists n. apply production_then_loop; auto. }
    split; [auto|]. split; [auto|].
    intros Hrest. destruct (endsFactor_inv _ Hrest) as (t & Ht & E & Hp).
    apply termG_of_factorG with t; auto.
    now apply nth_error_stop with [lexemeToken (LNumber digits) off] rest.
  - (* parentheses *)
    cbn [wellFormed] in Hwf.
    apply andb_true_iff in Hwf as [Hwf _].
    apply andb_true_iff in Hwf as [_ Hwf].
    cbn [flatten tokensAt toAST] in *.
    destruct (tokensAt_app (flatten e) [(LClose, ws2)]
                (off + String.length (spelling LOpen) + String.length ws1))
      as [off2 Eapp].
    rewrite Eapp in Htok. cbn [tokensAt lexemeToken] in Htok.
    set (open := baseToken PAREN_OPEN "(" off) in *.
    set (close := baseToken PAREN_CLOSE ")" off2) in *.
    set (te := tokensAt (off + String.length (spelling LOpen)
                         + String.length ws1) (flatten e)) in *.
    assert (Hlen : List.length te = List.length (flatten e))
      by apply tokensAt_length.
    assert (Htok' : tokens = ((pre ++ [open]) ++ te ++ close :: rest)%list).
    { rewrite Htok. cbn [app]. rewrite <- !app_assoc. reflexivity. }
    assert (Hopen : nth_error tokens (List.length pre) = Some open)
      by (rewrite Htok; apply nth_error_middle).
    assert (Hclose : nth_error tokens
                       (List.length (pre ++ [open]) + List.length te)
                     = Some close).
    { now apply nth_error_stop with te (close :: rest). }
    assert (H1 : primary tokens fuel (List.length pre) <> Diverge ->
                 primary tokens fuel (List.length pre)
                 = Ok (GroupingNode (toAST e),
                       List.length pre
                       + List.length ((LOpen, ws1) :: flatten e
                                      ++ [(LClose, ws2)]))).
    { intros Hd. destruct fuel as [|fuel]; [now elim Hd|].
      rewrite (primary_paren fuel pre open Hopen eq_refl) in Hd |- *.
      assert (Hs : S (List.length pre) = List.length (pre ++ [open]))
        by (rewrite length_app; cbn [List.length]; lia).
      rewrite Hs in Hd |- *.
      destruct (IH Hwf fuel (pre ++ [open])%list (close :: rest) _ Htok')
        as (_ & _ & H3).
      assert (Hrest' : endsFactor (close :: rest))
        by (exists PAREN_CLOSE; split; reflexivity).
      assert (Hclose' : nth_error tokens
                          (List.length (pre ++ [open])
                           + List.length (flatten e)) = Some close)
        by (rewrite <- Hlen; exact Hclose).
      pose proof (termLoop_then_term tokens (primary tokens fuel) _ _ _ close
                    (H3 Hrest') Hclose' eq_refl
                    (bind_defined _ _ _ Hd)) as Et.
      rewrite (bind_step _ _ _ _ _ Et).
      unfold bind at 1. rewrite (expect_at _ PAREN_CLOSE _ _ Hclose' eq_refl).
      unfold ret. do 2 f_equal.
      cbn [List.length]. rewrite !length_app. cbn [List.length]. lia. }
    assert (H2 : forall n,
                   bind (primary tokens fuel)
                        (factorLoop tokens (primary tokens fuel) n)
                        (List.length pre) <> Diverge ->
                   exists n',
                     bind (primary tokens fuel)
                          (factorLoop tokens (primary tokens fuel) n)
                          (List.length pre)
                     = factorLoop tokens (primary tokens fuel) n'
                         (GroupingNode (toAST e))
                         (List.length pre
                          + List.length ((LOpen, ws1) :: flatten e
                                         ++ [(LClose, ws2)]))).
    { intros n Hd. exists n. apply production_then_loop; auto. }
    split; [auto|]. split; [auto|].
    intros Hrest. destruct (endsFactor_inv _ Hrest) as (t & Ht & E & Hp).
    apply termG_of_factorG with t; auto.
    apply nth_error_stop with (open :: te ++ [close])%list rest; auto.
    cbn [List.length]. now rewrite !length_app, Hlen.
  - (* an operator *)
    cbn [wellFormed] in Hwf.
    apply andb_true_iff in Hwf as [Hwf Hlevel].
    apply andb_true_iff in Hwf as [Hwf Hwr].
    apply andb_true_iff in Hwf as [Hwl _].
    cbn [flatten toAST isPrimaryA isFactorA] in *.
    destruct (tokensAt_app (flatten l) ((LOperator o, ws) :: flatten r) off)
      as [off1 Eapp].
    rewrite Eapp in Htok. cbn [tokensAt lexemeToken] in Htok.
    set (op := baseToken o (opExplanation o) off1) in *.
    set (tl := tokensAt off (flatten l)) in *.
    set (tr := tokensAt (off1 + String.length (spelling (LOperator o))
                         + String.length ws) (flatten r)) in *.
    assert (Hll : List.length tl = List.length (flatten l))
      by apply tokensAt_length.
    assert (Hlr : List.length tr = List.length (flatten r))
      by apply tokensAt_length.
    assert (Htokl : tokens = (pre ++ tl ++ op :: tr ++ rest)%list).
    { rewrite Htok. rewrite <- !app_assoc. reflexivity. }
    assert (Htokr : tokens = ((pre ++ tl ++ [op]) ++ tr ++ rest)%list).
    { rewrite Htok. rewrite <- !app_assoc. reflexivity. }
    assert (Hop : nth_error tokens (List.length pre + List.length (flatten l))
                  = Some op).
    { now apply nth_error_stop with tl (op :: tr ++ rest)%list. }
    assert (Hstart : List.length (pre ++ tl ++ [op])
                     = S (List.length pre + List.length (flatten l))).
    { rewrite !length_app. cbn [List.length]. lia. }
    assert (Hstop : List.length (pre ++ tl ++ [op]) + List.length (flatten r)
                    = List.length pre
                      + List.length (flatten l
                                     ++ (LOperator o, ws) :: flatten r)).
    { rewrite !length_app. cbn [List.length]. lia. }
    assert (Hend : forall t, nth_error rest 0 = Some t ->
                     nth_error tokens
                       (List.length pre
                        + List.length (flatten l
                                       ++ (LOperator o, ws) :: flatten r))
                     = Some t).
    { intros t Ht. rewrite <- Hstop.
      now apply nth_error_stop with tr rest. }
    split; [discriminate|].
    assert (H2 : isMultiplicative o = true -> endsPrimary rest ->
                 forall n,
                   bind (primary tokens fuel)
                        (factorLoop tokens (primary tokens fuel) n)
                        (List.length pre) <> Diverge ->
                   exists n',
                     bind (primary tokens fuel)
                          (factorLoop tokens (primary tokens fuel) n)
                          (List.length pre)
                     = factorLoop tokens (primary tokens fuel) n'
                         (BinaryOpNode (toAST l) o (toAST r))
                         (List.length pre
                          + List.length (flatten l
                                         ++ (LOperator o, ws) :: flatten r))).
    { intros Ho Hrest n Hd. rewrite Ho in Hlevel.
      apply andb_true_iff in Hlevel as [Hfl Hpr].
      destruct (IHl Hwl fuel pre (op :: tr ++ rest) off Htokl)
        as (_ & H2l & _).
      destruct (H2l Hfl ltac:(unfold endsPrimary; cbn; discriminate) n Hd)
        as [n1 E1].
      rewrite E1 in Hd |- *.
      destruct (factorLoop_iter tokens (primary tokens fuel) n1 _ _ op o
                  Hop eq_refl Ho Hd) as [n2 E2].
      rewrite E2 in Hd |- *. exists n2.
      destruct (IHr Hwr fuel (pre ++ tl ++ [op])%list rest _ Htokr)
        as (H1r & _ & _).
      rewrite Hstop, Hstart in H1r.
      now rewrite (bind_step _ _ _ _ _
                     (H1r Hpr Hrest (bind_defined _ _ _ Hd))). }
    split; [exact H2|].
    intros Hrest n Hd.
    destruct (endsFactor_inv _ Hrest) as (t & Ht & E & Hp).
    destruct (isMultiplicative o) eqn:Ho.
    + apply termG_of_factorG with t; auto.
    + destruct (IHl Hwl fuel pre (op :: tr ++ rest) off Htokl)
        as (_ & _ & H3l).
      destruct (H3l ltac:(exists (Operator o); split;
                          [reflexivity | destruct o; try discriminate;
                                         reflexivity]) n Hd)
        as [n1 E1].
      rewrite E1 in Hd |- *.
      destruct (termLoop_iter tokens (primary tokens fuel) n1 _ _ op o
                  Hop eq_refl Ho Hd) as [n2 E2].
      rewrite E2 in Hd |- *. exists n2.
      destruct (IHr Hwr fuel (pre ++ tl ++ [op])%list rest _ Htokr)
        as (_ & H2r & _).
      rewrite Hstop, Hstart in H2r.
      assert (Ef : factor tokens (primary tokens fuel)
                     (S (List.length pre + List.length (flatten l)))
                   = Ok (toAST r,
                         List.length pre
                         + List.length (flatten l
                                        ++ (LOperator o, ws) :: flatten r))).
      { apply (factorLoop_then_factor tokens (primary tokens fuel) _ _ _ t).
        - apply H2r; [exact Hlevel | assumption].
        - now apply Hend.
        - exact E.
        - now apply bind_defined in Hd. }
      now rewrite (bind_step _ _ _ _ _ Ef).
Qed.

End ArithParsing.

Lemma parse_written (e : Arith) (off stop : nat) :
  wellFormed e = true ->
  parse (push (tokensAt off (flatten e)) (baseToken EOF "" stop))
  = Ok (toAST e, []).
Proof.
  intros Hwf. unfold push.
  set (eof := baseToken EOF "" stop).
  set (tokens := (tokensAt off (flatten e) ++ [eof])%list).
  destruct (parse_arith tokens e Hwf (parseFuel tokens) [] [eof] off eq_refl)
    as (_ & _ & H3).
  assert (Hrest : endsFactor [eof]) by (exists EOF; split; reflexivity).
  assert (Heof : nth_error tokens (List.length (flatten e)) = Some eof).
  { apply (nth_error_stop tokens [] (tokensAt off (flatten e)) [eof]);
      [reflexivity | apply tokensAt_length | reflexivity]. }
  pose proof (termLoop_then_term tokens (primary tokens (parseFuel tokens))
                _ _ _ eof (H3 Hrest) Heof eq_refl
                (topTerm_terminates tokens)) as Et.
  unfold parse. fold (topTerm tokens).
  rewrite (bind_step _ _ _ _ _ Et).
  cbn [List.length Nat.add]. unfold bind.
  rewrite (peek_at _ _ _ Heof). reflexivity.
Qed.

Lemma parseExpression_written (e : Arith) (lead : string) :
  wellFormed e = true -> allOf isSpace lead = true ->
  parseExpression (lead ++ write e) = Ok (toAST e).
Proof.
  intros Hwf Hlead. unfold parseExpression, write.
  rewrite (lex_spelled _ _ Hlead (wellFormed_wellSpelled _ Hwf)).
  now rewrite parse_written.
Qed.

(** C3.  For every arithmetic expression, written with integer literals,
    the four operators and parentheses, and white space at will, whose
    value is defined (no division by zero) and in which the literals and
    the values of all the parts are doubles (so that no operation
    rounds), [roll] returns that value, under every limit that lets the
    count of its literals pass: the tree is the one in which [*] and [/]
    bind tighter than [+] and [-] and all four associate to the left, and
    the division is not truncated.  ["2 * 3 + 1"] and ["1 + 2 * 3"] give 7
    and ["(1 + 2) * 3"] gives 9. *)
Theorem roll_arithmetic_is_exact :
  (forall (St : Type) (random : Random St)
          (numberToString : number -> string)
          (e : Arith) (lead : string) (maxRolls : option number)
          (s : St) (q : Q),
      wellFormed e = true -> allOf isSpace lead = true ->
      value e = Some q -> exactA e = true ->
      allows maxRolls (countRolls (toAST e)) = true ->
      parseExpression (lead ++ write e) = Ok (toAST e)
      /\ exists r q',
          roll St random numberToString (lead ++ write e) maxRolls s
          = Ok (r, s)
          /\ result r = Num q' /\ (q' == q)%Q)
  /\ rollSeq "2 * 3 + 1" [] = Ok (mkResult (Num 7) None "2 * 3 + 1", [])
  /\ rollSeq "1 + 2 * 3" [] = Ok (mkResult (Num 7) None "1 + 2 * 3", [])
  /\ rollSeq "(1 + 2) * 3" [] = Ok (mkResult (Num 9) None "(1 + 2) * 3", []).
Proof.
  split; [|repeat split; reflexivity].
  intros St random nts e lead maxRolls s q Hwf Hlead Hv _ Hlimit.
  pose proof (parseExpression_written e lead Hwf Hlead) as Ep.
  split; [exact Ep|].
  destruct (evaluate_toAST St random nts e s) as [text Ee].
  destruct (denote_value e q Hv) as (q' & Hq & Hqq).
  exists (mkResult (denote e) None text), q'.
  rewrite (roll_parseExpression _ _ _ _ _ _ _ Ep).
  unfold bind at 1. rewrite checkLimit_allows, Hlimit, Ee. auto.
Qed.

Lemma roll_arithmetic_is_exact_witness :
  parseExpression ("" ++ write fiveHalves) = Ok (toAST fiveHalves)
  /\ exists r q',
      roll unit (fixed (ofN 1)) showNumber ("" ++ write fiveHalves)
           (Some (ofN 3)) tt = Ok (r, tt)
      /\ result r = Num q' /\ (q' == (1 + 4) / 2)%Q.
Proof.
  apply (proj1 roll_arithmetic_is_exact unit (fixed (ofN 1)) showNumber
           fiveHalves "" (Some (ofN 3)) tt ((1 + 4) / 2)%Q);
    reflexivity.
Defined.

(** C3, where it fails.  The numbers of the source are doubles, and every
    operation rounds to the nearest one: ["1/10 + 2/10"], whose value is
    3/10, evaluates to the double 5404319552844596 / 2^54, which prints
    as 0.30000000000000004 and is not the double nearest to 3/10 either;
    the literal ["9007199254740993"] is read as 9007199254740992.  A
    division by zero is no error but [Infinity], and a limit below the
    count of the literals rejects an expression without dice. *)
Lemma arithmetic_is_rounded_to_doubles :
  (wellFormed oneTenthPlusTwoTenths = true
   /\ write oneTenthPlusTwoTenths = "1/10 + 2/10"
   /\ parseExpression "1/10 + 2/10" = Ok (toAST oneTenthPlusTwoTenths)
   /\ (exists q, value oneTenthPlusTwoTenths = Some q /\ (q == 3 # 10)%Q)
   /\ exactA oneTenthPlusTwoTenths = false
   /\ exists x v,
       evaluate64 (toAST oneTenthPlusTwoTenths) = Some x
       /\ doubleValue x = Some v
       /\ (v == 5404319552844596 # (2 ^ 54))%Q
       /\ ~ (v == 3 # 10)%Q
       /\ evaluate64 (BinaryOpNode (NumberNode 3) SLASH (NumberNode 10))
          <> Some x)
  /\ (parseExpression "9007199254740993"
      = Ok (NumberNode 9007199254740993)
      /\ exists v,
          doubleValue (toDouble 9007199254740993) = Some v
          /\ (v == 9007199254740992 # 1)%Q)
  /\ rollSeq "1 / 0" [] = Ok (mkResult Infinity None "1 / 0", [])
  /\ roll (list number) sequence showNumber "1 + 2" (Some (ofN 1)) []
     = Throw (TooManyDiceError 2).
Proof.
  split; [|split; [|split]].
  - split; [reflexivity|]. split; [reflexivity|]. split; [reflexivity|].
    split; [eexists; split; [reflexivity | reflexivity]|].
    split; [reflexivity|].
    do 2 eexists. split; [reflexivity|]. split; [vm_compute; reflexivity|].
    split; [reflexivity|]. split; [discriminate|].
    vm_compute. discriminate.
  - split; [reflexivity|]. eexists. split; [vm_compute; reflexivity|].
    reflexivity.
  - reflexivity.
  - reflexivity.
Qed.

(** On the expressions of the tests the doubles give the same numbers:
    ["2 * 3 + 1"] is 7 and ["(1 + 4) / 2"] is 5/2. *)
Example evaluate64_tests :
  (exists v, option_map doubleValue
               (evaluate64 (toAST twoTimesThreePlusOne)) = Some (Some v)
             /\ (v == 7 # 1)%Q)
  /\ exists v, option_map doubleValue (evaluate64 (toAST fiveHalves))
               = Some (Some v)
               /\ (v == 5 # 2)%Q.
Proof.
  split; eexists; (split; [vm_compute; reflexivity | reflexivity]).
Qed.

(** The expression [twoTimesThreePlusOne] is written as the string of the
    test, and stands for the tree that multiplies first. *)
Example write_twoTimesThreePlusOne :
  write twoTimesThreePlusOne = "2 * 3 + 1"
  /\ toAST twoTimesThreePlusOne
     = BinaryOpNode (BinaryOpNode (NumberNode 2) STAR (NumberNode 3))
                    PLUS (NumberNode 1).
Proof. split; reflexivity. Qed.

(* ================================================================== *)
(** * Tokens the parser does not read *)

Ltac forward_auto :=
  repeat first
    [ solve [auto with parser]
    | match goal with
      | |- forward _ (if ?b then _ else _) => destruct b
      end
    | match goal with
      | |- forward _ (bind _ _) => apply forward_bind; [ | intros ]
      end ].

Section Advancing.

Variable tokens : list Token.

Lemma advancing_throw {A} (e : Exception) : advancing (@throw nat A e).
Proof. intros cur a c H. discriminate. Qed.

Lemma advancing_diverge {A} : advancing (@diverge nat A).
Proof. intros cur a c H. discriminate. Qed.

Lemma advancing_expect (t : TokenType) : advancing (expect tokens t).
Proof. intros cur a c H. apply expect_Ok in H as (_ & _ & ->). lia. Qed.

Lemma advancing_bind_l {A B} (m : Parser A) (k : A -> Parser B) :
  advancing m -> (forall a, forward tokens (k a)) -> advancing (bind m k).
Proof.
  intros Hm Hk cur b c H. apply bind_Ok in H as (a & c1 & H1 & H2).
  apply Hm in H1. apply Hk in H2. lia.
Qed.

Lemma advancing_bind_r {A B} (m : Parser A) (k : A -> Parser B) :
  forward tokens m -> (forall a, advancing (k a)) -> advancing (bind m k).
Proof.
  intros Hm Hk cur b c H. apply bind_Ok in H as (a & c1 & H1 & H2).
  apply Hm in H1. apply Hk in H2. lia.
Qed.

Lemma advancing_match_if {B} (types : list TokenType) (yes no : Parser B) :
  forward tokens yes -> advancing no ->
  advancing (bind (match_ tokens types) (fun m => if m then yes else no)).
Proof.
  intros Hy Hn cur b c H. apply bind_Ok in H as (m & c1 & H1 & H2).
  apply match_Ok in H1 as (t & _ & _ & ->).
  destruct m; [apply Hy in H2 | apply Hn in H2]; lia.
Qed.

Lemma advancing_dice (P : Parser ASTNode) :
  forward tokens P -> advancing (dice tokens P).
Proof.
  intros HP. unfold dice.
  apply advancing_bind_r; [auto with parser | intros m].
  apply advancing_bind_r; [destruct m; forward_auto | intros n].
  apply advancing_bind_l; [apply advancing_expect | intros t].
  forward_auto.
Qed.

Lemma advancing_primary (fuel : nat) : advancing (primary tokens fuel).
Proof.
  destruct fuel as [|fuel]; cbn [primary]; [apply advancing_diverge|].
  apply advancing_bind_r; [auto with parser | intros token].
  apply advancing_bind_r; [auto with parser | intros next].
  destruct (_ || _).
  - apply advancing_dice. auto with parser.
  - apply advancing_match_if; [forward_auto|].
    apply advancing_match_if; [forward_auto|].
    apply advancing_match_if; [forward_auto|].
    apply advancing_bind_r; [auto with parser | intros t].
    apply advancing_throw.
Qed.

(** Where [term] stops there is a token, and it is neither [-] nor
    [+]. *)
Lemma termLoop_stops_at (P : Parser ASTNode) (n : nat) :
  forall (expr ast : ASTNode) (cur c : nat),
    termLoop tokens P n expr cur = Ok (ast, c) ->
    exists t, nth_error tokens c = Some t
              /\ includes [Operator MINUS; Operator PLUS] (type t) = false.
Proof.
  induction n as [|n IH]; intros expr ast cur c H; cbn [termLoop] in H;
    apply bind_Ok in H as (m & c1 & H1 & H2);
    apply match_Ok in H1 as (t & Ht & Hm & ->); destruct m;
    try discriminate.
  - inversion H2; subst. eauto.
  - apply bind_Ok in H2 as (tk & c2 & _ & H2).
    apply bind_Ok in H2 as (o & c3 & _ & H2).
    apply bind_Ok in H2 as (r & c4 & _ & H2).
    now apply IH in H2.
  - inversion H2; subst. eauto.
Qed.

Lemma term_stops_at (P : Parser ASTNode) (ast : ASTNode) (cur c : nat) :
  term tokens P cur = Ok (ast, c) ->
  exists t, nth_error tokens c = Some t
            /\ includes [Operator MINUS; Operator PLUS] (type t) = false.
Proof.
  unfold term. intros H. apply bind_Ok in H as (e & c1 & _ & H).
  now apply termLoop_stops_at in H.
Qed.

End Advancing.

Section Simulation.

Variable tokens tokens' : list Token.
Variable k : nat.
Hypothesis agree : forall i, i <= k -> nth_error tokens' i = nth_error tokens i.

Lemma sim_same {A} (p : Parser A) : sim k p p.
Proof. intros cur a c H _. now left. Qed.

Lemma sim_diverge {A} (p : Parser A) : sim k p diverge.
Proof. intros cur a c _ _. now right. Qed.

Lemma sim_of_diverge {A} (p : Parser A) : sim k diverge p.
Proof. intros cur a c H. discriminate. Qed.

Lemma sim_of_throw {A} (e : Exception) (p : Parser A) : sim k (throw e) p.
Proof. intros cur a c H. discriminate. Qed.

Lemma sim_bind {A B} (m m' : Parser A) (f f' : A -> Parser B) :
  sim k m m' -> (forall a, forward tokens (f a)) ->
  (forall a, sim k (f a) (f' a)) ->
  sim k (bind m f) (bind m' f').
Proof.
  intros Hm Hf Hs cur b c H Hc.
  apply bind_Ok in H as (a & c1 & H1 & H2).
  pose proof (Hf _ _ _ _ H2) as [Hle _].
  destruct (Hm _ _ _ H1 ltac:(lia)) as [E|E]; unfold bind; rewrite E.
  - now apply Hs.
  - now right.
Qed.

Lemma sim_peek : sim k (peek tokens) (peek tokens').
Proof.
  intros cur t c H Hc. apply peek_Ok in H as [H ->]. left.
  apply peek_at. now rewrite agree.
Qed.

Lemma sim_advance : sim k (advance tokens) (advance tokens').
Proof.
  intros cur t c H Hc. apply advance_Ok in H as [H ->]. left.
  unfold advance, bind. rewrite (peek_at tokens' cur t); [reflexivity|].
  rewrite agree; [assumption | lia].
Qed.

Lemma sim_previous : sim k (previous tokens) (previous tokens').
Proof.
  intros cur t c H Hc. apply previous_Ok in H as (H & Hpos & ->). left.
  destruct cur as [|cur]; [lia|]. apply previous_at.
  rewrite agree; [assumption | lia].
Qed.

Lemma sim_match (types : list TokenType) :
  sim k (match_ tokens types) (match_ tokens' types).
Proof.
  intros cur b c H Hc. apply match_Ok in H as (t & H & -> & ->). left.
  apply match_at. rewrite agree; [assumption|].
  destruct (includes types (type t)); lia.
Qed.

Lemma sim_expect (t : TokenType) : sim k (expect tokens t) (expect tokens' t).
Proof.
  intros cur tk c H Hc. apply expect_Ok in H as (H & E & ->). left.
  apply expect_at; [|assumption]. rewrite agree; [assumption | lia].
Qed.

(** The token after the next one is read by a parser that moves on. *)
Lemma sim_bind_nextType {B} (f f' : option TokenType -> Parser B) :
  (forall x, advancing (f x)) -> (forall x, sim k (f x) (f' x)) ->
  sim k (bind (nextType tokens) f) (bind (nextType tokens') f').
Proof.
  intros Ha Hs cur b c H Hc. unfold bind, nextType in *.
  pose proof (Ha _ _ _ _ H) as Hlt.
  rewrite agree by lia. now apply Hs.
Qed.

Hint Resolve sim_same sim_diverge sim_of_diverge sim_of_throw sim_peek sim_advance sim_previous
  sim_match sim_expect : parser.

Ltac sim_auto :=
  repeat first
    [ solve [auto with parser]
    | match goal with
      | |- sim _ (if ?b then _ else _) (if ?b then _ else _) => destruct b
      end
    | match goal with
      | |- sim _ (bind _ _) (bind _ _) =>
          apply sim_bind; [ | intros; forward_auto | intros ]
      end ].

Lemma sim_factorLoop (P P' : Parser ASTNode) :
  forward tokens P -> sim k P P' ->
  forall n n' expr,
    sim k (factorLoop tokens P n expr) (factorLoop tokens' P' n' expr).
Proof.
  intros HP Hs n. induction n as [|n IH]; intros n' expr;
    destruct n' as [|n']; cbn [factorLoop]; sim_auto.
Qed.

Lemma sim_factor (P P' : Parser ASTNode) :
  forward tokens P -> sim k P P' ->
  sim k (factor tokens P) (factor tokens' P').
Proof.
  intros HP Hs. unfold factor.
  apply sim_bind; [assumption | intros; forward_auto | intros].
  now apply sim_factorLoop.
Qed.

Lemma sim_termLoop (P P' : Parser ASTNode) :
  forward tokens P -> sim k P P' ->
  forall n n' expr,
    sim k (termLoop tokens P n expr) (termLoop tokens' P' n' expr).
Proof.
  intros HP Hs n. pose proof (sim_factor P P' HP Hs).
  induction n as [|n IH]; intros n' expr;
    destruct n' as [|n']; cbn [termLoop]; sim_auto.
Qed.

Lemma sim_term (P P' : Parser ASTNode) :
  forward tokens P -> sim k P P' ->
  sim k (term tokens P) (term tokens' P').
Proof.
  intros HP Hs. unfold term.
  apply sim_bind; [now apply sim_factor | intros; forward_auto | intros].
  now apply sim_termLoop.
Qed.

Lemma sim_dice (P P' : Parser ASTNode) :
  forward tokens P -> sim k P P' ->
  sim k (dice tokens P) (dice tokens' P').
Proof.
  intros HP Hs. unfold dice.
  apply sim_bind; [auto with parser | intros; forward_auto | intros m].
  apply sim_bind; [destruct m; sim_auto | intros; forward_auto | intros n].
  sim_auto.
Qed.

Lemma sim_primary (fuel : nat) :
  forall fuel', sim k (primary tokens fuel) (primary tokens' fuel').
Proof.
  induction fuel as [|fuel IH]; intros fuel'.
  - intros cur a c H. discriminate.
  - destruct fuel' as [|fuel']; [apply sim_diverge|]. cbn [primary].
    pose proof (forward_primary tokens fuel) as HP.
    pose proof (sim_dice _ _ HP (IH fuel')).
    pose proof (sim_term _ _ HP (IH fuel')).
    apply sim_bind; [auto with parser | intros; forward_auto | intros token].
    apply sim_bind_nextType; intros next.
    + destruct (_ || _).
      * apply (advancing_dice tokens). auto with parser.
      * apply (advancing_match_if tokens); [forward_auto|].
        apply (advancing_match_if tokens); [forward_auto|].
        apply (advancing_match_if tokens); [forward_auto|].
        apply (advancing_bind_r tokens); [auto with parser | intros t].
        apply advancing_throw.
    + sim_auto.
Qed.

End Simulation.

Lemma nth_error_firstn_lt {A} (l : list A) (n i : nat) :
  i < n -> nth_error (firstn n l) i = nth_error l i.
Proof.
  intros H. rewrite nth_error_firstn.
  destruct (Nat.ltb_spec i n); [reflexivity | lia].
Qed.

Lemma parse_of_topTerm (tokens : list Token) (ast : ASTNode) (cur : nat)
      (t : Token) :
  topTerm tokens 0 = Ok (ast, cur) -> nth_error tokens cur = Some t ->
  parse tokens = Ok (ast, parseWarning t).
Proof.
  intros E Ht. unfold parse, parseWarning.
  rewrite (bind_step _ _ _ _ _ E). unfold bind.
  rewrite (peek_at _ _ _ Ht).
  destruct (TokenType_eqb (type t) EOF); reflexivity.
Qed.

(** When the call [term()] of [parse] returns, having read the tokens
    before [cur], [parse] returns the tree of that call, whatever the token
    at [cur]: when it is not [EOF] there is a warning and nothing else.
    The tokens after it are not read: with any other tokens there, [parse]
    returns the same tree.  [roll] goes on to the limit check and to the
    evaluation of that tree. *)
Theorem parse_ignores_the_tokens_after_the_term :
  forall (tokens : list Token) (ast : ASTNode) (cur : nat),
    topTerm tokens 0 = Ok (ast, cur) ->
    (exists t, nth_error tokens cur = Some t
               /\ parse tokens = Ok (ast, parseWarning t))
    /\ (forall tokens',
           firstn (S cur) tokens' = firstn (S cur) tokens ->
           exists warnings, parse tokens' = Ok (ast, warnings))
    /\ (forall (St : Type) (random : Random St)
               (numberToString : number -> string) (expression : string)
               (maxRolls : option number) (s : St),
           lex expression = Ok tokens ->
           roll St random numberToString expression maxRolls s
           = bind (checkLimit St maxRolls ast)
                  (fun _ => evaluate St random numberToString ast) s).
Proof.
  intros tokens ast cur E.
  destruct (term_stops_at _ _ _ _ _ E) as (t & Ht & _).
  pose proof (parse_of_topTerm _ _ _ _ E Ht) as Ep.
  split; [eauto|]. split.
  - intros tokens' Hfirst.
    assert (agree : forall i, i <= cur ->
                      nth_error tokens' i = nth_error tokens i).
    { intros i Hi.
      rewrite <- (nth_error_firstn_lt tokens' (S cur)) by lia.
      rewrite <- (nth_error_firstn_lt tokens (S cur)) by lia.
      now rewrite Hfirst. }
    pose proof (sim_term tokens tokens' cur agree
                  (primary tokens (parseFuel tokens))
                  (primary tokens' (parseFuel tokens'))
                  (forward_primary _ _)
                  (sim_primary tokens tokens' cur agree _ _)) as Hs.
    destruct (Hs 0 ast cur E (Nat.le_refl _)) as [E'|E'].
    + exists (parseWarning t). apply parse_of_topTerm with cur; [exact E'|].
      now rewrite agree.
    + now apply topTerm_terminates in E'.
  - intros St random nts expression maxRolls s El.
    now apply roll_unfold with tokens (parseWarning t).
Qed.

Lemma parse_ignores_the_tokens_after_the_term_witness :
  (exists t, nth_error oneTwoTokens 1 = Some t
             /\ parse oneTwoTokens = Ok (NumberNode 1, parseWarning t))
  /\ (forall tokens',
         firstn 2 tokens' = firstn 2 oneTwoTokens ->
         exists warnings, parse tokens' = Ok (NumberNode 1, warnings))
  /\ (forall (St : Type) (random : Random St)
             (numberToString : number -> string) (expression : string)
             (maxRolls : option number) (s : St),
         lex expression = Ok oneTwoTokens ->
         roll St random numberToString expression maxRolls s
         = bind (checkLimit St maxRolls (NumberNode 1))
                (fun _ => evaluate St random numberToString (NumberNode 1))
                s).
Proof.
  apply (parse_ignores_the_tokens_after_the_term oneTwoTokens (NumberNode 1) 1).
  reflexivity.
Defined.

(** Trailing input on strings: the number [2], a closing parenthesis and
    a second dice term are left unread. *)
Example roll_trailing_input :
  lex "1 2" = Ok oneTwoTokens
  /\ rollSeq "1 2" [] = Ok (mkResult (Num 1) None "1", [])
  /\ rollSeq "(1 + 2) * 3 )" []
     = Ok (mkResult (Num 9) None "(1 + 2) * 3", [])
  /\ rollSeq "2d6 3d8" [ofN 1; ofN 2; ofN 5]
     = Ok (mkResult (Num 3) (Some [ofN 1; ofN 2]) "[1 + 2]", [ofN 5])
  /\ rollSeq "1 +" [] = Throw (Error "Unexpected EOF at offset 3").
Proof. repeat split; reflexivity. Qed.

(* ================================================================== *)
(** * Where the text of a token is *)

Lemma slice_length (s : string) (start end_ : nat) :
  start <= end_ -> end_ <= String.length s ->
  String.length (slice s start end_) = end_ - start.
Proof.
  intros H1 H2. unfold slice.
  rewrite <- length_list_ascii, list_ascii_of_string_of_list_ascii.
  rewrite length_firstn, length_skipn, length_list_ascii. lia.
Qed.

Lemma slice_char (s : string) (i : nat) (c : ascii) :
  charAt s i = Some c -> slice s i (S i) = ofChar c.
Proof.
  intros H. unfold slice. unfold charAt in H.
  rewrite (skipn_nth_error_cons _ _ _ H).
  replace (S i - i) with 1 by lia. reflexivity.
Qed.

Lemma slice_two (s : string) (i : nat) (c d : ascii) :
  charAt s i = Some c -> charAt s (S i) = Some d ->
  slice s i (S (S i)) = String c (ofChar d).
Proof.
  intros Hc Hd. unfold slice. unfold charAt in Hc, Hd.
  rewrite (skipn_nth_error_cons _ _ _ Hc), (skipn_nth_error_cons _ _ _ Hd).
  replace (S (S i) - i) with 2 by lia. reflexivity.
Qed.

Section TokenPlaces.

Variable expression : string.

Lemma tokenPlaced_step (st : LexState) (c : ascii) :
  charAt expression (lexOffset st) = Some c ->
  Forall (tokenPlaced expression) (lexTokens st) ->
  Forall (tokenPlaced expression) (lexTokens (lexStep expression st c)).
Proof.
  intros Hc HI.
  pose proof (lexStep_progress expression st c Hc) as [Hlt Hle].
  revert Hlt Hle. unfold lexStep, single, push.
  repeat match goal with
         | |- context [if ?b then _ else _] => destruct b eqn:?
         end; cbn [lexOffset lexTokens]; intros Hlt Hle; try assumption;
    (apply Forall_app; split; [assumption|]; constructor; [|constructor]).
  - (* a number *)
    left. cbn [offset lexeme]. rewrite slice_length by lia. f_equal. lia.
  - (* d *)
    left. cbn [offset lexeme baseToken]. rewrite slice_length by lia.
    f_equal. lia.
  - left. cbn. rewrite Nat.add_1_r. now apply slice_char.
  - left. cbn. rewrite Nat.add_1_r. now apply slice_char.
  - left. cbn. rewrite Nat.add_1_r. now apply slice_char.
  - left. cbn. rewrite Nat.add_1_r. now apply slice_char.
  - left. cbn. rewrite Nat.add_1_r. now apply slice_char.
  - left. cbn. rewrite Nat.add_1_r. now apply slice_char.
  - (* kh *)
    right. exists KEEP_HIGHEST, (lexOffset st).
    repeat split.
    match goal with H : (c =? "k")%char = true |- _ =>
      apply Ascii.eqb_eq in H; subst c end.
    match goal with H : charIs _ "h" = true |- _ =>
      apply charIs_true in H; now apply slice_two end.
  - (* kl *)
    right. exists KEEP_LOWEST, (lexOffset st).
    repeat split.
    match goal with H : (c =? "k")%char = true |- _ =>
      apply Ascii.eqb_eq in H; subst c end.
    match goal with H : charIs _ "l" = true |- _ =>
      apply charIs_true in H; now apply slice_two end.
  - left. cbn. rewrite Nat.add_1_r. now apply slice_char.
  - left. cbn. rewrite Nat.add_1_r. now apply slice_char.
Qed.

(** X4.  Every token [lex] returns has for lexeme the text of the source
    at its offset, but for the tokens of the pairs [kh] and [kl], which
    carry the offset of their second letter (and the lexeme ["kh"]). *)
Lemma lex_token_places (tokens : list Token) :
  lex expression = Ok tokens -> Forall (tokenPlaced expression) tokens.
Proof.
  unfold lex. rewrite lexRun_lexFrom.
  destruct (lexFrom_invariant expression
              (fun st => Forall (tokenPlaced expression) (lexTokens st))
              tokenPlaced_step (mkLexState 0 [] []) (Forall_nil _))
    as [HI _].
  destruct (lexErrors _); intros H; inversion H; subst.
  unfold push. apply Forall_app. split; [assumption|].
  constructor; [|constructor]. left. cbn [offset lexeme baseToken].
  unfold slice. cbn [String.length]. rewrite Nat.add_0_r, Nat.sub_diag.
  reflexivity.
Qed.

End TokenPlaces.

(* ================================================================== *)
(** * Further properties of the lexer *)

(** X1.  [lex] returns tokens exactly for the strings without a lexical
    error: every character is white space, a digit or one of
    [d + - * / ( ) h l], or a [k] that is followed by [h] or [l]. *)
Theorem lex_returns_iff_no_error (expression : string) :
  (exists tokens, lex expression = Ok tokens)
  <-> (forall off, ~ errorAt expression off).
Proof.
  pose proof (lexFrom_first_error expression (String.length expression)
                (mkLexState 0 [] []) ltac:(simpl; lia) eq_refl) as F.
  cbn [lexOffset skipn] in F. split.
  - intros [tokens E] off H.
    destruct (firstErrorOffset_first _ _ H) as (o & Eo & _).
    rewrite Eo in F. destruct F as (m & rest & F).
    revert E. unfold lex. rewrite lexRun_lexFrom, F. discriminate.
  - intros H.
    destruct (firstErrorOffset (list_ascii_of_string expression) 0)
      as [o|] eqn:Eo.
    + exfalso. apply (H o). now apply firstErrorOffset_sound.
    + unfold lex. rewrite lexRun_lexFrom, F. eauto.
Qed.

Lemma digitRun_firstn (cs : list ascii) :
  forallb isDigit (firstn (digitRun cs) cs) = true.
Proof.
  induction cs as [|c cs IH]; simpl; [reflexivity|].
  destruct (isDigit c) eqn:E; simpl; [now rewrite E | reflexivity].
Qed.

Lemma digitRun_stop (cs : list ascii) :
  match nth_error cs (digitRun cs) with
  | Some c => isDigit c = false
  | None => True
  end.
Proof.
  induction cs as [|c cs IH]; simpl; [exact I|].
  destruct (isDigit c) eqn:E; simpl; assumption.
Qed.

Lemma nth_error_skipn_add {A} (l : list A) (n i : nat) :
  nth_error (skipn n l) i = nth_error l (n + i).
Proof.
  revert l; induction n as [|n IH]; intros [|x l]; simpl; auto.
  now destruct i.
Qed.

Lemma isRecognized_false (c : ascii) :
  isSpace c = false -> isDigit c = false ->
  (c =? "d")%char = false -> (c =? "+")%char = false ->
  (c =? "-")%char = false -> (c =? "*")%char = false ->
  (c =? "/")%char = false -> (c =? "(")%char = false ->
  (c =? ")")%char = false -> (c =? "h")%char = false ->
  (c =? "l")%char = false ->
  isRecognized c = false.
Proof.
  intros. unfold isRecognized. cbn [existsb].
  repeat match goal with H : _ = false |- _ => rewrite H; clear H end.
  reflexivity.
Qed.

Section LexerShapes.

Variable expression : string.

Lemma lexicalError_step (st : LexState) (c : ascii) :
  charAt expression (lexOffset st) = Some c ->
  Forall (lexicalError expression) (lexErrors st) ->
  Forall (lexicalError expression) (lexErrors (lexStep expression st c)).
Proof.
  intros Hc HI. unfold lexStep, single, push.
  repeat match goal with
         | |- context [if ?b then _ else _] => destruct b eqn:?
         end; cbn [lexErrors]; try assumption;
    (apply Forall_app; split; [assumption|]; constructor; [|constructor]).
  - (* a [k] alone *)
    exists (S (lexOffset st)). right. exists (lexOffset st).
    match goal with H : (c =? "k")%char = true |- _ =>
      apply Ascii.eqb_eq in H; subst c end.
    repeat split; try assumption.
    + intros H. apply charIs_true in H. congruence.
    + intros H. apply charIs_true in H. congruence.
  - (* a character that is not recognized *)
    exists (lexOffset st). left. exists c.
    repeat split; try assumption.
    + intros ->. discriminate.
    + now apply isRecognized_false.
Qed.

Lemma tokenShape_step (st : LexState) (c : ascii) :
  charAt expression (lexOffset st) = Some c ->
  Forall (tokenShape expression) (lexTokens st) ->
  Forall (tokenShape expression) (lexTokens (lexStep expression st c)).
Proof.
  intros Hc HI.
  pose proof (lexStep_progress expression st c Hc) as [Hlt Hle].
  revert Hlt Hle. unfold lexStep, single, push.
  repeat match goal with
         | |- context [if ?b then _ else _] => destruct b eqn:?
         end; cbn [lexOffset lexTokens]; intros Hlt Hle; try assumption;
    (apply Forall_app; split; [assumption|]; constructor; [|constructor]);
    try reflexivity.
  (* a number *)
  unfold tokenShape. cbn [type lexeme literal offset].
  set (cs := skipn (lexOffset st) (list_ascii_of_string expression)) in *.
  assert (Hlen : String.length
                   (slice expression (lexOffset st)
                      (lexOffset st + digitRun cs)) = digitRun cs).
  { rewrite slice_length by lia. lia. }
  repeat split.
  - intros E. rewrite E in Hlen. simpl in Hlen. lia.
  - unfold allOf, slice. rewrite list_ascii_of_string_of_list_ascii.
    fold cs. replace (lexOffset st + digitRun cs - lexOffset st)
      with (digitRun cs) by lia.
    apply digitRun_firstn.
  - rewrite Hlen. unfold charAt. rewrite <- nth_error_skipn_add. fold cs.
    apply digitRun_stop.
Qed.

End LexerShapes.

Lemma lexErrors_lexical (expression : string) :
  Forall (lexicalError expression)
         (lexErrors (lexFrom expression (mkLexState 0 [] []))).
Proof.
  apply (lexFrom_invariant expression
           (fun st => Forall (lexicalError expression) (lexErrors st))
           (lexicalError_step expression) (mkLexState 0 [] [])
           (Forall_nil _)).
Qed.

(** X2.  The error [lex] throws is a [DiceNotationError] that carries the
    source string and the offset of the error, with a message that quotes
    the character that is not recognized (["Unexpected 'c'!"]) or, for a
    [k] that is followed by neither [h] nor [l], the message
    ["Unexpected k"] and the offset after the [k]. *)
Theorem lex_throws_a_lexical_error (expression : string) (e : Exception) :
  lex expression = Throw e -> lexicalError expression e.
Proof.
  unfold lex. rewrite lexRun_lexFrom.
  pose proof (lexErrors_lexical expression) as HI.
  destruct (lexErrors _); intros H; inversion H; subst.
  now inversion HI.
Qed.

Lemma lex_throws_a_lexical_error_witness :
  lexicalError "1 @ 2"
    (DiceNotationError (diceNotationMessage "Unexpected '@'!" "1 @ 2" 2)
                       "1 @ 2" 2).
Proof.
  apply (lex_throws_a_lexical_error "1 @ 2" _ eq_refl).
Defined.

Lemma lexTokens_shapes (expression : string) :
  Forall (tokenShape expression)
         (lexTokens (lexFrom expression (mkLexState 0 [] []))).
Proof.
  apply (lexFrom_invariant expression
           (fun st => Forall (tokenShape expression) (lexTokens st))
           (tokenShape_step expression) (mkLexState 0 [] [])
           (Forall_nil _)).
Qed.

(** X3.  Every [NUMBER] token [lex] returns has for lexeme a run of
    digits that no digit follows in the source, and for literal the
    number its lexeme reads in base ten; no other token has a literal. *)
Theorem lex_number_tokens (expression : string) (tokens : list Token) :
  lex expression = Ok tokens -> Forall (tokenShape expression) tokens.
Proof.
  unfold lex. rewrite lexRun_lexFrom.
  pose proof (lexTokens_shapes expression) as HI.
  destruct (lexErrors _); intros H; inversion H; subst.
  unfold push. apply Forall_app. split; [assumption|].
  constructor; [reflexivity | constructor].
Qed.

Lemma lex_number_tokens_witness :
  Forall (tokenShape "12d007")
    [ mkToken NUMBER "12" 0 (Some 12%N); baseToken DICE "d" 2;
      mkToken NUMBER "007" 3 (Some 7%N); baseToken EOF "" 6 ].
Proof.
  apply (lex_number_tokens "12d007" _ eq_refl).
Defined.

Lemma lex_token_places_witness :
  Forall (tokenPlaced "3d6kl1")
    [ mkToken NUMBER "3" 0 (Some 3%N); baseToken DICE "d" 1;
      mkToken NUMBER "6" 2 (Some 6%N); baseToken KEEP_LOWEST "kh" 4;
      mkToken NUMBER "1" 5 (Some 1%N); baseToken EOF "" 6 ].
Proof.
  apply (lex_token_places "3d6kl1" _ eq_refl).
Defined.

(** X5.  A source string without a lexeme, empty or of white space only,
    gives the [EOF] token alone, at the length of the string; [parse]
    rejects it, so [roll] throws the [Error] of the parser and no
    [DiceNotationError]. *)
Theorem roll_blank_expression :
  forall (St : Type) (random : Random St) (numberToString : number -> string)
         (expression : string) (maxRolls : option number) (s : St),
    allOf isSpace expression = true ->
    lex expression = Ok [baseToken EOF "" (String.length expression)]
    /\ roll St random numberToString expression maxRolls s
       = Throw (Error ("Unexpected EOF at offset "
                       ++ showNat (String.length expression))).
Proof.
  intros St random nts expression maxRolls s H.
  assert (E : lex expression
              = Ok [baseToken EOF "" (String.length expression)]).
  { pose proof (lex_spelled expression [] H eq_refl) as L.
    cbn [spell] in L. rewrite append_empty_r in L. exact L. }
  split; [exact E|].
  apply roll_parse_throws with [baseToken EOF "" (String.length expression)];
    [exact E | reflexivity].
Qed.

Lemma roll_blank_expression_witness :
  lex "  " = Ok [baseToken EOF "" 2]
  /\ rollSeq "  " [] = Throw (Error "Unexpected EOF at offset 2").
Proof.
  apply (roll_blank_expression (list number) sequence showNumber "  " None []).
  reflexivity.
Defined.

(* ================================================================== *)
(** * A program logic for the parser *)

Lemma segment_nil {A} (l : list A) (n : nat) : segment l n n = [].
Proof. unfold segment. now rewrite Nat.sub_diag. Qed.

Lemma segment_cons {A} (l : list A) (start stop : nat) (x : A) :
  nth_error l start = Some x -> start < stop ->
  segment l start stop = x :: segment l (S start) stop.
Proof.
  intros H Hlt. unfold segment. rewrite (skipn_nth_error_cons _ _ _ H).
  replace (stop - start) with (S (stop - S start)) by lia. reflexivity.
Qed.

Lemma segment_app {A} (l : list A) (start mid stop : nat) :
  start <= mid -> mid <= stop -> mid <= List.length l ->
  segment l start stop = (segment l start mid ++ segment l mid stop)%list.
Proof.
  intros H1 H2 H3. unfold segment.
  replace (skipn mid l) with (skipn (mid - start) (skipn start l))
    by (rewrite skipn_skipn; f_equal; lia).
  replace (stop - start) with ((mid - start) + (stop - mid)) by lia.
  generalize (skipn start l) (mid - start) (stop - mid). clear.
  intros l a b. revert l. induction a as [|a IH]; intros [|x l]; simpl;
    try reflexivity.
  - now rewrite firstn_nil.
  - now rewrite IH.
Qed.

Lemma segment_from_zero {A} (l : list A) (n : nat) :
  segment l 0 n = firstn n l.
Proof. unfold segment. now rewrite Nat.sub_0_r. Qed.

Section Triples.

Variable tokens : list Token.
Variable E : Exception -> Prop.

Lemma triple_ret {A} (P : nat -> Prop) (a : A) (Q : A -> nat -> Prop) :
  (forall c, P c -> Q a c) -> triple P (ret a) Q E.
Proof. intros H cur HP. now apply H. Qed.

Lemma triple_throw {A} (P : nat -> Prop) (e : Exception)
      (Q : A -> nat -> Prop) :
  (forall c, P c -> E e) -> triple P (throw e) Q E.
Proof. intros H cur HP. now apply (H cur). Qed.

Lemma triple_diverge {A} (P : nat -> Prop) (Q : A -> nat -> Prop) :
  triple P diverge Q E.
Proof. intros cur HP. exact I. Qed.

Lemma triple_bind {A B} (P : nat -> Prop) (m : Parser A)
      (Q : A -> nat -> Prop) (k : A -> Parser B) (R : B -> nat -> Prop) :
  triple P m Q E -> (forall a, triple (Q a) (k a) R E) ->
  triple P (bind m k) R E.
Proof.
  intros Hm Hk cur HP. specialize (Hm cur HP). unfold bind.
  destruct (m cur) as [[a c]| |]; auto. now apply Hk.
Qed.

(** The laws of the monad, as far as the rules need them. *)
Lemma triple_assoc {A B C} (P : nat -> Prop) (m : Parser A)
      (f : A -> Parser B) (k : B -> Parser C) (R : C -> nat -> Prop) :
  triple P (bind m (fun x => bind (f x) k)) R E ->
  triple P (bind (bind m f) k) R E.
Proof.
  intros H cur HP. specialize (H cur HP). unfold bind in *.
  destruct (m cur) as [[a c]| |]; auto.
Qed.

Lemma triple_ret_bind {A B} (P : nat -> Prop) (a : A) (k : A -> Parser B)
      (R : B -> nat -> Prop) :
  triple P (k a) R E -> triple P (bind (ret a) k) R E.
Proof. intros H cur HP. exact (H cur HP). Qed.

Lemma triple_conseq {A} (P P' : nat -> Prop) (m : Parser A)
      (Q Q' : A -> nat -> Prop) :
  triple P m Q E -> (forall c, P' c -> P c) ->
  (forall a c, Q a c -> Q' a c) -> triple P' m Q' E.
Proof.
  intros Hm HP HQ cur HP'. specialize (Hm cur (HP cur HP')).
  destruct (m cur) as [[a c]| |]; auto.
Qed.

(** A specification for every start position is one for every set of
    start positions. *)
Lemma triple_frame {A} (m : Parser A) (Q : nat -> A -> nat -> Prop) :
  (forall start, triple (eq start) m (Q start) E) ->
  forall P, triple P m (fun a c' => exists c, P c /\ Q c a c') E.
Proof.
  intros H P cur HP. specialize (H cur cur eq_refl).
  destruct (m cur) as [[a c]| |]; eauto.
Qed.

Lemma triple_peek (P : nat -> Prop) :
  (forall c, P c -> nth_error tokens c = None -> E TypeError) ->
  triple P (peek tokens)
         (fun t c => P c /\ nth_error tokens c = Some t) E.
Proof.
  intros H cur HP. unfold peek.
  destruct (nth_error tokens cur) eqn:E1; [auto | now apply (H cur)].
Qed.

Lemma triple_nextType (P : nat -> Prop) :
  triple P (nextType tokens)
         (fun o c => P c /\ o = option_map type (nth_error tokens (S c))) E.
Proof. intros cur HP. unfold nextType. auto. Qed.

Lemma triple_match (P : nat -> Prop) (types : list TokenType) :
  (forall c, P c -> nth_error tokens c = None -> E TypeError) ->
  triple P (match_ tokens types)
         (fun b c' =>
            if b then
              exists c t, P c /\ c' = S c /\ nth_error tokens c = Some t
                          /\ includes types (type t) = true
            else
              P c' /\ exists t, nth_error tokens c' = Some t
                                /\ includes types (type t) = false) E.
Proof.
  intros H cur HP. unfold match_, advance, bind, peek.
  destruct (nth_error tokens cur) as [t|] eqn:E1; [|now apply (H cur)].
  destruct (includes types (type t)) eqn:E2; simpl.
  - rewrite E1. simpl. eauto 6.
  - eauto.
Qed.

Lemma triple_expect (P : nat -> Prop) (ty : TokenType) :
  (forall c, P c -> nth_error tokens c = None -> E TypeError) ->
  (forall c t, P c -> nth_error tokens c = Some t ->
               TokenType_eqb (type t) ty = false ->
               E (Error ("Expected " ++ showTokenType ty ++ " at offset "
                         ++ showNat (offset t)))) ->
  triple P (expect tokens ty)
         (fun t c' =>
            exists c, P c /\ c' = S c /\ nth_error tokens c = Some t
                      /\ type t = ty) E.
Proof.
  intros H H' cur HP. unfold expect, advance, bind, peek.
  destruct (nth_error tokens cur) as [t|] eqn:E1; [|now apply (H cur)].
  destruct (TokenType_eqb (type t) ty) eqn:E2; simpl.
  - rewrite E1. simpl. apply TokenType_eqb_eq in E2. eauto 6.
  - now apply (H' cur).
Qed.

Lemma triple_previous (P : nat -> Prop) :
  (forall c, P c -> nth_error tokens (pred c) = None \/ c = 0 ->
             E TypeError) ->
  triple P (previous tokens)
         (fun t c => P c /\ exists c0, c = S c0
                                       /\ nth_error tokens c0 = Some t) E.
Proof.
  intros H cur HP. unfold previous. destruct cur as [|c].
  - apply (H 0); auto.
  - destruct (nth_error tokens c) eqn:E1; [eauto|].
    apply (H (S c)); auto.
Qed.

Lemma triple_literalOf (P : nat -> Prop) (token : Token) :
  (forall c, P c -> literal token = None -> E Unreachable) ->
  triple P (literalOf token)
         (fun n c => P c /\ literal token = Some n) E.
Proof.
  intros H cur HP. unfold literalOf.
  destruct (literal token) eqn:E1; simpl; [auto | now apply (H cur)].
Qed.

Lemma triple_asOperator (P : nat -> Prop) (token : Token) :
  (forall c, P c -> (forall o, type token <> Operator o) ->
             E Unreachable) ->
  triple P (asOperator token)
         (fun o c => P c /\ type token = Operator o) E.
Proof.
  intros H cur HP. unfold asOperator.
  destruct (type token) eqn:E1; simpl; auto;
    apply (H cur HP); intros o'; discriminate.
Qed.

Lemma triple_asDiceModifier (P : nat -> Prop) (token : Token) :
  (forall c, P c -> (forall m, type token <> DiceModifier m) ->
             E Unreachable) ->
  triple P (asDiceModifier token)
         (fun m c => P c /\ type token = DiceModifier m) E.
Proof.
  intros H cur HP. unfold asDiceModifier.
  destruct (type token) eqn:E1; simpl; auto;
    apply (H cur HP); intros o'; discriminate.
Qed.

End Triples.

(* ================================================================== *)
(** * The trees of the parser follow the grammar *)

Lemma includes_one (ty t : TokenType) :
  includes [ty] t = true -> t = ty.
Proof.
  unfold includes. cbn [existsb]. rewrite orb_false_r.
  apply TokenType_eqb_eq.
Qed.

(** Takes apart the conjunctions and the existentials of the context. *)
Ltac unpack :=
  repeat match goal with
         | H : _ /\ _ |- _ => destruct H
         | H : exists _, _ |- _ => destruct H
         | H : S _ = S _ |- _ => apply eq_add_S in H
         | H : ?x = _ |- _ => is_var x; subst x
         | H : _ = ?x |- _ => is_var x; subst x
         | H1 : nth_error ?l ?n = Some ?a, H2 : nth_error ?l ?n = Some ?b
           |- _ => assert (a = b) by congruence; clear H2
         end.

(** Writes a segment as the tokens that are known to be in it. *)
Ltac segments :=
  repeat (erewrite segment_cons by (first [eassumption | lia]));
  rewrite ?segment_nil.

(** One step along a program: a test on a variable is decided, and the
    rule of the first instruction is applied, with what is known so far
    for precondition. *)
Ltac triple_step side :=
  lazymatch goal with
  | |- triple _ (bind (if ?b then _ else _) _) _ _ => destruct b eqn:?
  | |- triple _ (bind (bind _ _) _) _ _ => apply triple_assoc
  | |- triple _ (bind (ret _) _) _ _ => apply triple_ret_bind
  | H : reads _ ?G ?p |- triple _ ?p _ _ => apply (triple_frame _ _ _ H)
  | H : triple _ ?p _ _ |- triple _ ?p _ _ =>
      eapply triple_conseq; [exact H | side | intros ? ? HQ; exact HQ]
  | |- triple _ (if ?b then _ else _) _ _ => destruct b eqn:?
  | |- triple _ (bind _ _) _ _ => eapply triple_bind; [|intros ?]
  | |- triple _ (peek _) _ _ => apply triple_peek; side
  | |- triple _ (nextType _) _ _ => apply triple_nextType
  | |- triple _ (match_ _ _) _ _ => apply triple_match; side
  | |- triple _ (expect _ _) _ _ => apply triple_expect; side
  | |- triple _ (previous _) _ _ => apply triple_previous; side
  | |- triple _ (literalOf _) _ _ => apply triple_literalOf; side
  | |- triple _ (asOperator _) _ _ => apply triple_asOperator; side
  | |- triple _ (asDiceModifier _) _ _ => apply triple_asDiceModifier; side
  | |- triple _ diverge _ _ => apply triple_diverge
  | |- triple _ (ret _) _ _ => apply triple_ret; side
  | |- triple _ (throw _) _ _ => apply triple_throw; side
  end.

Section Soundness.

Variable tokens : list Token.

Ltac anything := intros; exact I.

Lemma reads_frame (G : ASTNode -> list Token -> Prop)
      (p : Parser ASTNode) :
  reads tokens G p ->
  forall P,
    triple P p
           (fun a c' => exists c, P c /\ c <= c' /\ c' <= List.length tokens
                                  /\ G a (segment tokens c c'))
           (fun _ => True).
Proof. intros H. apply (triple_frame _ _ _ H). Qed.

Lemma reads_dice (P : Parser ASTNode) :
  reads tokens Primary P -> reads tokens Primary (dice tokens P).
Proof.
  intros HP start. unfold dice.
  repeat triple_step anything.
  - apply triple_ret; intros c H; cbv beta in H; unpack.
    split; [lia|]. split; [assumption|]. segments.
    apply (primary_keep _ [_; _; _]); try assumption.
    apply dice_counted; auto using includes_one.
  - apply triple_ret; intros c H; cbv beta in H; unpack.
    split; [lia|]. split; [eapply nth_error_bound; eassumption|]. segments.
    apply primary_dice, dice_counted; auto using includes_one.
  - apply triple_ret; intros c H; cbv beta in H; unpack.
    split; [lia|]. split; [assumption|]. segments.
    apply (primary_keep _ [_; _]); try assumption.
    apply dice_single; auto.
  - apply triple_ret; intros c H; cbv beta in H; unpack.
    split; [lia|]. split; [eapply nth_error_bound; eassumption|]. segments.
    apply primary_dice, dice_single; auto.
Qed.

Lemma reads_factorLoop (P : Parser ASTNode) :
  reads tokens Primary P ->
  forall (fuel : nat) (expr : ASTNode) (Q : nat -> Prop),
    triple Q (factorLoop tokens P fuel expr)
           (fun a c' =>
              exists c, Q c /\ c <= c' /\ c' <= List.length tokens
                        /\ forall start,
                            start <= c ->
                            Factor expr (segment tokens start c) ->
                            Factor a (segment tokens start c'))
           (fun _ => True).
Proof.
  intros HP fuel. induction fuel as [|fuel IH]; intros expr Q;
    cbn [factorLoop]; repeat triple_step anything;
    try (apply triple_ret; intros c H; unpack; exists c;
         repeat split; auto;
         apply Nat.lt_le_incl, nth_error_Some; congruence).
  eapply triple_conseq; [apply IH | intros ? HQ; exact HQ |].
  intros res c' H. cbv beta in H. unpack.
  match goal with H : Q ?c |- _ => exists c end.
  split; [assumption|]. split; [lia|]. split; [assumption|].
  intros start Hs Hf.
  match goal with H : forall s, _ -> _ -> Factor res _ |- _ =>
    apply H; [lia|] end.
  match goal with H : nth_error tokens ?c = Some ?o, _ : Q ?c |- _ =>
    rewrite (segment_app tokens start c) by
        (first [lia | apply Nat.lt_le_incl, nth_error_Some; congruence]);
    rewrite (segment_cons tokens c _ o) by (first [assumption | lia])
  end.
  eapply factor_binary; eauto.
  match goal with
  | H : includes _ (type ?t) = true, H' : type ?t = Operator ?o |- _ =>
      rewrite H' in H; destruct o; try reflexivity;
      vm_compute in H; discriminate H
  end.
Qed.

Lemma reads_factor (P : Parser ASTNode) :
  reads tokens Primary P -> reads tokens Factor (factor tokens P).
Proof.
  intros HP start. unfold factor.
  eapply triple_bind; [apply (triple_frame _ _ _ HP)|]. intros expr.
  eapply triple_conseq;
    [apply (reads_factorLoop P HP) | intros ? HQ; exact HQ |].
  intros res c' H. cbv beta in H. unpack.
  split; [lia|]. split; [assumption|].
  match goal with H : forall s, _ -> _ -> Factor res _ |- _ =>
    apply H; [lia|] end.
  now apply factor_primary.
Qed.

Lemma reads_termLoop (P : Parser ASTNode) :
  reads tokens Primary P ->
  forall (fuel : nat) (expr : ASTNode) (Q : nat -> Prop),
    triple Q (termLoop tokens P fuel expr)
           (fun a c' =>
              exists c, Q c /\ c <= c' /\ c' <= List.length tokens
                        /\ forall start,
                            start <= c ->
                            Term expr (segment tokens start c) ->
                            Term a (segment tokens start c'))
           (fun _ => True).
Proof.
  intros HP fuel. pose proof (reads_factor P HP) as HF.
  induction fuel as [|fuel IH]; intros expr Q;
    cbn [termLoop]; repeat triple_step anything;
    try (apply triple_ret; intros c H; unpack; exists c;
         repeat split; auto;
         apply Nat.lt_le_incl, nth_error_Some; congruence).
  eapply triple_conseq; [apply IH | intros ? HQ; exact HQ |].
  intros res c' H. cbv beta in H. unpack.
  match goal with H : Q ?c |- _ => exists c end.
  split; [assumption|]. split; [lia|]. split; [assumption|].
  intros start Hs Hf.
  match goal with H : forall s, _ -> _ -> Term res _ |- _ =>
    apply H; [lia|] end.
  match goal with H : nth_error tokens ?c = Some ?o, _ : Q ?c |- _ =>
    rewrite (segment_app tokens start c) by
        (first [lia | apply Nat.lt_le_incl, nth_error_Some; congruence]);
    rewrite (segment_cons tokens c _ o) by (first [assumption | lia])
  end.
  eapply term_binary; eauto.
  match goal with
  | H : includes _ (type ?t) = true, H' : type ?t = Operator ?o |- _ =>
      rewrite H' in H; destruct o; try reflexivity;
      vm_compute in H; discriminate H
  end.
Qed.

Lemma reads_term (P : Parser ASTNode) :
  reads tokens Primary P -> reads tokens Term (term tokens P).
Proof.
  intros HP start. unfold term. pose proof (reads_factor P HP) as HF.
  eapply triple_bind; [apply (triple_frame _ _ _ HF)|]. intros expr.
  eapply triple_conseq;
    [apply (reads_termLoop P HP) | intros ? HQ; exact HQ |].
  intros res c' H. cbv beta in H. unpack.
  split; [lia|]. split; [assumption|].
  match goal with H : forall s, _ -> _ -> Term res _ |- _ =>
    apply H; [lia|] end.
  now apply term_factor.
Qed.

Lemma reads_primary (fuel : nat) :
  reads tokens Primary (primary tokens fuel).
Proof.
  induction fuel as [|fuel IH]; intros start; cbn [primary];
    [apply triple_diverge|].
  pose proof (reads_dice _ IH) as HD. pose proof (reads_term _ IH) as HT.
  repeat triple_step anything.
  - eapply triple_conseq;
      [apply (triple_frame _ _ _ HD) | intros ? HQ; exact HQ |].
    intros res c' H. cbv beta in H. unpack. auto.
  - apply triple_ret; intros c H; cbv beta in H; unpack.
    split; [lia|]. split; [eapply nth_error_bound; eassumption|]. segments.
    apply primary_number; auto using includes_one.
  - apply triple_ret; intros c H; cbv beta in H; unpack.
    split; [lia|]. split; [eapply nth_error_bound; eassumption|]. segments.
    apply primary_dice, dice_single; auto using includes_one.
  - apply triple_ret; intros c H; cbv beta in H; unpack.
    split; [lia|]. split; [eapply nth_error_bound; eassumption|].
    match goal with
    | Ho : nth_error tokens ?s = Some ?o,
      Hc : nth_error tokens ?c = Some ?t, _ : type ?t = PAREN_CLOSE |- _ =>
        rewrite (segment_cons tokens s _ o) by (first [assumption | lia]);
        rewrite (segment_app tokens (S s) c) by
            (first [lia | apply Nat.lt_le_incl, nth_error_Some; congruence]);
        rewrite (segment_cons tokens c _ t) by (first [assumption | lia]);
        rewrite segment_nil
    end.
    apply primary_group; auto using includes_one.
Qed.

End Soundness.

(** X6.  The tree [parse] returns is a term of the grammar over the
    tokens it has read, a prefix of the list: [*] and [/] join primaries
    and [+] and [-] join factors, both from left to right, so that the
    right operand of [*] or [/] is never a sum or a product without
    parentheses; the token after the prefix decides the warning. *)
Theorem parse_follows_the_grammar (tokens : list Token) (ast : ASTNode)
        (warnings : list string) :
  parse tokens = Ok (ast, warnings) ->
  exists n t,
    Term ast (firstn n tokens)
    /\ nth_error tokens n = Some t
    /\ warnings = parseWarning t.
Proof.
  unfold parse. fold (topTerm tokens).
  match goal with |- context [?p 0] => destruct (p 0) as [[r c]| |] eqn:E end;
    intros H; inversion H; subst; clear H.
  apply bind_Ok in E as (a & c1 & E1 & E2).
  pose proof (reads_term tokens _ (reads_primary tokens (parseFuel tokens))
                0 0 eq_refl) as S.
  fold (topTerm tokens) in S. rewrite E1 in S. destruct S as (_ & _ & S).
  rewrite segment_from_zero in S.
  apply bind_Ok in E2 as (t & c2 & E2 & E3).
  apply peek_Ok in E2 as [E2 ->].
  exists c1, t. unfold parseWarning.
  destruct (TokenType_eqb (type t) EOF); inversion E3; subst; auto.
Qed.

Lemma parse_follows_the_grammar_witness :
  exists n t,
    Term (NumberNode 1) (firstn n oneTwoTokens)
    /\ nth_error oneTwoTokens n = Some t
    /\ ["Could not parse whole expression"] = parseWarning t.
Proof.
  apply (parse_follows_the_grammar oneTwoTokens (NumberNode 1) _ eq_refl).
Defined.

(* ================================================================== *)
(** * The errors of the parser *)

Section SyntaxErrors.

Variable tokens : list Token.
Variable last : nat.
Variable eof : Token.
Hypothesis Hlast : nth_error tokens last = Some eof.
Hypothesis Heof : type eof = EOF.
Hypothesis Htyped : Forall hasLiteral tokens.

(** The parser does not move past a token that is not [EOF]. *)
Lemma step_within (c : nat) (t : Token) :
  c <= last -> nth_error tokens c = Some t -> type t <> EOF -> S c <= last.
Proof.
  intros Hc Ht Hty. destruct (Nat.eq_dec c last) as [->|]; [|lia].
  exfalso. apply Hty. rewrite Hlast in Ht. inversion Ht; subst. exact Heof.
Qed.

Lemma within_defined (c : nat) :
  c <= last -> nth_error tokens c <> None.
Proof.
  intros Hc. apply nth_error_Some. apply nth_error_bound in Hlast. lia.
Qed.

Lemma literal_defined (c : nat) (t : Token) :
  nth_error tokens c = Some t -> type t = NUMBER -> literal t <> None.
Proof.
  intros Ht. apply nth_error_In in Ht.
  rewrite Forall_forall in Htyped. now apply Htyped.
Qed.

(** The positions known so far are before [last]. *)
Ltac bounds :=
  repeat match goal with
         | H : nth_error tokens ?c = Some ?t,
           H' : includes ?types (type ?t) = true |- _ =>
             lazymatch goal with
             | _ : S c <= last |- _ => fail
             | _ =>
                 assert (S c <= last)
                   by (apply (step_within c t); [lia | assumption |];
                       intros Hty; rewrite Hty in H'; discriminate H')
             end
         | H : nth_error tokens ?c = Some ?t, H' : type ?t = ?ty |- _ =>
             lazymatch goal with
             | _ : S c <= last |- _ => fail
             | _ =>
                 assert (S c <= last)
                   by (apply (step_within c t); [lia | assumption |];
                       rewrite H'; discriminate)
             end
         end.

Ltac side :=
  intros; cbv beta in *; unpack; bounds;
  solve
    [ lia
    | (* [peek] reads a token *)
      exfalso;
      match goal with H : nth_error tokens ?c = None |- _ =>
        apply (within_defined c); [lia | exact H] end
    | (* [previous] reads a token *)
      exfalso;
      match goal with H : _ \/ _ |- _ =>
        destruct H; simpl in *; [congruence | discriminate] end
    | (* a [NUMBER] token has a literal *)
      exfalso;
      match goal with
      | H : literal ?t = None, Ht : nth_error tokens _ = Some ?t |- _ =>
          apply (literal_defined _ t Ht);
          [first [assumption | apply includes_one; assumption] | exact H]
      end
    | (* the casts of the token types *)
      exfalso;
      match goal with
      | Hc : forall o, type ?t <> _, Hi : includes _ (type ?t) = true |- _ =>
          destruct (type t);
          try (vm_compute in Hi; discriminate Hi);
          exact (Hc _ eq_refl)
      end
    | (* the token is not the one that is expected *)
      match goal with
      | Ht : nth_error tokens _ = Some ?t,
        Hn : TokenType_eqb (type ?t) ?ty = false
        |- syntaxError _ (Error ("Expected " ++ _)) =>
          exists t; split; [exact (nth_error_In _ _ Ht)|];
          left; exists ty; split; [reflexivity|]; split; [|reflexivity];
          intros Heq; rewrite Heq in Hn; vm_compute in Hn; discriminate Hn
      end
    | (* a dice term has its [DICE] token *)
      exfalso; unfold diceStart in *; unpack;
      repeat match goal with H : _ \/ _ |- _ => destruct H end; unpack;
      repeat match goal with
             | H : option_map type (nth_error tokens ?c) = _,
               H' : nth_error tokens ?c = Some _ |- _ =>
                 rewrite H' in H; simpl in H; inversion H; clear H
             end;
      match goal with
      | H : type ?t = _, Hn : TokenType_eqb (type ?t) _ = false |- _ =>
          rewrite H in Hn; vm_compute in Hn; discriminate Hn
      | H : type ?t = _, Hn : includes _ (type ?t) = _ |- _ =>
          rewrite H in Hn; vm_compute in Hn; discriminate Hn
      end
    | (* no primary starts with the token *)
      match goal with
      | Ht : nth_error tokens _ = Some ?t
        |- syntaxError _ (Error ("Unexpected " ++ showTokenType (type ?t)
                                 ++ _)) =>
          exists t; split; [exact (nth_error_In _ _ Ht)|];
          right; split; [|reflexivity];
          destruct (type t) as [| | | | | |]; vm_compute in *; congruence
      end ].

Definition within {A} (p : Parser A) : Prop :=
  triple (fun c => c <= last) p (fun _ c => c <= last) (syntaxError tokens).

Lemma within_dice (P : Parser ASTNode) :
  within P ->
  triple (fun c => c <= last /\ diceStart tokens c) (dice tokens P)
         (fun _ c => c <= last) (syntaxError tokens).
Proof.
  intros HP. unfold within in HP. unfold dice.
  repeat triple_step side.
Qed.

Lemma within_factorLoop (P : Parser ASTNode) :
  within P -> forall fuel expr, within (factorLoop tokens P fuel expr).
Proof.
  intros HP fuel. unfold within in *.
  induction fuel as [|fuel IH]; intros expr; cbn [factorLoop];
    repeat triple_step side.
  eapply triple_conseq; [apply IH | side | intros ? ? HQ; exact HQ].
Qed.

Lemma within_factor (P : Parser ASTNode) :
  within P -> within (factor tokens P).
Proof.
  intros HP. pose proof (within_factorLoop P HP) as HL.
  unfold within in *. unfold factor. repeat triple_step side.
  eapply triple_conseq; [apply HL | side | intros ? ? HQ; exact HQ].
Qed.

Lemma within_termLoop (P : Parser ASTNode) :
  within P -> forall fuel expr, within (termLoop tokens P fuel expr).
Proof.
  intros HP fuel. pose proof (within_factor P HP) as HF.
  unfold within in *.
  induction fuel as [|fuel IH]; intros expr; cbn [termLoop];
    repeat triple_step side.
  eapply triple_conseq; [apply IH | side | intros ? ? HQ; exact HQ].
Qed.

Lemma within_term (P : Parser ASTNode) :
  within P -> within (term tokens P).
Proof.
  intros HP. pose proof (within_factor P HP) as HF.
  pose proof (within_termLoop P HP) as HL.
  unfold within in *. unfold term. repeat triple_step side.
  eapply triple_conseq; [apply HL | side | intros ? ? HQ; exact HQ].
Qed.

Lemma within_primary (fuel : nat) : within (primary tokens fuel).
Proof.
  induction fuel as [|fuel IH]; cbn [primary]; [apply triple_diverge|].
  pose proof (within_dice _ IH) as HD. pose proof (within_term _ IH) as HT.
  unfold within in *.
  repeat triple_step side.
  eapply triple_conseq; [exact HD | | intros ? ? HQ; exact HQ].
  intros c H. cbv beta in H. unpack. split; [assumption|].
  exists a. split; [assumption|].
  apply orb_true_iff in Heqb as [Hd|Hn].
  - left. now apply TokenType_eqb_eq.
  - right. apply andb_true_iff in Hn as [Hn Hd].
    apply TokenType_eqb_eq in Hn. split; [assumption|].
    destruct (option_map type (nth_error tokens (S c))) as [t|];
      [|discriminate].
    apply TokenType_eqb_eq in Hd. now subst.
Qed.

(** On a list of tokens with an [EOF] token, [parse] reads no token
    after it, and throws nothing but its two errors. *)
Lemma parse_throws_within (e : Exception) :
  parse tokens = Throw e -> syntaxError tokens e.
Proof.
  unfold parse. fold (topTerm tokens).
  pose proof (within_term _ (within_primary (parseFuel tokens))) as HT.
  fold (topTerm tokens) in HT. unfold within in HT.
  match goal with |- context [?p 0] =>
    assert (Hp : triple (fun c => c <= last) p (fun _ c => c <= last)
                        (syntaxError tokens))
      by (repeat triple_step side);
    specialize (Hp 0 (Nat.le_0_l _));
    destruct (p 0) as [[r c]| |]
  end; intros H; inversion H; subst. exact Hp.
Qed.

End SyntaxErrors.

Lemma lex_hasLiteral (expression : string) (tokens : list Token) :
  lex expression = Ok tokens -> Forall hasLiteral tokens.
Proof.
  unfold lex. rewrite lexRun_lexFrom.
  pose proof (lexTokens_shapes expression) as HI.
  destruct (lexErrors _); intros H; inversion H; subst.
  unfold push. apply Forall_app. split.
  - eapply Forall_impl; [|exact HI].
    intros t Ht Hty. unfold tokenShape in Ht. rewrite Hty in Ht.
    destruct Ht as (_ & _ & -> & _). discriminate.
  - constructor; [discriminate | constructor].
Qed.

Lemma lex_ends_with_EOF (expression : string) (tokens : list Token) :
  lex expression = Ok tokens ->
  exists last eof, nth_error tokens last = Some eof /\ type eof = EOF.
Proof.
  intros H. apply lex_offsets in H as [_ [front ->]].
  exists (List.length front), (baseToken EOF "" (String.length expression)).
  split; [|reflexivity]. unfold push.
  rewrite nth_error_app2, Nat.sub_diag by lia. reflexivity.
Qed.

(** X7.  On the tokens of [lex], [parse] throws nothing but an [Error]
    about a token of the list, with the offset of that token in the
    message: the token is not the [NUMBER] or the [PAREN_CLOSE] that is
    expected there, or it is a token that starts no primary.  It reads no
    token after [EOF], so that no property of a missing token is read,
    and [DICE] is never what is missing. *)
Theorem parse_throws_syntax_errors (expression : string)
        (tokens : list Token) (e : Exception) :
  lex expression = Ok tokens -> parse tokens = Throw e ->
  syntaxError tokens e.
Proof.
  intros Hl. destruct (lex_ends_with_EOF _ _ Hl) as (last & eof & H1 & H2).
  apply (parse_throws_within tokens last eof H1 H2 (lex_hasLiteral _ _ Hl)).
Qed.

Lemma parse_throws_syntax_errors_witness :
  syntaxError
    [ baseToken PAREN_OPEN "(" 0; mkToken NUMBER "1" 1 (Some 1%N);
      baseToken PLUS "+" 3; mkToken NUMBER "2" 5 (Some 2%N);
      baseToken EOF "" 6 ]
    (Error "Expected PAREN_CLOSE at offset 6").
Proof.
  apply (parse_throws_syntax_errors "(1 + 2" _ _ eq_refl eq_refl).
Defined.

(* ================================================================== *)
(** * The outcomes of the evaluation *)

Section EvaluatorOutcomes.

Variable St : Type.
Variable random : Random St.
Variable numberToString : number -> string.

Lemma evaluateDice_outcome (d : DiceNode) (s : St) :
  match evaluateDice St random numberToString d s with
  | Ok (r, _) => (numDice d <=? maxArrayLength)%N = true /\ rolls r <> None
  | Throw e => e = RangeError /\ (numDice d <=? maxArrayLength)%N = false
  | Diverge => False
  end.
Proof.
  destruct (numDice d <=? maxArrayLength)%N eqn:V.
  - destruct (evaluateDice_Ok St random numberToString d s V)
      as (xs & s' & _ & _ & ->).
    split; [reflexivity | discriminate].
  - unfold evaluateDice. rewrite V. split; reflexivity.
Qed.

Lemma evaluate_outcome (ast : ASTNode) (s : St) :
  match evaluate St random numberToString ast s with
  | Ok _ => validLengths ast = true
  | Throw e => e = RangeError /\ validLengths ast = false
  | Diverge => False
  end.
Proof.
  revert s. induction ast as [v|d|l IHl o r IHr|d o r IHr|e IHe]; intros s;
    cbn [evaluate validLengths].
  - reflexivity.
  - pose proof (evaluateDice_outcome d s) as H.
    destruct (evaluateDice St random numberToString d s) as [[a s1]| |];
      tauto.
  - unfold bind. specialize (IHl s).
    destruct (evaluate St random numberToString l s) as [[a s1]| |];
      [|destruct IHl as [-> ->]; auto|assumption].
    specialize (IHr s1). rewrite IHl.
    destruct (evaluate St random numberToString r s1) as [[b s2]| |];
      assumption.
  - unfold bind. pose proof (evaluateDice_outcome d s) as H.
    destruct (evaluateDice St random numberToString d s) as [[a s1]| |];
      [|destruct H as [-> ->]; auto|assumption].
    destruct H as [-> Hx]. specialize (IHr s1).
    destruct (evaluate St random numberToString r s1) as [[b s2]| |];
      try assumption.
    destruct (rolls a); [destruct o; exact IHr | congruence].
  - unfold bind. specialize (IHe s).
    destruct (evaluate St random numberToString e s) as [[a s1]| |];
      assumption.
Qed.

End EvaluatorOutcomes.

(** X8.  [evaluate] returns a result exactly for the trees whose dice
    counts are lengths an array can have (at most 2^32 - 1), whatever the
    numbers are: a division by zero, a keep count that is no count and a
    randomness source that returns anything throw nothing.  For the
    other trees it throws the [RangeError] of [Array.from], and it throws
    nothing else. *)
Theorem evaluate_throws_only_RangeError :
  forall (St : Type) (random : Random St) (numberToString : number -> string)
         (ast : ASTNode) (s : St),
    (validLengths ast = true
     <-> exists r s', evaluate St random numberToString ast s = Ok (r, s'))
    /\ (validLengths ast = false
        <-> evaluate St random numberToString ast s = Throw RangeError)
    /\ forall e, evaluate St random numberToString ast s = Throw e ->
                 e = RangeError.
Proof.
  intros St random nts ast s.
  pose proof (evaluate_outcome St random nts ast s) as H.
  destruct (evaluate St random nts ast s) as [[r s']|e|].
  - rewrite H. repeat split; eauto; discriminate.
  - destruct H as [-> H]. rewrite H. split; [|split].
    + split; [discriminate | intros (r & s' & E); discriminate].
    + split; reflexivity.
    + congruence.
  - contradiction.
Qed.


(** ** The calls of the randomness source, in order *)

Section Recording.

Variable St : Type.
Variable random : Random St.
Variable numberToString : number -> string.

Lemma arrayFrom_recording (n : nat) (max : number) (s : St)
      (log : list number) :
  exists xs s',
    arrayFrom St n (callRandom St random max) s = Ok (xs, s')
    /\ arrayFrom (St * list number) n
         (callRandom (St * list number) (recording random) max) (s, log)
       = Ok (xs, (s', (log ++ repeat max n)%list)).
Proof.
  revert s log. induction n as [|n IH]; intros s log; cbn [arrayFrom repeat].
  - exists [], s. unfold ret. now rewrite app_nil_r.
  - unfold bind at 1 3. unfold callRandom at 1 3. unfold recording at 1.
    cbn [fst snd]. destruct (random max s) as [x s1].
    destruct (IH s1 (log ++ [max])%list) as (xs & s' & E1 & E2).
    unfold bind at 1 2. rewrite E1, E2. exists (x :: xs), s'. unfold ret.
    rewrite <- app_assoc. auto.
Qed.

Lemma evaluateDice_recording (d : DiceNode) (s : St) (log : list number) :
  (numDice d <=? maxArrayLength)%N = true ->
  exists r s',
    evaluateDice St random numberToString d s = Ok (r, s')
    /\ evaluateDice (St * list number) (recording random) numberToString d
         (s, log)
       = Ok (r, (s', (log ++ requests (Dice d))%list)).
Proof.
  intros H. unfold evaluateDice. rewrite H.
  destruct (arrayFrom_recording (N.to_nat (numDice d)) (ofN (numSides d))
              s log) as (xs & s' & E1 & E2).
  unfold bind. rewrite E1, E2. unfold ret. eauto.
Qed.

End Recording.

(** X10.  The evaluation of a tree calls the randomness source once for
    each die, with the sides count of the die for argument, the dice
    terms in the order in which they are written, from left to right;
    numbers, operators, keep modifiers and parentheses make no call. *)
Theorem evaluate_calls_in_order :
  forall (St : Type) (random : Random St) (numberToString : number -> string)
         (ast : ASTNode) (s : St) (log : list number),
    validLengths ast = true ->
    exists r s',
      evaluate St random numberToString ast s = Ok (r, s')
      /\ evaluate (St * list number) (recording random) numberToString ast
           (s, log)
         = Ok (r, (s', (log ++ requests ast)%list)).
Proof.
  intros St random numberToString ast.
  induction ast as [v|d|l IHl o r IHr|d o r IHr|e IHe]; intros s log V;
    cbn [evaluate requests validLengths] in *.
  - unfold ret. rewrite app_nil_r. eauto.
  - now apply evaluateDice_recording.
  - apply andb_true_iff in V as [Vl Vr].
    destruct (IHl s log Vl) as (a & s1 & E1 & E1').
    destruct (IHr s1 (log ++ requests l)%list Vr) as (b & s2 & E2 & E2').
    unfold bind. rewrite E1, E1', E2, E2'. unfold ret.
    rewrite <- app_assoc. eauto.
  - apply andb_true_iff in V as [Vl Vr].
    destruct (evaluateDice_recording St random numberToString d s log Vl) as (a & s1 & E1 & E1').
    cbn [requests] in E1'.
    destruct (IHr s1 (log ++ repeat (ofN (numSides d))
                                   (N.to_nat (numDice d)))%list Vr)
      as (b & s2 & E2 & E2').
    destruct (evaluateDice_rolls _ _ _ _ _ _ _ E1) as (xs & Hx & _).
    unfold bind. rewrite E1, E1', E2, E2', Hx. rewrite <- app_assoc.
    destruct o; unfold ret; eauto.
  - destruct (IHe s log V) as (a & s1 & E1 & E1').
    unfold bind. rewrite E1, E1'. unfold ret. eauto.
Qed.


Lemma evaluate_calls_in_order_witness :
  exists r s',
    evaluate (list number) sequence showNumber
      (BinaryOpNode (Dice (mkDice 2 6)) PLUS (Dice (mkDice 1 8)))
      [ofN 1; ofN 2; ofN 5] = Ok (r, s')
    /\ evaluate (list number * list number) (recording sequence) showNumber
         (BinaryOpNode (Dice (mkDice 2 6)) PLUS (Dice (mkDice 1 8)))
         ([ofN 1; ofN 2; ofN 5], [])
       = Ok (r, (s', [ofN 6; ofN 6; ofN 8])).
Proof.
  apply (evaluate_calls_in_order (list number) sequence showNumber
           (BinaryOpNode (Dice (mkDice 2 6)) PLUS (Dice (mkDice 1 8)))
           [ofN 1; ofN 2; ofN 5] []).
  reflexivity.
Defined.

(* ================================================================== *)
(** * Dice and their sides *)

Lemma add_ofN (a b : N) : add (ofN a) (ofN b) = ofN (a + b).
Proof.
  unfold ofN. cbn [add]. f_equal. apply Qred_inject_Z.
  rewrite N2Z.inj_add, inject_Z_plus. reflexivity.
Qed.

Lemma sum_ofN (ks : list N) : sum (map ofN ks) = ofN (total ks).
Proof.
  unfold sum. change (Num 0%Q) with (ofN 0).
  replace (total ks) with (0 + total ks)%N by lia.
  generalize 0%N. induction ks as [|k ks IH]; intros a;
    cbn [map fold_left].
  - f_equal. cbn [total fold_right]. lia.
  - rewrite add_ofN, IH. f_equal.
    change (total (k :: ks)) with (k + total ks)%N. lia.
Qed.

Lemma total_bounds (n : N) (ks : list N) :
  Forall (fun k => (1 <= k <= n)%N) ks ->
  (N.of_nat (List.length ks) <= total ks
   <= N.of_nat (List.length ks) * n)%N.
Proof.
  induction 1 as [|k ks Hk _ IH]; cbn [List.length].
  - cbn [total fold_right]. lia.
  - change (total (k :: ks)) with (k + total ks)%N. lia.
Qed.

Section Fairness.

Variable St : Type.
Variable I : St -> Prop.
Variable random : Random St.
Variable numberToString : number -> string.
Hypothesis Hfair : fair I random.

Lemma arrayFrom_fair (n : N) (m : nat) (s : St) :
  I s -> (0 < n)%N ->
  exists ks s',
    arrayFrom St m (callRandom St random (ofN n)) s = Ok (map ofN ks, s')
    /\ I s' /\ List.length ks = m
    /\ Forall (fun k => (1 <= k <= n)%N) ks.
Proof.
  intros Hs Hn. revert s Hs. induction m as [|m IH]; intros s Hs;
    cbn [arrayFrom].
  - exists [], s. repeat split; auto.
  - unfold bind at 1. unfold callRandom at 1.
    destruct (Hfair n s Hs Hn) as (Hs1 & k & Hk & Hr).
    destruct (random (ofN n) s) as [x s1]. cbn [fst snd] in *. subst x.
    destruct (IH s1 Hs1) as (ks & s' & E & Hs' & Hl & Hf).
    unfold bind at 1. rewrite E. exists (k :: ks), s'. unfold ret.
    repeat split; simpl; auto.
Qed.

Lemma evaluateDice_fair (d : DiceNode) (s : St) :
  I s -> (numDice d <= maxArrayLength)%N -> (0 < numSides d)%N ->
  exists ks s',
    evaluateDice St random numberToString d s
    = Ok (mkResult (ofN (total ks)) (Some (map ofN ks))
            ("[" ++ join " + " (map numberToString (map ofN ks)) ++ "]"),
          s')
    /\ I s'
    /\ List.length ks = N.to_nat (numDice d)
    /\ Forall (fun k => (1 <= k <= numSides d)%N) ks
    /\ (numDice d <= total ks <= numDice d * numSides d)%N.
Proof.
  intros Hs Hd Hn. unfold evaluateDice.
  apply N.leb_le in Hd. rewrite Hd.
  destruct (arrayFrom_fair (numSides d) (N.to_nat (numDice d)) s Hs Hn)
    as (ks & s' & E & Hs' & Hl & Hf).
  unfold bind. rewrite E. unfold ret. rewrite sum_ofN.
  exists ks, s'. repeat split; auto;
    pose proof (total_bounds _ _ Hf) as B; rewrite Hl, N2Nat.id in B; lia.
Qed.

End Fairness.



(** ** The default randomness source *)

Lemma defaultRandom_value (u0 : Q) (n : N) :
  (0 <= u0)%Q -> (u0 < 1)%Q -> (0 < n)%N ->
  exists k,
    add (ofN 1) (floor (mul (Num u0) (ofN n))) = ofN k /\ (1 <= k <= n)%N.
Proof.
  intros H0 H1 Hn. unfold ofN at 2. cbn [mul floor].
  set (f := Qfloor (Qred (u0 * inject_Z (Z.of_N n)))).
  assert (Hn' : (0 < inject_Z (Z.of_N n))%Q)
    by (rewrite <- (Zlt_Qlt 0); lia).
  assert (Hf : (0 <= f < Z.of_N n)%Z).
  { unfold f. rewrite Qred_correct. split.
    - change 0%Z with (Qfloor 0). apply Qfloor_resp_le.
      apply Qmult_le_0_compat; [assumption | now apply Qlt_le_weak].
    - rewrite Zlt_Qlt. eapply Qle_lt_trans; [apply Qfloor_le|].
      rewrite <- (Qmult_1_l (inject_Z (Z.of_N n))) at 2.
      now apply Qmult_lt_compat_r. }
  exists (Z.to_N (1 + f)). split; [|lia].
  unfold ofN. cbn [add]. f_equal. rewrite Z2N.id by lia.
  apply Qred_inject_Z. rewrite inject_Z_plus. reflexivity.
Qed.

Lemma defaultRandom_fair : fair unitInterval defaultRandom.
Proof.
  intros n u Hu Hn. unfold defaultRandom. cbn [fst snd]. split.
  - intros i. apply Hu.
  - destruct (Hu 0) as [H0 H1]. now apply defaultRandom_value.
Qed.




(* ================================================================== *)
(** * Further properties of the keep modifiers *)

(** ** Sums *)

Lemma add_zero_absorb (c x : number) :
  add c (add (Num 0%Q) x) = add c x.
Proof.
  destruct c, x; cbn [add]; try reflexivity.
  f_equal. apply Qred_complete. rewrite Qred_correct.
  now rewrite Qplus_0_l.
Qed.

Lemma fold_left_add_shift (b : list number) (c x : number) :
  fold_left add b (add c x)
  = add c (fold_left add b (add (Num 0%Q) x)).
Proof.
  revert c x. induction b as [|y b IH]; intros c x; cbn [fold_left].
  - now rewrite add_zero_absorb.
  - rewrite add_assoc, IH. f_equal. now rewrite add_assoc.
Qed.

Lemma add_add_zero (a b : number) :
  add (add a b) (Num 0%Q) = add a b.
Proof.
  destruct a, b; cbn [add]; try reflexivity.
  f_equal. apply Qred_complete. rewrite Qred_correct.
  now rewrite Qplus_0_r.
Qed.

Lemma add_sum_zero (l : list number) :
  add (sum l) (Num 0%Q) = sum l.
Proof.
  unfold sum. destruct l as [|x l]; [reflexivity|]. cbn [fold_left].
  rewrite fold_left_add_shift. apply add_add_zero.
Qed.

Lemma sum_app (a b : list number) :
  sum (a ++ b) = add (sum a) (sum b).
Proof.
  unfold sum at 1. rewrite fold_left_app. fold (sum a).
  destruct b as [|x b]; cbn [fold_left].
  - symmetry. apply add_sum_zero.
  - unfold sum at 2. cbn [fold_left]. apply fold_left_add_shift.
Qed.

Lemma ofN_count (k : N) :
  (inject_Z (Z.of_N k) == inject_Z (Z.of_nat (N.to_nat k)))%Q.
Proof. now rewrite N_nat_Z. Qed.

Lemma total_app (a b : list N) : total (a ++ b) = (total a + total b)%N.
Proof.
  induction a as [|x a IH]; cbn [app]; [reflexivity|].
  change (total (x :: a ++ b)) with (x + total (a ++ b))%N.
  change (total (x :: a)) with (x + total a)%N. lia.
Qed.

Lemma total_perm (a b : list N) : Permutation a b -> total a = total b.
Proof.
  induction 1 as [|x a b _ IH|x y a|a b c _ IH1 _ IH2];
    unfold total in *; cbn [fold_right]; lia.
Qed.

(** X13.  Of the rolls of a dice term, the [k] highest and the others,
    which are the lowest, make the whole.  With a randomness source that
    returns whole numbers from 1 to its argument and a dice term whose
    rolls cannot add up to more than 2^53, the results of the dice term,
    of [kh k] and of [kl (n - k)] on the same rolls, for a keep count [k]
    from 1 to the dice count [n], are whole numbers, and the last two add
    up to the first. *)
Theorem keep_highest_and_lowest_split_the_rolls :
  forall (St : Type) (I : St -> Prop) (random : Random St)
         (numberToString : number -> string)
         (d : DiceNode) (k : N) (s : St),
    fair I random -> I s ->
    (numDice d <= maxArrayLength)%N -> (0 < numSides d)%N ->
    (numDice d * numSides d <= 2 ^ 53)%N ->
    (1 <= k <= numDice d)%N ->
    exists (a h l : N) (all high low : Result) (s' : St),
      evaluate St random numberToString (Dice d) s = Ok (all, s')
      /\ evaluate St random numberToString
           (DiceModifierNode d KEEP_HIGHEST (NumberNode k)) s
         = Ok (high, s')
      /\ evaluate St random numberToString
           (DiceModifierNode d KEEP_LOWEST (NumberNode (numDice d - k))) s
         = Ok (low, s')
      /\ result all = ofN a /\ result high = ofN h /\ result low = ofN l
      /\ (h + l = a)%N /\ (a <= 2 ^ 53)%N.
Proof.
  intros St I random nts d k s Hfair Hs Hd Hn Hbound Hk.
  destruct (evaluateDice_fair St I random nts Hfair d s Hs Hd Hn)
    as (ks & s' & E & _ & Hl & _ & Hb).
  assert (En : forall v, evaluate St random nts (NumberNode v) s'
                         = Ok (mkResult (ofN v) None (nts (ofN v)), s'))
    by reflexivity.
  destruct (Permutation_map_inv ofN ks (toSorted_perm (map ofN ks)))
    as (ks' & Es & Hp).
  assert (Hl' : List.length ks' = N.to_nat (numDice d)).
  { rewrite <- Hl. symmetry. now apply Permutation_length. }
  exists (total ks),
         (total (skipn (N.to_nat (numDice d) - N.to_nat k) ks')),
         (total (firstn (N.to_nat (numDice d) - N.to_nat k) ks')).
  do 3 eexists. exists s'. split; [exact E|].
  rewrite (evaluate_modifier St random nts d KEEP_HIGHEST _ s s' s' _ _
             (map ofN ks) E (En k) eq_refl).
  rewrite (evaluate_modifier St random nts d KEEP_LOWEST _ s s' s' _ _
             (map ofN ks) E (En (numDice d - k)%N) eq_refl).
  split; [reflexivity|]. split; [reflexivity|]. cbn [result].
  split; [reflexivity|].
  change (ofN k) with (Num (inject_Z (Z.of_N k))).
  change (ofN (numDice d - k))
    with (Num (inject_Z (Z.of_N (numDice d - k)))).
  rewrite (sliceFrom_neg_count _ _ (N.to_nat k) (ofN_count k)) by lia.
  rewrite (sliceRange_count _ _ (N.to_nat (numDice d - k)) (ofN_count _)).
  unfold lastn. rewrite Es, length_map, Hl'.
  replace (N.to_nat (numDice d - k))
    with (N.to_nat (numDice d) - N.to_nat k) by lia.
  rewrite skipn_map, firstn_map, !sum_ofN.
  split; [reflexivity|]. split; [reflexivity|]. split; [|lia].
  rewrite N.add_comm, <- total_app, firstn_skipn.
  symmetry. now apply total_perm.
Qed.

Lemma keep_highest_and_lowest_split_the_rolls_witness :
  exists (a h l : N) (all high low : Result) (s' : unit),
    evaluate unit (fixed (ofN 1)) showNumber (Dice (mkDice 3 6)) tt
    = Ok (all, s')
    /\ evaluate unit (fixed (ofN 1)) showNumber
         (DiceModifierNode (mkDice 3 6) KEEP_HIGHEST (NumberNode 1)) tt
       = Ok (high, s')
    /\ evaluate unit (fixed (ofN 1)) showNumber
         (DiceModifierNode (mkDice 3 6) KEEP_LOWEST (NumberNode (3 - 1))) tt
       = Ok (low, s')
    /\ result all = ofN a /\ result high = ofN h /\ result low = ofN l
    /\ (h + l = a)%N /\ (a <= 2 ^ 53)%N.
Proof.
  apply (keep_highest_and_lowest_split_the_rolls unit (fun _ => True)
           (fixed (ofN 1)) showNumber (mkDice 3 6) 1 tt).
  - intros n s _ Hn. split; [exact I|]. exists 1%N. split; [reflexivity|lia].
  - exact I.
  - vm_compute. discriminate.
  - reflexivity.
  - vm_compute. discriminate.
  - cbn [numDice]. lia.
Defined.

(** ** The highest and the lowest roll *)

Lemma numLe_trans (x y z : number) : numLe x y -> numLe y z -> numLe x z.
Proof.
  destruct x, y, z; simpl; try tauto. apply Qle_trans.
Qed.

Lemma numLe_refl (x : number) : isFinite x -> numLe x x.
Proof. intros [q ->]. simpl. apply Qle_refl. Qed.

Lemma sum_one (x : number) :
  isFinite x -> numEq (sum [x]) x.
Proof.
  intros [q ->]. unfold sum, numEq. cbn [fold_left add numLe].
  rewrite Qred_correct, Qplus_0_l. split; apply Qle_refl.
Qed.

Lemma sorted_first (x : number) (l : list number) :
  Sorted numLe (x :: l) -> Forall (numLe x) l.
Proof.
  intros H. apply Sorted_StronglySorted in H.
  - now inversion H.
  - intros a b c. apply numLe_trans.
Qed.

Lemma sorted_last (l : list number) (m : number) :
  Sorted numLe (l ++ [m]) -> Forall (fun y => numLe y m) l.
Proof.
  induction l as [|a l IH]; intros H; [constructor|].
  cbn [app] in H. constructor.
  - apply sorted_first in H. rewrite Forall_app in H.
    destruct H as [_ H]. now inversion H.
  - apply IH. now inversion H.
Qed.

Lemma lastn_one {A} (l : list A) (m : A) : lastn 1 (l ++ [m]) = [m].
Proof.
  unfold lastn. rewrite length_app. cbn [List.length].
  replace (List.length l + 1 - 1) with (List.length l) by lia.
  rewrite skipn_app, Nat.sub_diag, skipn_all. reflexivity.
Qed.

(** X14.  With the keep count 1, [kh] gives the highest and [kl] the
    lowest of the rolls of the dice term, when the rolls are finite
    numbers and there is at least one: the result is one of the rolls,
    and no roll is above it, or below it. *)
Theorem keep_one_is_the_highest_or_the_lowest :
  forall (St : Type) (random : Random St) (numberToString : number -> string)
         (d : DiceNode) (s s' : St) (all : Result) (xs : list number),
    evaluate St random numberToString (Dice d) s = Ok (all, s') ->
    rolls all = Some xs -> xs <> [] -> Forall isFinite xs ->
    exists high low,
      evaluate St random numberToString
        (DiceModifierNode d KEEP_HIGHEST (NumberNode 1)) s = Ok (high, s')
      /\ evaluate St random numberToString
           (DiceModifierNode d KEEP_LOWEST (NumberNode 1)) s = Ok (low, s')
      /\ (exists x, In x xs /\ numEq (result high) x)
      /\ Forall (fun y => numLe y (result high)) xs
      /\ (exists x, In x xs /\ numEq (result low) x)
      /\ Forall (fun y => numLe (result low) y) xs.
Proof.
  intros St random nts d s s' all xs E Hx Hne Hfin. cbn [evaluate] in E.
  assert (En : evaluate St random nts (NumberNode 1) s'
               = Ok (mkResult (ofN 1) None (nts (ofN 1)), s'))
    by reflexivity.
  do 2 eexists.
  rewrite (evaluate_modifier St random nts d KEEP_HIGHEST _ s s' s' _ _ xs
             E En Hx).
  rewrite (evaluate_modifier St random nts d KEEP_LOWEST _ s s' s' _ _ xs
             E En Hx).
  split; [reflexivity|]. split; [reflexivity|]. cbn [result]. unfold ofN.
  rewrite (sliceFrom_neg_count _ _ 1 (ofN_count 1)) by lia.
  rewrite (sliceRange_count _ _ 1 (ofN_count 1)).
  pose proof (toSorted_perm xs) as Hp.
  pose proof (toSorted_sorted xs Hfin) as Hs.
  assert (Hfin' : Forall isFinite (toSorted xs))
    by (eapply Permutation_Forall; [symmetry; exact Hp | exact Hfin]).
  assert (Hne' : toSorted xs <> [])
    by (intros H0; rewrite H0 in Hp; apply Permutation_nil in Hp;
        contradiction).
  split; [|split; [|split]].
  - destruct (exists_last Hne') as (l & m & El). rewrite El, lastn_one.
    exists m. split.
    + apply (Permutation_in _ Hp). rewrite El. apply in_or_app. right.
      now left.
    + apply sum_one. rewrite El, Forall_app in Hfin'.
      destruct Hfin' as [_ H]. now inversion H.
  - destruct (exists_last Hne') as (l & m & El).
    eapply Permutation_Forall; [exact Hp|]. rewrite El, lastn_one.
    rewrite El in Hs, Hfin'. apply Forall_app in Hfin' as [_ Hm].
    inversion Hm as [|? ? Hm' _]; subst.
    destruct (sum_one m Hm') as [H1 H2].
    apply Forall_app. split.
    + eapply Forall_impl; [|exact (sorted_last _ _ Hs)].
      intros y Hy. exact (numLe_trans _ _ _ Hy H2).
    + constructor; [assumption | constructor].
  - destruct (toSorted xs) as [|m l] eqn:El; [contradiction|].
    cbn [firstn]. exists m. split.
    + apply (Permutation_in _ Hp). now left.
    + apply sum_one. now inversion Hfin'.
  - destruct (toSorted xs) as [|m l] eqn:El; [contradiction|].
    cbn [firstn]. eapply Permutation_Forall; [exact Hp|].
    inversion Hfin' as [|? ? Hm' _]; subst.
    destruct (sum_one m Hm') as [H1 H2].
    constructor; [assumption|].
    eapply Forall_impl; [|exact (sorted_first _ _ Hs)].
    intros y Hy. exact (numLe_trans _ _ _ H1 Hy).
Qed.

Lemma keep_one_is_the_highest_or_the_lowest_witness :
  exists high low,
    evaluate (list number) sequence showNumber
      (DiceModifierNode (mkDice 2 20) KEEP_HIGHEST (NumberNode 1))
      [ofN 8; ofN 15] = Ok (high, [])
    /\ evaluate (list number) sequence showNumber
         (DiceModifierNode (mkDice 2 20) KEEP_LOWEST (NumberNode 1))
         [ofN 8; ofN 15] = Ok (low, [])
    /\ (exists x, In x [ofN 8; ofN 15] /\ numEq (result high) x)
    /\ Forall (fun y => numLe y (result high)) [ofN 8; ofN 15]
    /\ (exists x, In x [ofN 8; ofN 15] /\ numEq (result low) x)
    /\ Forall (fun y => numLe (result low) y) [ofN 8; ofN 15].
Proof.
  apply (keep_one_is_the_highest_or_the_lowest (list number) sequence
           showNumber (mkDice 2 20) [ofN 8; ofN 15] []
           (mkResult (Num 23) (Some [ofN 8; ofN 15]) "[8 + 15]")
           [ofN 8; ofN 15]).
  - reflexivity.
  - reflexivity.
  - discriminate.
  - repeat constructor; eexists; reflexivity.
Defined.

(** ** Keep counts that are no counts *)











(** The count [-1] drops one roll, the count [3 / 2] keeps one. *)
Example roll_keep_counts :
  rollSeq "3d6kh(0-1)" [ofN 1; ofN 2; ofN 5]
  = Ok (mkResult (Num 7) None "[1 + 2 + 5]kh(0 - 1)", [])
  /\ rollSeq "3d6kl(0-1)" [ofN 1; ofN 2; ofN 5]
     = Ok (mkResult (Num 3) None "[1 + 2 + 5]kl(0 - 1)", [])
  /\ rollSeq "3d6kh(3/2)" [ofN 1; ofN 2; ofN 5]
     = Ok (mkResult (Num 5) None "[1 + 2 + 5]kh(3 / 2)", []).
Proof. repeat split; reflexivity. Qed.

(* ================================================================== *)
(** * Further properties of the facade *)

(** X16.  A [maxRolls] that is [NaN] is no limit, as 0 is; a negative
    [maxRolls] is a limit that every expression exceeds, the expressions
    without dice too: [roll] throws [TooManyDiceError] with the count of
    [countRolls] for every expression that [parse] accepts. *)
Theorem maxRolls_NaN_is_no_limit_and_negative_rejects :
  forall (St : Type) (random : Random St) (numberToString : number -> string)
         (expression : string) (s : St),
    roll St random numberToString expression (Some NaN) s
    = roll St random numberToString expression None s
    /\ forall limit ast,
        isNegative limit -> parseExpression expression = Ok ast ->
        roll St random numberToString expression (Some limit) s
        = Throw (TooManyDiceError (countRolls ast)).
Proof.
  intros St random nts expression s. split; [reflexivity|].
  intros limit ast Hneg Ep.
  rewrite (roll_parseExpression _ _ _ _ _ _ _ Ep).
  unfold bind, checkLimit.
  assert (Hc : (0 <= inject_Z (Z.of_N (countRolls ast)))%Q)
    by (rewrite <- (Zle_Qle 0); lia).
  destruct limit as [q| | |]; simpl in Hneg; try contradiction.
  - assert (Ht : truthy (Num q) = true).
    { simpl. destruct (Qeq_bool q 0) eqn:E; [|reflexivity].
      apply Qeq_bool_eq in E. rewrite E in Hneg.
      now apply Qlt_irrefl in Hneg. }
    rewrite Ht. unfold ofN. cbn [gt].
    assert (Hg : (q < inject_Z (Z.of_N (countRolls ast)))%Q)
      by (eapply Qlt_le_trans; eassumption).
    apply Qgt_alt in Hg. rewrite Hg. reflexivity.
  - reflexivity.
Qed.

Lemma isDigits_spec (s : string) :
  isDigits s = true -> (s =? "")%string = false /\ allOf isDigit s = true.
Proof.
  unfold isDigits. intros H. apply andb_true_iff in H as [H1 H2].
  apply negb_true_iff in H1. auto.
Qed.

(** X17.  A dice term is read as it is written: ["NdS"] is the dice term
    with the count [N] and the sides count [S], read in base ten;
    ["NdSkhK"] and ["NdSklK"] are that dice term with the modifier and
    the count [K]; and the letters [h] and [l] alone stand for [kh] and
    [kl]. *)
Theorem dice_terms_are_read_as_written :
  forall (count sides keep : string) (m : DiceModifierType),
    isDigits count = true -> isDigits sides = true -> isDigits keep = true ->
    let d := mkDice (parseInt count) (parseInt sides) in
    parseExpression (count ++ "d" ++ sides) = Ok (Dice d)
    /\ parseExpression (count ++ "d" ++ sides ++ "k" ++ modifierLetter m
                        ++ keep)
       = Ok (DiceModifierNode d m (NumberNode (parseInt keep)))
    /\ parseExpression (count ++ "d" ++ sides ++ modifierLetter m ++ keep)
       = Ok (DiceModifierNode d m (NumberNode (parseInt keep))).
Proof.
  intros count sides keep m Hc Hs Hk d.
  apply isDigits_spec in Hc as [Hc1 Hc2].
  apply isDigits_spec in Hs as [Hs1 Hs2].
  apply isDigits_spec in Hk as [Hk1 Hk2].
  unfold parseExpression. split; [|split].
  - replace (count ++ "d" ++ sides)
      with ("" ++ spell [(LNumber count, ""); (LDice, "");
                         (LNumber sides, "")])
      by (cbn; now rewrite append_empty_r).
    rewrite lex_spelled; [reflexivity | reflexivity |].
    cbn [wellSpelled]. now rewrite Hc1, Hc2, Hs1, Hs2.
  - replace (count ++ "d" ++ sides ++ "k" ++ modifierLetter m ++ keep)
      with ("" ++ spell [(LNumber count, ""); (LDice, "");
                         (LNumber sides, ""); (LKeepPair m, "");
                         (LNumber keep, "")])
      by (destruct m; cbn; now rewrite append_empty_r).
    rewrite lex_spelled; [destruct m; reflexivity | reflexivity |].
    cbn [wellSpelled]. now rewrite Hc1, Hc2, Hs1, Hs2, Hk1, Hk2.
  - replace (count ++ "d" ++ sides ++ modifierLetter m ++ keep)
      with ("" ++ spell [(LNumber count, ""); (LDice, "");
                         (LNumber sides, ""); (LKeepLetter m, "");
                         (LNumber keep, "")])
      by (destruct m; cbn; now rewrite append_empty_r).
    rewrite lex_spelled; [destruct m; reflexivity | reflexivity |].
    cbn [wellSpelled]. now rewrite Hc1, Hc2, Hs1, Hs2, Hk1, Hk2.
Qed.

Lemma dice_terms_are_read_as_written_witness :
  parseExpression ("2" ++ "d" ++ "20") = Ok (Dice (mkDice 2 20))
  /\ parseExpression ("2" ++ "d" ++ "20" ++ "k" ++ "l" ++ "1")
     = Ok (DiceModifierNode (mkDice 2 20) KEEP_LOWEST (NumberNode 1))
  /\ parseExpression ("2" ++ "d" ++ "20" ++ "l" ++ "1")
     = Ok (DiceModifierNode (mkDice 2 20) KEEP_LOWEST (NumberNode 1)).
Proof.
  apply (dice_terms_are_read_as_written "2" "20" "1" KEEP_LOWEST);
    reflexivity.
Defined.

(* ================================================================== *)
(** * The offsets of the tokens increase *)

Lemma Sorted_push_lt (l : list Token) (t : Token) :
  Sorted offsetLt l -> Forall (fun a => offset a < offset t) l ->
  Sorted offsetLt (push l t).
Proof.
  unfold push. induction l as [|a l IH]; intros Hs Hf; simpl.
  - repeat constructor.
  - inversion Hs as [|? ? Hs' Hd]; subst. inversion Hf as [|? ? Ha Hf']; subst.
    constructor; [now apply IH|].
    destruct l as [|b l]; simpl; constructor; [exact Ha|].
    now inversion Hd.
Qed.

Lemma offsetsBelow_push (tokens : list Token) (t : Token) (off off' : nat) :
  offsetsBelow tokens off -> off <= offset t -> offset t < off' ->
  offsetsBelow (push tokens t) off'.
Proof.
  intros [Hs Hf] H1 H2. split.
  - apply Sorted_push_lt; [assumption|].
    eapply Forall_impl; [|exact Hf]. simpl. intros; lia.
  - unfold push. apply Forall_app. split.
    + eapply Forall_impl; [|exact Hf]. simpl. intros; lia.
    + repeat constructor. assumption.
Qed.

Lemma offsetsBelow_skip (tokens : list Token) (off off' : nat) :
  offsetsBelow tokens off -> off <= off' -> offsetsBelow tokens off'.
Proof.
  intros [Hs Hf] H. split; [assumption|].
  eapply Forall_impl; [|exact Hf]. simpl. intros; lia.
Qed.

Lemma offsetsBelow_step (expression : string) (st : LexState) (c : ascii) :
  charAt expression (lexOffset st) = Some c ->
  offsetsBelow (lexTokens st) (lexOffset st) ->
  offsetsBelow (lexTokens (lexStep expression st c))
               (lexOffset (lexStep expression st c)).
Proof.
  intros Hc HI. pose proof (lexStep_progress expression st c Hc) as [Hlt _].
  revert Hlt. unfold lexStep, single.
  repeat match goal with
         | |- context [if ?b then _ else _] => destruct b
         end; cbn [lexOffset lexTokens]; intros Hlt;
    first [ apply offsetsBelow_skip with (lexOffset st); [assumption | lia]
          | apply offsetsBelow_push with (lexOffset st);
            cbn [offset baseToken]; [assumption | lia | lia] ].
Qed.

(** X18.  The offsets of the tokens [lex] returns increase from each
    token to the next: no two tokens carry the same offset, [EOF]
    included. *)
Theorem lex_offsets_increase (expression : string) (tokens : list Token) :
  lex expression = Ok tokens -> Sorted offsetLt tokens.
Proof.
  unfold lex. rewrite lexRun_lexFrom.
  destruct (lexFrom_invariant expression
              (fun st => offsetsBelow (lexTokens st) (lexOffset st))
              (offsetsBelow_step expression) (mkLexState 0 [] []))
    as [[Hs Hf] _].
  { split; constructor. }
  destruct (lexErrors _); intros H; inversion H; subst.
  apply Sorted_push_lt; assumption.
Qed.

Lemma lex_offsets_increase_witness :
  Sorted offsetLt
    [ mkToken NUMBER "3" 0 (Some 3%N); baseToken DICE "d" 1;
      mkToken NUMBER "6" 2 (Some 6%N); baseToken KEEP_HIGHEST "kh" 4;
      mkToken NUMBER "1" 5 (Some 1%N); baseToken EOF "" 6 ].
Proof.
  apply (lex_offsets_increase "3d6kh1" _ eq_refl).
Defined.

(* ================================================================== *)
(** * The parser reads the types and the literals of the tokens *)

Section Agreement.

Variables tokens tokens' : list Token.
Hypothesis Hkinds : map kind tokens = map kind tokens'.

Lemma kinds_length : List.length tokens = List.length tokens'.
Proof.
  rewrite <- (length_map kind tokens), Hkinds. apply length_map.
Qed.

Lemma kinds_nth (i : nat) (a : Token) :
  nth_error tokens i = Some a ->
  exists b, nth_error tokens' i = Some b /\ sameKind a b.
Proof.
  intros H. apply (map_nth_error kind) in H. rewrite Hkinds in H.
  rewrite nth_error_map in H.
  destruct (nth_error tokens' i) as [b|]; [|discriminate].
  exists b. split; [reflexivity|]. simpl in H. unfold sameKind. congruence.
Qed.

Lemma kinds_next (i : nat) :
  option_map type (nth_error tokens i)
  = option_map type (nth_error tokens' i).
Proof.
  pose proof (f_equal (fun l => option_map fst (nth_error l i)) Hkinds) as H.
  cbv beta in H. rewrite !nth_error_map in H.
  destruct (nth_error tokens i), (nth_error tokens' i); simpl in *;
    congruence.
Qed.

Lemma agrees_ret {A B} (R : A -> B -> Prop) (a : A) (b : B) :
  R a b -> agrees R (ret a) (ret b).
Proof.
  intros H cur x c E. inversion E; subst. exists b.
  split; [reflexivity | assumption].
Qed.

Lemma agrees_throw {A B} (R : A -> B -> Prop) (e : Exception)
      (p' : Parser B) :
  agrees R (throw e) p'.
Proof. intros cur x c E. discriminate. Qed.

Lemma agrees_diverge {A B} (R : A -> B -> Prop) (p' : Parser B) :
  agrees R diverge p'.
Proof. intros cur x c E. discriminate. Qed.

Lemma agrees_bind {A A' B B'} (R : A -> A' -> Prop) (R' : B -> B' -> Prop)
      (m : Parser A) (m' : Parser A') (k : A -> Parser B)
      (k' : A' -> Parser B') :
  agrees R m m' -> (forall a a', R a a' -> agrees R' (k a) (k' a')) ->
  agrees R' (bind m k) (bind m' k').
Proof.
  intros Hm Hk cur b c E. apply bind_Ok in E as (a & c1 & E1 & E2).
  destruct (Hm _ _ _ E1) as (a' & E1' & Ha).
  destruct (Hk _ _ Ha _ _ _ E2) as (b' & E2' & Hb).
  exists b'. split; [|assumption]. unfold bind. now rewrite E1'.
Qed.

Lemma agrees_peek : agrees sameKind (peek tokens) (peek tokens').
Proof.
  intros cur a c E. apply peek_Ok in E as [E ->].
  destruct (kinds_nth _ _ E) as (b & E' & H).
  exists b. split; [|assumption]. unfold peek. now rewrite E'.
Qed.

Lemma agrees_advance : agrees sameKind (advance tokens) (advance tokens').
Proof.
  intros cur a c E. apply advance_Ok in E as [E ->].
  destruct (kinds_nth _ _ E) as (b & E' & H).
  exists b. split; [|assumption]. unfold advance, bind, peek.
  now rewrite E'.
Qed.

Lemma agrees_previous :
  agrees sameKind (previous tokens) (previous tokens').
Proof.
  intros cur a c E. apply previous_Ok in E as (E & Hc & ->).
  destruct cur as [|cur]; [lia|]. simpl in E.
  destruct (kinds_nth _ _ E) as (b & E' & H).
  exists b. split; [|assumption]. unfold previous. now rewrite E'.
Qed.

Lemma agrees_nextType : agrees eq (nextType tokens) (nextType tokens').
Proof.
  intros cur a c E. unfold nextType in *.
  assert (Ha : a = option_map type (nth_error tokens (S cur))
               /\ c = cur) by (split; congruence).
  destruct Ha as [-> ->].
  eexists. split; [reflexivity|]. apply (kinds_next (S cur)).
Qed.

Lemma sameKind_type (a b : Token) : sameKind a b -> type a = type b.
Proof. intros H. exact (f_equal fst H). Qed.

Lemma sameKind_literal (a b : Token) :
  sameKind a b -> literal a = literal b.
Proof. intros H. exact (f_equal snd H). Qed.

Lemma agrees_match (types : list TokenType) :
  agrees eq (match_ tokens types) (match_ tokens' types).
Proof.
  unfold match_. apply agrees_bind with sameKind; [apply agrees_peek|].
  intros a b H. rewrite (sameKind_type _ _ H).
  destruct (includes types (type b)).
  - apply agrees_bind with sameKind; [apply agrees_advance|].
    intros. now apply agrees_ret.
  - now apply agrees_ret.
Qed.

Lemma agrees_expect (t : TokenType) :
  agrees sameKind (expect tokens t) (expect tokens' t).
Proof.
  unfold expect. apply agrees_bind with sameKind; [apply agrees_peek|].
  intros a b H. rewrite (sameKind_type _ _ H).
  destruct (TokenType_eqb (type b) t);
    [apply agrees_advance | apply agrees_throw].
Qed.

Lemma agrees_literalOf (a b : Token) :
  sameKind a b -> agrees eq (literalOf a) (literalOf b).
Proof.
  intros H. unfold literalOf. rewrite (sameKind_literal _ _ H).
  destruct (literal b); [now apply agrees_ret | apply agrees_throw].
Qed.

Lemma agrees_asOperator (a b : Token) :
  sameKind a b -> agrees eq (asOperator a) (asOperator b).
Proof.
  intros H. unfold asOperator. rewrite (sameKind_type _ _ H).
  destruct (type b); first [now apply agrees_ret | apply agrees_throw].
Qed.

Lemma agrees_asDiceModifier (a b : Token) :
  sameKind a b -> agrees eq (asDiceModifier a) (asDiceModifier b).
Proof.
  intros H. unfold asDiceModifier. rewrite (sameKind_type _ _ H).
  destruct (type b); first [now apply agrees_ret | apply agrees_throw].
Qed.

(** One step along two programs that differ in their tokens only. *)
Ltac agree_step :=
  lazymatch goal with
  | |- agrees _ diverge _ => apply agrees_diverge
  | |- agrees _ (throw _) _ => apply agrees_throw
  | |- agrees _ (ret _) (ret _) => apply agrees_ret; reflexivity
  | |- agrees _ (peek _) _ => apply agrees_peek
  | |- agrees _ (nextType _) _ => apply agrees_nextType
  | |- agrees _ (match_ _ _) _ => apply agrees_match
  | |- agrees _ (expect _ _) _ => apply agrees_expect
  | |- agrees _ (previous _) _ => apply agrees_previous
  | |- agrees _ (literalOf _) _ => apply agrees_literalOf; assumption
  | |- agrees _ (asOperator _) _ => apply agrees_asOperator; assumption
  | |- agrees _ (asDiceModifier _) _ =>
      apply agrees_asDiceModifier; assumption
  | H : agrees _ ?p ?p' |- agrees _ ?p ?p' => exact H
  | |- agrees _ (bind _ _) (bind _ _) =>
      eapply agrees_bind;
      [repeat agree_step
      |let a := fresh "a" in
        let b := fresh "b" in
        let H := fresh "H" in
        intros a b H;
        first [ subst b
              | rewrite ?(sameKind_type _ _ H) ]]
  | |- agrees _ (if ?b then _ else _) (if ?b then _ else _) => destruct b
  | |- agrees _ (match ?n with O => _ | S _ => _ end) _ => destruct n
  end.

Lemma agrees_factorLoop (P P' : Parser ASTNode) :
  agrees eq P P' ->
  forall fuel expr,
    agrees eq (factorLoop tokens P fuel expr) (factorLoop tokens' P' fuel expr).
Proof.
  intros HP fuel. induction fuel as [|fuel IH]; intros expr;
    cbn [factorLoop]; repeat agree_step.
  apply IH.
Qed.

Lemma agrees_factor (P P' : Parser ASTNode) :
  agrees eq P P' -> agrees eq (factor tokens P) (factor tokens' P').
Proof.
  intros HP. unfold factor. rewrite <- kinds_length. repeat agree_step.
  now apply agrees_factorLoop.
Qed.

Lemma agrees_termLoop (P P' : Parser ASTNode) :
  agrees eq P P' ->
  forall fuel expr,
    agrees eq (termLoop tokens P fuel expr) (termLoop tokens' P' fuel expr).
Proof.
  intros HP fuel. pose proof (agrees_factor P P' HP) as HF.
  induction fuel as [|fuel IH]; intros expr;
    cbn [termLoop]; repeat agree_step.
  apply IH.
Qed.

Lemma agrees_term (P P' : Parser ASTNode) :
  agrees eq P P' -> agrees eq (term tokens P) (term tokens' P').
Proof.
  intros HP. pose proof (agrees_factor P P' HP) as HF.
  unfold term. rewrite <- kinds_length. repeat agree_step.
  now apply agrees_termLoop.
Qed.

Lemma agrees_dice (P P' : Parser ASTNode) :
  agrees eq P P' -> agrees eq (dice tokens P) (dice tokens' P').
Proof.
  intros HP. unfold dice. repeat agree_step.
Qed.

Lemma agrees_primary (fuel : nat) :
  agrees eq (primary tokens fuel) (primary tokens' fuel).
Proof.
  induction fuel as [|fuel IH]; cbn [primary]; [apply agrees_diverge|].
  pose proof (agrees_dice _ _ IH) as HD. pose proof (agrees_term _ _ IH) as HT.
  repeat agree_step.
Qed.

Lemma agrees_parse (r : ASTNode * list string) :
  parse tokens = Ok r -> parse tokens' = Ok r.
Proof.
  unfold parse, topTerm, parseFuel. rewrite <- kinds_length.
  pose proof (agrees_term _ _ (agrees_primary (S (List.length tokens))))
    as HT.
  match goal with
  | |- match ?p 0 with _ => _ end = _ -> match ?p' 0 with _ => _ end = _ =>
      assert (Hp : agrees eq p p') by (repeat agree_step);
      destruct (p 0) as [[r0 c]| |] eqn:E; intros H; inversion H; subst;
      destruct (Hp _ _ _ E) as (b & E' & <-); now rewrite E'
  end.
Qed.

End Agreement.

(** X19.  [parse] reads nothing of a token but its type and its literal:
    on two lists of tokens that agree on these, whatever the lexemes and
    the offsets, it returns the same tree and the same warning, or
    throws on both. *)
Theorem parse_reads_types_and_literals (tokens tokens' : list Token) :
  map kind tokens = map kind tokens' ->
  match parse tokens, parse tokens' with
  | Ok r, Ok r' => r = r'
  | Throw _, Throw _ => True
  | _, _ => False
  end.
Proof.
  intros H.
  pose proof (agrees_parse tokens tokens' H) as H1.
  pose proof (agrees_parse tokens' tokens (eq_sym H)) as H2.
  pose proof (parse_terminates tokens) as T1.
  pose proof (parse_terminates tokens') as T2.
  destruct (parse tokens) as [r|e|], (parse tokens') as [r'|e'|];
    try contradiction; try exact I.
  - specialize (H1 r eq_refl). congruence.
  - specialize (H1 r eq_refl). discriminate.
  - specialize (H2 r' eq_refl). discriminate.
Qed.

Lemma parse_reads_types_and_literals_witness :
  match parse oneTwoTokens,
        parse [ mkToken NUMBER "01" 5 (Some 1%N);
                mkToken NUMBER "2" 9 (Some 2%N); baseToken EOF "end" 7 ]
  with
  | Ok r, Ok r' => r = r'
  | Throw _, Throw _ => True
  | _, _ => False
  end.
Proof.
  apply (parse_reads_types_and_literals oneTwoTokens
           [ mkToken NUMBER "01" 5 (Some 1%N);
             mkToken NUMBER "2" 9 (Some 2%N); baseToken EOF "end" 7 ]).
  reflexivity.
Defined.

Lemma tokensAt_kinds (ls : list Spelled) (off : nat) :
  map kind (tokensAt off ls) = map lexemeKind ls.
Proof.
  revert off. induction ls as [|[l ws] ls IH]; intros off;
    cbn [tokensAt map]; [reflexivity|].
  f_equal; [now destruct l | apply IH].
Qed.

Lemma parseExpression_kinds (lead lead' : string) (ls ls' : list Spelled)
      (ast : ASTNode) :
  allOf isSpace lead = true -> allOf isSpace lead' = true ->
  wellSpelled ls = true -> wellSpelled ls' = true ->
  map lexemeKind ls = map lexemeKind ls' ->
  parseExpression (lead ++ spell ls) = Ok ast ->
  parseExpression (lead' ++ spell ls') = Ok ast.
Proof.
  intros Hl Hl' Hw Hw' Hk. unfold parseExpression.
  rewrite (lex_spelled _ _ Hl Hw), (lex_spelled _ _ Hl' Hw').
  set (eof := baseToken EOF "" (String.length (lead ++ spell ls))).
  set (eof' := baseToken EOF "" (String.length (lead' ++ spell ls'))).
  assert (K : map kind (push (tokensAt (String.length lead) ls) eof)
              = map kind (push (tokensAt (String.length lead') ls') eof')).
  { unfold push. rewrite !map_app, !tokensAt_kinds, Hk. reflexivity. }
  destruct (parse (push (tokensAt (String.length lead) ls) eof))
    as [[a w]| |] eqn:E; intros H; inversion H; subst.
  rewrite (agrees_parse _ _ K _ E). reflexivity.
Qed.

(** X20.  White space and the spelling of the lexemes do not matter:
    two source strings with the same lexemes, or with lexemes that are
    numbers of the same value (["007"] and ["7"]) or the same modifier
    (["kh"] and ["h"], ["kl"] and ["l"]), with white space at will
    between the lexemes, parse to the same tree, and [roll] does the same
    on both. *)
Theorem roll_ignores_white_space_and_spelling :
  forall (St : Type) (random : Random St) (numberToString : number -> string)
         (lead lead' : string) (ls ls' : list Spelled)
         (maxRolls : option number) (s : St) (ast : ASTNode),
    allOf isSpace lead = true -> allOf isSpace lead' = true ->
    wellSpelled ls = true -> wellSpelled ls' = true ->
    map lexemeKind ls = map lexemeKind ls' ->
    parseExpression (lead ++ spell ls) = Ok ast ->
    parseExpression (lead' ++ spell ls') = Ok ast
    /\ roll St random numberToString (lead' ++ spell ls') maxRolls s
       = roll St random numberToString (lead ++ spell ls) maxRolls s.
Proof.
  intros St random nts lead lead' ls ls' maxRolls s ast Hl Hl' Hw Hw' Hk Ep.
  pose proof (parseExpression_kinds _ _ _ _ _ Hl Hl' Hw Hw' Hk Ep) as Ep'.
  split; [exact Ep'|].
  now rewrite (roll_parseExpression _ _ _ _ _ _ _ Ep),
              (roll_parseExpression _ _ _ _ _ _ _ Ep').
Qed.

Lemma roll_ignores_white_space_and_spelling_witness :
  parseExpression ("  " ++ spell [ (LNumber "02", " "); (LDice, "");
                                   (LNumber "20", " ");
                                   (LKeepLetter KEEP_HIGHEST, " ");
                                   (LNumber "1", "") ])
  = Ok (DiceModifierNode (mkDice 2 20) KEEP_HIGHEST (NumberNode 1))
  /\ rollSeq ("  " ++ spell [ (LNumber "02", " "); (LDice, "");
                              (LNumber "20", " ");
                              (LKeepLetter KEEP_HIGHEST, " ");
                              (LNumber "1", "") ])
             [ofN 8; ofN 15]
     = rollSeq ("" ++ spell [ (LNumber "2", ""); (LDice, "");
                              (LNumber "20", "");
                              (LKeepPair KEEP_HIGHEST, "");
                              (LNumber "1", "") ])
               [ofN 8; ofN 15].
Proof.
  apply (roll_ignores_white_space_and_spelling (list number) sequence
           showNumber "" "  "
           [ (LNumber "2", ""); (LDice, ""); (LNumber "20", "");
             (LKeepPair KEEP_HIGHEST, ""); (LNumber "1", "") ]
           [ (LNumber "02", " "); (LDice, ""); (LNumber "20", " ");
             (LKeepLetter KEEP_HIGHEST, " "); (LNumber "1", "") ]
           None [ofN 8; ofN 15]);
    reflexivity.
Defined.

(** The strings of this example. *)
Example spell_two_ways :
  "  " ++ spell [ (LNumber "02", " "); (LDice, ""); (LNumber "20", " ");
                  (LKeepLetter KEEP_HIGHEST, " "); (LNumber "1", "") ]
  = "  02 d20 h 1"
  /\ "" ++ spell [ (LNumber "2", ""); (LDice, ""); (LNumber "20", "");
                   (LKeepPair KEEP_HIGHEST, ""); (LNumber "1", "") ]
     = "2d20kh1".
Proof. split; reflexivity. Qed.

(* ================================================================== *)
(** * Every expression of the grammar is parsed *)

Section DiceAt.

Variable tokens : list Token.

(** The parser at a dice term with its count. *)
Lemma primary_dice_counted (fuel c : nat) (n d s t : Token)
      (count sides : N) :
  nth_error tokens c = Some n -> type n = NUMBER ->
  literal n = Some count ->
  nth_error tokens (S c) = Some d -> type d = DICE ->
  nth_error tokens (S (S c)) = Some s -> type s = NUMBER ->
  literal s = Some sides ->
  nth_error tokens (S (S (S c))) = Some t ->
  primary tokens (S fuel) c
  = if includes [DiceModifier KEEP_HIGHEST; DiceModifier KEEP_LOWEST]
                (type t)
    then bind (asDiceModifier t)
              (fun operator =>
                 bind (primary tokens fuel)
                      (fun right =>
                         ret (DiceModifierNode (mkDice count sides)
                                               operator right)))
              (S (S (S (S c))))
    else Ok (Dice (mkDice count sides), S (S (S c))).
Proof.
  intros Hn Htn Hln Hd Htd Hs Hts Hls Ht.
  remember (includes [DiceModifier KEEP_HIGHEST; DiceModifier KEEP_LOWEST]
                     (type t)) as m eqn:Em.
  cbn [primary].
  unfold bind at 1. rewrite (peek_at _ _ _ Hn).
  unfold bind at 1. unfold nextType. rewrite Hd. cbn [option_map].
  rewrite Htn, Htd. cbn [TokenType_eqb orb andb].
  unfold dice.
  unfold bind at 1. rewrite (match_at _ _ _ _ Hn), Htn.
  cbn [includes existsb TokenType_eqb orb].
  unfold bind at 1. unfold bind at 1. rewrite (previous_at _ _ _ Hn).
  unfold literalOf at 1. rewrite Hln. unfold ret at 1.
  unfold bind at 1. rewrite (expect_at _ DICE _ _ Hd) by (now rewrite Htd).
  unfold bind at 1. rewrite (expect_at _ NUMBER _ _ Hs) by (now rewrite Hts).
  unfold bind at 1. unfold literalOf at 1. rewrite Hls. unfold ret at 1.
  unfold bind at 1. rewrite (match_at _ _ _ _ Ht).
  rewrite <- Em. destruct m; [|reflexivity].
  unfold bind at 1. rewrite (previous_at _ _ _ Ht). reflexivity.
Qed.

(** The parser at a dice term without its count. *)
Lemma primary_dice_single (fuel c : nat) (d s t : Token) (sides : N) :
  nth_error tokens c = Some d -> type d = DICE ->
  nth_error tokens (S c) = Some s -> type s = NUMBER ->
  literal s = Some sides ->
  nth_error tokens (S (S c)) = Some t ->
  primary tokens (S fuel) c
  = if includes [DiceModifier KEEP_HIGHEST; DiceModifier KEEP_LOWEST]
                (type t)
    then bind (asDiceModifier t)
              (fun operator =>
                 bind (primary tokens fuel)
                      (fun right =>
                         ret (DiceModifierNode (mkDice 1 sides)
                                               operator right)))
              (S (S (S c)))
    else Ok (Dice (mkDice 1 sides), S (S c)).
Proof.
  intros Hd Htd Hs Hts Hls Ht.
  remember (includes [DiceModifier KEEP_HIGHEST; DiceModifier KEEP_LOWEST]
                     (type t)) as m eqn:Em.
  cbn [primary].
  unfold bind at 1. rewrite (peek_at _ _ _ Hd).
  unfold bind at 1. unfold nextType.
  rewrite Htd. cbn [TokenType_eqb orb andb].
  unfold dice.
  unfold bind at 1. rewrite (match_at _ _ _ _ Hd), Htd.
  cbn [includes existsb TokenType_eqb orb].
  unfold bind at 1. unfold ret at 1.
  unfold bind at 1. rewrite (expect_at _ DICE _ _ Hd) by (now rewrite Htd).
  unfold bind at 1. rewrite (expect_at _ NUMBER _ _ Hs) by (now rewrite Hts).
  unfold bind at 1. unfold literalOf at 1. rewrite Hls. unfold ret at 1.
  unfold bind at 1. rewrite (match_at _ _ _ _ Ht).
  rewrite <- Em. destruct m; [|reflexivity].
  unfold bind at 1. rewrite (previous_at _ _ _ Ht). reflexivity.
Qed.

End DiceAt.

Lemma stopsPrimary_ends (rest : list Token) :
  stopsPrimary rest -> endsPrimary rest.
Proof.
  intros (ty & H & E). unfold endsPrimary. rewrite H. intros H'.
  inversion H'; subst. discriminate.
Qed.

Lemma stopsPrimary_inv (rest : list Token) :
  stopsPrimary rest ->
  exists t, nth_error rest 0 = Some t
            /\ includes [DiceModifier KEEP_HIGHEST; DiceModifier KEEP_LOWEST]
                        (type t) = false.
Proof.
  intros (ty & H & E). unfold headType in H.
  destruct (nth_error rest 0) as [t|]; [|discriminate].
  inversion H; subst. exists t. split; [reflexivity|].
  destruct (type t) as [[]|[]| | | | |]; try discriminate; reflexivity.
Qed.

Lemma stopsFactor_inv (rest : list Token) :
  stopsFactor rest ->
  exists t, nth_error rest 0 = Some t
            /\ includes [Operator STAR; Operator SLASH] (type t) = false
            /\ stopsPrimary rest.
Proof.
  intros (ty & H & E). unfold headType in H.
  destruct (nth_error rest 0) as [t|] eqn:Ht; [|discriminate].
  inversion H; subst. exists t. split; [reflexivity|]. split.
  - destruct (type t) as [[]|[]| | | | |]; try discriminate; reflexivity.
  - exists (type t). unfold headType. rewrite Ht. split; [reflexivity|].
    destruct (type t) as [[]|[]| | | | |]; try discriminate; reflexivity.
Qed.


Lemma flattenDice_length (d : DiceText) :
  List.length (flattenDice d)
  = match countText d with Some _ => 3 | None => 2 end.
Proof. unfold flattenDice. now destruct (countText d) as [[count ws]|]. Qed.

Section ExprParsing.

Variable tokens : list Token.

(** The parser at a dice term: it goes on to the operand when a keep
    modifier follows, and stops after the term otherwise. *)
Lemma primary_diceText (fuel : nat) (pre rest : list Token) (off : nat)
      (d : DiceText) (t : Token) :
  tokens = (pre ++ tokensAt off (flattenDice d) ++ rest)%list ->
  nth_error rest 0 = Some t ->
  primary tokens (S fuel) (List.length pre)
  = if includes [DiceModifier KEEP_HIGHEST; DiceModifier KEEP_LOWEST]
                (type t)
    then bind (asDiceModifier t)
              (fun operator =>
                 bind (primary tokens fuel)
                      (fun right =>
                         ret (DiceModifierNode (diceNode d) operator right)))
              (S (List.length pre + List.length (flattenDice d)))
    else Ok (Dice (diceNode d),
             List.length pre + List.length (flattenDice d)).
Proof.
  intros Htok Ht.
  assert (Hat : forall i x mid,
             tokens = (pre ++ mid ++ rest)%list ->
             nth_error mid i = Some x ->
             nth_error tokens (List.length pre + i) = Some x).
  { intros i x mid -> H. rewrite nth_error_app2 by lia.
    replace (List.length pre + i - List.length pre) with i by lia.
    rewrite nth_error_app1; [assumption|].
    apply nth_error_Some. congruence. }
  pose proof (nth_error_stop tokens pre _ rest _ t Htok eq_refl Ht) as Hend.
  rewrite tokensAt_length in Hend.
  rewrite flattenDice_length in *. unfold diceNode.
  unfold flattenDice in Htok.
  destruct (countText d) as [[count ws]|]; cbn [app tokensAt] in Htok.
  - pose proof (Hat 0 _ [_; _; _] Htok eq_refl) as H0.
    pose proof (Hat 1 _ [_; _; _] Htok eq_refl) as H1.
    pose proof (Hat 2 _ [_; _; _] Htok eq_refl) as H2.
    rewrite Nat.add_0_r in H0.
    replace (List.length pre + 1) with (S (List.length pre)) in H1 by lia.
    replace (List.length pre + 2) with (S (S (List.length pre))) in H2
      by lia.
    replace (List.length pre + 3) with (S (S (S (List.length pre)))) in *
      by lia.
    exact (primary_dice_counted tokens fuel _ _ _ _ t _ _
             H0 eq_refl eq_refl H1 eq_refl H2 eq_refl eq_refl Hend).
  - pose proof (Hat 0 _ [_; _] Htok eq_refl) as H0.
    pose proof (Hat 1 _ [_; _] Htok eq_refl) as H1.
    rewrite Nat.add_0_r in H0.
    replace (List.length pre + 1) with (S (List.length pre)) in H1 by lia.
    replace (List.length pre + 2) with (S (S (List.length pre))) in *
      by lia.
    exact (primary_dice_single tokens fuel _ _ _ t _
             H0 eq_refl H1 eq_refl eq_refl Hend).
Qed.

(** From a primary to the factor and to the term it makes alone. *)
Lemma levels_of_primary (fuel start stop : nat) (ast : ASTNode) :
  (primary tokens fuel start <> Diverge ->
   primary tokens fuel start = Ok (ast, stop)) ->
  (forall n,
      bind (primary tokens fuel)
           (factorLoop tokens (primary tokens fuel) n) start <> Diverge ->
      exists n',
        bind (primary tokens fuel)
             (factorLoop tokens (primary tokens fuel) n) start
        = factorLoop tokens (primary tokens fuel) n' ast stop)
  /\ (forall t,
         nth_error tokens stop = Some t ->
         includes [Operator STAR; Operator SLASH] (type t) = false ->
         forall n,
           bind (factor tokens (primary tokens fuel))
                (termLoop tokens (primary tokens fuel) n) start <> Diverge ->
           exists n',
             bind (factor tokens (primary tokens fuel))
                  (termLoop tokens (primary tokens fuel) n) start
             = termLoop tokens (primary tokens fuel) n' ast stop).
Proof.
  intros H1.
  assert (H2 : forall n,
             bind (primary tokens fuel)
                  (factorLoop tokens (primary tokens fuel) n) start
             <> Diverge ->
             exists n',
               bind (primary tokens fuel)
                    (factorLoop tokens (primary tokens fuel) n) start
               = factorLoop tokens (primary tokens fuel) n' ast stop).
  { intros n Hd. exists n. apply production_then_loop; auto. }
  split; [exact H2|].
  intros t Ht E. now apply termG_of_factorG with t.
Qed.

End ExprParsing.

Section ExprInduction.

Variable tokens : list Token.

(** The three levels of the statement, for a primary. *)
Lemma primary_case (fuel : nat) (pre mid rest : list Token) (n : nat)
      (ast : ASTNode) :
  tokens = (pre ++ mid ++ rest)%list -> List.length mid = n ->
  (stopsPrimary rest ->
   primary tokens fuel (List.length pre) <> Diverge ->
   primary tokens fuel (List.length pre) = Ok (ast, List.length pre + n)) ->
  (stopsPrimary rest ->
   forall k,
     bind (primary tokens fuel)
          (factorLoop tokens (primary tokens fuel) k) (List.length pre)
     <> Diverge ->
     exists k',
       bind (primary tokens fuel)
            (factorLoop tokens (primary tokens fuel) k) (List.length pre)
       = factorLoop tokens (primary tokens fuel) k' ast
           (List.length pre + n))
  /\ (stopsFactor rest ->
      forall k,
        bind (factor tokens (primary tokens fuel))
             (termLoop tokens (primary tokens fuel) k) (List.length pre)
        <> Diverge ->
        exists k',
          bind (factor tokens (primary tokens fuel))
               (termLoop tokens (primary tokens fuel) k) (List.length pre)
          = termLoop tokens (primary tokens fuel) k' ast
              (List.length pre + n)).
Proof.
  intros Htok Hlen H1. split.
  - intros Hrest.
    exact (proj1 (levels_of_primary tokens fuel _ _ _ (H1 Hrest))).
  - intros Hrest. destruct (stopsFactor_inv _ Hrest) as (t & Ht & E & Hp).
    apply (proj2 (levels_of_primary tokens fuel _ _ _ (H1 Hp)) t); auto.
    now apply nth_error_stop with mid rest.
Qed.

Lemma keepLexeme_token (short : bool) (m : DiceModifierType) (off : nat) :
  type (lexemeToken (keepLexeme short m) off) = DiceModifier m.
Proof. now destruct short. Qed.

Lemma parse_expr (e : Expr) :
  wellFormedE e = true ->
  forall (fuel : nat) (pre rest : list Token) (off : nat),
    tokens = (pre ++ tokensAt off (flattenE e) ++ rest)%list ->
    (isPrimaryE e = true -> stopsPrimary rest ->
     primary tokens fuel (List.length pre) <> Diverge ->
     primary tokens fuel (List.length pre)
     = Ok (toASTE e, List.length pre + List.length (flattenE e)))
    /\ (isFactorE e = true -> stopsPrimary rest ->
        forall n,
          bind (primary tokens fuel)
               (factorLoop tokens (primary tokens fuel) n) (List.length pre)
          <> Diverge ->
          exists n',
            bind (primary tokens fuel)
                 (factorLoop tokens (primary tokens fuel) n) (List.length pre)
            = factorLoop tokens (primary tokens fuel) n' (toASTE e)
                (List.length pre + List.length (flattenE e)))
    /\ (stopsFactor rest ->
        forall n,
          bind (factor tokens (primary tokens fuel))
               (termLoop tokens (primary tokens fuel) n) (List.length pre)
          <> Diverge ->
          exists n',
            bind (factor tokens (primary tokens fuel))
                 (termLoop tokens (primary tokens fuel) n) (List.length pre)
            = termLoop tokens (primary tokens fuel) n' (toASTE e)
                (List.length pre + List.length (flattenE e))).
Proof.
  induction e as [digits ws|d|d short m ws operand IH|ws1 e IH ws2
                  |l IHl o ws r IHr];
    intros Hwf fuel pre rest off Htok.
  - (* a number *)
    cbn [flattenE tokensAt app List.length toASTE] in *.
    assert (H1 : stopsPrimary rest ->
                 primary tokens fuel (List.length pre) <> Diverge ->
                 primary tokens fuel (List.length pre)
                 = Ok (NumberNode (parseInt digits), List.length pre + 1)).
    { intros Hrest. apply stopsPrimary_ends in Hrest.
      now apply primary_literal with rest
            (lexemeToken (LNumber digits) off). }
    destruct (primary_case fuel pre [lexemeToken (LNumber digits) off] rest
                1 _ Htok eq_refl H1) as [H2 H3].
    auto.
  - (* a dice term *)
    cbn [flattenE toASTE] in *.
    assert (H1 : stopsPrimary rest ->
                 primary tokens fuel (List.length pre) <> Diverge ->
                 primary tokens fuel (List.length pre)
                 = Ok (Dice (diceNode d),
                       List.length pre + List.length (flattenDice d))).
    { intros Hrest Hd. destruct fuel as [|fuel]; [now elim Hd|].
      destruct (stopsPrimary_inv _ Hrest) as (t & Ht & E).
      now rewrite (primary_diceText tokens fuel pre rest off d t Htok Ht), E. }
    destruct (primary_case fuel pre _ rest _ _ Htok
                (tokensAt_length _ _) H1) as [H2 H3].
    auto.
  - (* a dice term with a keep modifier *)
    cbn [wellFormedE] in Hwf.
    apply andb_true_iff in Hwf as [Hwf Hprim].
    apply andb_true_iff in Hwf as [_ Hwo].
    cbn [flattenE toASTE] in *.
    pose proof Htok as Htok0.
    destruct (tokensAt_app (flattenDice d)
                ((keepLexeme short m, ws) :: flattenE operand) off)
      as [off1 Eapp].
    rewrite Eapp in Htok. cbn [tokensAt] in Htok.
    set (mt := lexemeToken (keepLexeme short m) off1) in *.
    set (td := tokensAt off (flattenDice d)) in *.
    set (top := tokensAt (off1 + String.length (spelling (keepLexeme short m))
                          + String.length ws) (flattenE operand)) in *.
    assert (Hld : List.length td = List.length (flattenDice d))
      by apply tokensAt_length.
    assert (Hlo : List.length top = List.length (flattenE operand))
      by apply tokensAt_length.
    assert (Htok1 : tokens = (pre ++ td ++ mt :: top ++ rest)%list).
    { rewrite Htok. rewrite <- !app_assoc. reflexivity. }
    assert (Htok2 : tokens = ((pre ++ td ++ [mt]) ++ top ++ rest)%list).
    { rewrite Htok. rewrite <- !app_assoc. reflexivity. }
    assert (Hstart : List.length (pre ++ td ++ [mt])
                     = S (List.length pre + List.length (flattenDice d))).
    { rewrite !length_app. cbn [List.length]. lia. }
    assert (H1 : stopsPrimary rest ->
                 primary tokens fuel (List.length pre) <> Diverge ->
                 primary tokens fuel (List.length pre)
                 = Ok (DiceModifierNode (diceNode d) m (toASTE operand),
                       List.length pre
                       + List.length (flattenDice d
                                      ++ (keepLexeme short m, ws)
                                         :: flattenE operand))).
    { intros Hrest Hd. destruct fuel as [|fuel]; [now elim Hd|].
      rewrite (primary_diceText tokens fuel pre (mt :: top ++ rest) off d mt
                 Htok1 eq_refl) in Hd |- *.
      unfold mt in Hd |- * at 1 2.
      rewrite keepLexeme_token in Hd |- *.
      replace (includes [DiceModifier KEEP_HIGHEST; DiceModifier KEEP_LOWEST]
                        (DiceModifier m)) with true in Hd |- *
        by (now destruct m).
      unfold bind at 1 in Hd. unfold bind at 1.
      unfold asDiceModifier in Hd |- *.
      rewrite keepLexeme_token in Hd |- *. unfold ret at 1 in Hd.
      unfold ret at 1.
      destruct (IH Hwo fuel (pre ++ td ++ [mt])%list rest _ Htok2)
        as (H1o & _ & _).
      rewrite Hstart in H1o.
      rewrite (bind_step _ _ _ _ _
                 (H1o Hprim Hrest (bind_defined _ _ _ Hd))).
      unfold ret. do 2 f_equal.
      rewrite !length_app. cbn [List.length]. lia. }
    destruct (primary_case fuel pre _ rest
                (List.length (flattenDice d
                              ++ (keepLexeme short m, ws)
                                 :: flattenE operand))
                _ Htok0 (tokensAt_length _ _) H1) as [H2 H3].
    auto.
  - (* parentheses *)
    cbn [wellFormedE] in Hwf.
    apply andb_true_iff in Hwf as [Hwf _].
    apply andb_true_iff in Hwf as [_ Hwf].
    cbn [flattenE toASTE] in *.
    pose proof Htok as Htok0.
    cbn [tokensAt] in Htok.
    destruct (tokensAt_app (flattenE e) [(LClose, ws2)]
                (off + String.length (spelling LOpen) + String.length ws1))
      as [off2 Eapp].
    rewrite Eapp in Htok. cbn [tokensAt lexemeToken] in Htok.
    set (open := baseToken PAREN_OPEN "(" off) in *.
    set (close := baseToken PAREN_CLOSE ")" off2) in *.
    set (te := tokensAt (off + String.length (spelling LOpen)
                         + String.length ws1) (flattenE e)) in *.
    assert (Hlen : List.length te = List.length (flattenE e))
      by apply tokensAt_length.
    assert (Htok' : tokens = ((pre ++ [open]) ++ te ++ close :: rest)%list).
    { rewrite Htok. cbn [app]. rewrite <- !app_assoc. reflexivity. }
    assert (Hopen : nth_error tokens (List.length pre) = Some open)
      by (rewrite Htok; apply nth_error_middle).
    assert (Hclose : nth_error tokens
                       (List.length (pre ++ [open]) + List.length te)
                     = Some close).
    { now apply nth_error_stop with te (close :: rest). }
    assert (H1 : stopsPrimary rest ->
                 primary tokens fuel (List.length pre) <> Diverge ->
                 primary tokens fuel (List.length pre)
                 = Ok (GroupingNode (toASTE e),
                       List.length pre
                       + List.length ((LOpen, ws1) :: flattenE e
                                      ++ [(LClose, ws2)]))).
    { intros _ Hd. destruct fuel as [|fuel]; [now elim Hd|].
      rewrite (primary_paren tokens fuel pre open Hopen eq_refl) in Hd |- *.
      assert (Hs : S (List.length pre) = List.length (pre ++ [open]))
        by (rewrite length_app; cbn [List.length]; lia).
      rewrite Hs in Hd |- *.
      destruct (IH Hwf fuel (pre ++ [open])%list (close :: rest) _ Htok')
        as (_ & _ & H3).
      assert (Hrest' : stopsFactor (close :: rest))
        by (exists PAREN_CLOSE; split; reflexivity).
      assert (Hclose' : nth_error tokens
                          (List.length (pre ++ [open])
                           + List.length (flattenE e)) = Some close)
        by (rewrite <- Hlen; exact Hclose).
      pose proof (termLoop_then_term tokens (primary tokens fuel) _ _ _ close
                    (H3 Hrest') Hclose' eq_refl
                    (bind_defined _ _ _ Hd)) as Et.
      rewrite (bind_step _ _ _ _ _ Et).
      unfold bind at 1. rewrite (expect_at _ PAREN_CLOSE _ _ Hclose' eq_refl).
      unfold ret. do 2 f_equal.
      cbn [List.length]. rewrite !length_app. cbn [List.length]. lia. }
    destruct (primary_case fuel pre _ rest
                (List.length ((LOpen, ws1) :: flattenE e
                              ++ [(LClose, ws2)]))
                _ Htok0 (tokensAt_length _ _) H1) as [H2 H3].
    auto.
  - (* an operator *)
    cbn [wellFormedE] in Hwf.
    apply andb_true_iff in Hwf as [Hwf Hlevel].
    apply andb_true_iff in Hwf as [Hwf Hwr].
    apply andb_true_iff in Hwf as [Hwl _].
    cbn [flattenE toASTE isPrimaryE isFactorE] in *.
    destruct (tokensAt_app (flattenE l) ((LOperator o, ws) :: flattenE r) off)
      as [off1 Eapp].
    rewrite Eapp in Htok. cbn [tokensAt lexemeToken] in Htok.
    set (op := baseToken o (opExplanation o) off1) in *.
    set (tl := tokensAt off (flattenE l)) in *.
    set (tr := tokensAt (off1 + String.length (spelling (LOperator o))
                         + String.length ws) (flattenE r)) in *.
    assert (Hll : List.length tl = List.length (flattenE l))
      by apply tokensAt_length.
    assert (Hlr : List.length tr = List.length (flattenE r))
      by apply tokensAt_length.
    assert (Htokl : tokens = (pre ++ tl ++ op :: tr ++ rest)%list).
    { rewrite Htok. rewrite <- !app_assoc. reflexivity. }
    assert (Htokr : tokens = ((pre ++ tl ++ [op]) ++ tr ++ rest)%list).
    { rewrite Htok. rewrite <- !app_assoc. reflexivity. }
    assert (Hop : nth_error tokens (List.length pre + List.length (flattenE l))
                  = Some op).
    { now apply nth_error_stop with tl (op :: tr ++ rest)%list. }
    assert (Hstart : List.length (pre ++ tl ++ [op])
                     = S (List.length pre + List.length (flattenE l))).
    { rewrite !length_app. cbn [List.length]. lia. }
    assert (Hstop : List.length (pre ++ tl ++ [op]) + List.length (flattenE r)
                    = List.length pre
                      + List.length (flattenE l
                                     ++ (LOperator o, ws) :: flattenE r)).
    { rewrite !length_app. cbn [List.length]. lia. }
    assert (Hend : forall t, nth_error rest 0 = Some t ->
                     nth_error tokens
                       (List.length pre
                        + List.length (flattenE l
                                       ++ (LOperator o, ws) :: flattenE r))
                     = Some t).
    { intros t Ht. rewrite <- Hstop.
      now apply nth_error_stop with tr rest. }
    assert (Hopstop : stopsPrimary (op :: tr ++ rest))
      by (exists (Operator o); split; [reflexivity | now destruct o]).
    split; [discriminate|].
    assert (H2 : isMultiplicative o = true -> stopsPrimary rest ->
                 forall n,
                   bind (primary tokens fuel)
                        (factorLoop tokens (primary tokens fuel) n)
                        (List.length pre) <> Diverge ->
                   exists n',
                     bind (primary tokens fuel)
                          (factorLoop tokens (primary tokens fuel) n)
                          (List.length pre)
                     = factorLoop tokens (primary tokens fuel) n'
                         (BinaryOpNode (toASTE l) o (toASTE r))
                         (List.length pre
                          + List.length (flattenE l
                                         ++ (LOperator o, ws) :: flattenE r))).
    { intros Ho Hrest n Hd. rewrite Ho in Hlevel.
      apply andb_true_iff in Hlevel as [Hfl Hpr].
      destruct (IHl Hwl fuel pre (op :: tr ++ rest) off Htokl)
        as (_ & H2l & _).
      destruct (H2l Hfl Hopstop n Hd) as [n1 E1].
      rewrite E1 in Hd |- *.
      destruct (factorLoop_iter tokens (primary tokens fuel) n1 _ _ op o
                  Hop eq_refl Ho Hd) as [n2 E2].
      rewrite E2 in Hd |- *. exists n2.
      destruct (IHr Hwr fuel (pre ++ tl ++ [op])%list rest _ Htokr)
        as (H1r & _ & _).
      rewrite Hstop, Hstart in H1r.
      now rewrite (bind_step _ _ _ _ _
                     (H1r Hpr Hrest (bind_defined _ _ _ Hd))). }
    split; [exact H2|].
    intros Hrest n Hd.
    destruct (stopsFactor_inv _ Hrest) as (t & Ht & E & Hp).
    destruct (isMultiplicative o) eqn:Ho.
    + apply termG_of_factorG with t; auto.
    + destruct (IHl Hwl fuel pre (op :: tr ++ rest) off Htokl)
        as (_ & _ & H3l).
      destruct (H3l ltac:(exists (Operator o); split;
                          [reflexivity | destruct o; try discriminate;
                                         reflexivity]) n Hd)
        as [n1 E1].
      rewrite E1 in Hd |- *.
      destruct (termLoop_iter tokens (primary tokens fuel) n1 _ _ op o
                  Hop eq_refl Ho Hd) as [n2 E2].
      rewrite E2 in Hd |- *. exists n2.
      destruct (IHr Hwr fuel (pre ++ tl ++ [op])%list rest _ Htokr)
        as (_ & H2r & _).
      rewrite Hstop, Hstart in H2r.
      assert (Ef : factor tokens (primary tokens fuel)
                     (S (List.length pre + List.length (flattenE l)))
                   = Ok (toASTE r,
                         List.length pre
                         + List.length (flattenE l
                                        ++ (LOperator o, ws) :: flattenE r))).
      { apply (factorLoop_then_factor tokens (primary tokens fuel) _ _ _ t).
        - apply H2r; [exact Hlevel | assumption].
        - now apply Hend.
        - exact E.
        - now apply bind_defined in Hd. }
      now rewrite (bind_step _ _ _ _ _ Ef).
Qed.

End ExprInduction.

Lemma wellFormedDice_wellSpelled (d : DiceText) :
  wellFormedDice d = true -> wellSpelled (flattenDice d) = true.
Proof.
  unfold wellFormedDice, flattenDice, isDigits. intros H.
  apply andb_true_iff in H as [H Hws3].
  apply andb_true_iff in H as [H Hsides].
  apply andb_true_iff in H as [Hcount Hws2].
  assert (Htail : wellSpelled [(LDice, afterD d);
                               (LNumber (sidesText d), afterSides d)] = true).
  { cbn [wellSpelled]. rewrite Hws2, Hws3, Hsides. cbn [andb].
    now destruct (afterSides d). }
  destruct (countText d) as [[count ws]|]; [|exact Htail].
  apply andb_true_iff in Hcount as [Hcount Hws1].
  apply (wellSpelled_app [(LNumber count, ws)]); [|exact Htail|reflexivity].
  cbn [wellSpelled]. rewrite Hws1, Hcount. cbn [andb]. now destruct ws.
Qed.

Lemma wellFormedE_wellSpelled (e : Expr) :
  wellFormedE e = true -> wellSpelled (flattenE e) = true.
Proof.
  induction e as [digits ws|d|d short m ws operand IH|ws1 e IH ws2
                  |l IHl o ws r IHr];
    cbn [wellFormedE flattenE]; intros H.
  - apply andb_true_iff in H as [H Hws]. unfold isDigits in H.
    cbn [wellSpelled]. rewrite Hws, H. cbn [andb].
    destruct ws; reflexivity.
  - now apply wellFormedDice_wellSpelled.
  - apply andb_true_iff in H as [H _].
    apply andb_true_iff in H as [H Ho].
    apply andb_true_iff in H as [Hd Hws].
    apply wellSpelled_app;
      [now apply wellFormedDice_wellSpelled | | now destruct short].
    cbn [wellSpelled]. rewrite Hws, (IH Ho). now destruct short.
  - apply andb_true_iff in H as [H Hws2].
    apply andb_true_iff in H as [Hws1 He].
    cbn [wellSpelled]. rewrite Hws1. cbn [andb].
    apply wellSpelled_app; [now apply IH | | reflexivity].
    cbn [wellSpelled]. now rewrite Hws2.
  - apply andb_true_iff in H as [H _].
    apply andb_true_iff in H as [H Hr].
    apply andb_true_iff in H as [Hl Hws].
    apply wellSpelled_app; [now apply IHl | | reflexivity].
    cbn [wellSpelled]. rewrite Hws. cbn [andb]. now apply IHr.
Qed.

(** The tokens of a written expression, and [EOF], give its tree, and no
    warning. *)
Lemma parse_writtenE (e : Expr) (off stop : nat) :
  wellFormedE e = true ->
  parse (push (tokensAt off (flattenE e)) (baseToken EOF "" stop))
  = Ok (toASTE e, []).
Proof.
  intros Hwf. unfold push.
  set (eof := baseToken EOF "" stop).
  set (tokens := (tokensAt off (flattenE e) ++ [eof])%list).
  destruct (parse_expr tokens e Hwf (parseFuel tokens) [] [eof] off eq_refl)
    as (_ & _ & H3).
  assert (Hrest : stopsFactor [eof]) by (exists EOF; split; reflexivity).
  assert (Heof : nth_error tokens (List.length (flattenE e)) = Some eof).
  { apply (nth_error_stop tokens [] (tokensAt off (flattenE e)) [eof]);
      [reflexivity | apply tokensAt_length | reflexivity]. }
  pose proof (termLoop_then_term tokens (primary tokens (parseFuel tokens))
                _ _ _ eof (H3 Hrest) Heof eq_refl
                (topTerm_terminates tokens)) as Et.
  unfold parse. fold (topTerm tokens).
  rewrite (bind_step _ _ _ _ _ Et).
  cbn [List.length Nat.add]. unfold bind.
  rewrite (peek_at _ _ _ Heof). reflexivity.
Qed.

(** X21.  Every expression of the grammar is read as it is written: a dice
    expression made of numbers, dice terms ([NdM] or [dM]), dice terms with
    a keep modifier ([kh], [kl], [h] or [l]) and its operand, parentheses
    and the four operators, written with white space at will before and
    after every lexeme, is lexed without an error and parsed into its own
    tree, in which a count that is not written is 1, [*] and [/] bind
    tighter than [+] and [-], and all four associate to the left; the
    parser warns about no token left over. *)
Theorem dice_expressions_are_parsed (e : Expr) (lead : string) :
  wellFormedE e = true -> allOf isSpace lead = true ->
  exists tokens,
    lex (lead ++ writeE e) = Ok tokens
    /\ List.length tokens = S (List.length (flattenE e))
    /\ parse tokens = Ok (toASTE e, [])
    /\ parseExpression (lead ++ writeE e) = Ok (toASTE e).
Proof.
  intros Hwf Hlead.
  pose proof (lex_spelled lead (flattenE e) Hlead
                (wellFormedE_wellSpelled e Hwf)) as El.
  fold (writeE e) in El.
  pose proof (parse_writtenE e (String.length lead)
                (String.length (lead ++ writeE e)) Hwf) as Ep.
  eexists. split; [exact El|]. split; [|split].
  - unfold push. rewrite length_app, tokensAt_length. cbn [List.length]. lia.
  - exact Ep.
  - unfold parseExpression. now rewrite El, Ep.
Qed.

Lemma dice_expressions_are_parsed_witness :
  exists tokens,
    lex (" " ++ writeE keepPlusProduct) = Ok tokens
    /\ List.length tokens = S (List.length (flattenE keepPlusProduct))
    /\ parse tokens = Ok (toASTE keepPlusProduct, [])
    /\ parseExpression (" " ++ writeE keepPlusProduct)
       = Ok (toASTE keepPlusProduct).
Proof.
  apply (dice_expressions_are_parsed keepPlusProduct " "); reflexivity.
Defined.

(** The expression [keepPlusProduct] is written as a string of the dice
    notation, and stands for the tree that keeps the highest of two dice
    and multiplies before it adds. *)
Example write_keepPlusProduct :
  writeE keepPlusProduct = "2d6kh1 + (3 * d4)"
  /\ toASTE keepPlusProduct
     = BinaryOpNode
         (DiceModifierNode (mkDice 2 6) KEEP_HIGHEST (NumberNode 1))
         PLUS
         (GroupingNode (BinaryOpNode (NumberNode 3) STAR
                                     (Dice (mkDice 1 4)))).
Proof. split; reflexivity. Qed.

(* ================================================================== *)
(** * The keep count 0 *)

(** C10.  When the keep count evaluates to 0, [KEEP_LOWEST] returns 0, the
    sum of an empty slice, and [KEEP_HIGHEST] returns the sum of the whole
    sorted roll array, which holds all the rolls of the dice term:
    [slice(-0)] is [slice(0)].  When the rolls are whole numbers, with a
    sum of at most 2^53, that sum is the result of the dice term. *)
Theorem keep_zero_lowest_nothing_highest_all :
  forall (St : Type) (random : Random St) (numberToString : number -> string)
         (l : DiceNode) (r : ASTNode) (s s1 s2 : St)
         (left right : Result) (q : Q),
    evaluateDice St random numberToString l s = Ok (left, s1) ->
    evaluate St random numberToString r s1 = Ok (right, s2) ->
    result right = Num q -> (q == 0)%Q ->
    exists xs,
      rolls left = Some xs
      /\ List.length xs = N.to_nat (numDice l)
      /\ evaluate St random numberToString (DiceModifierNode l KEEP_LOWEST r) s
         = Ok (mkResult (Num 0%Q) None
                 (explanation left ++ "kl" ++ explanation right), s2)
      /\ evaluate St random numberToString
           (DiceModifierNode l KEEP_HIGHEST r) s
         = Ok (mkResult (sum (toSorted xs)) None
                 (explanation left ++ "kh" ++ explanation right), s2)
      /\ Permutation (toSorted xs) xs
      /\ result left = sum xs
      /\ forall ks, wholeRolls xs ks ->
                    sum (toSorted xs) = ofN (total ks)
                    /\ result left = ofN (total ks).
Proof.
  intros St random nts l r s s1 s2 left right q E1 E2 Hq H0.
  destruct (evaluateDice_rolls _ _ _ _ _ _ _ E1) as (xs & Hx & Hr & Hl).
  exists xs. split; [assumption|]. split; [assumption|].
  rewrite !(evaluate_modifier _ _ _ _ _ _ _ _ _ _ _ _ E1 E2 Hx), Hq.
  rewrite (sliceFrom_neg_zero _ _ H0), (sliceRange_zero _ _ H0).
  split; [reflexivity|]. split; [reflexivity|].
  split; [apply toSorted_perm|]. split; [assumption|].
  intros ks [Hks _]. rewrite Hr, (sum_perm _ _ (toSorted_perm xs)), Hks.
  split; apply sum_ofN.
Qed.

Lemma keep_zero_lowest_nothing_highest_all_witness :
  exists xs,
    rolls (mkResult (Num 8) (Some [ofN 1; ofN 2; ofN 5]) "[1 + 2 + 5]")
    = Some xs
    /\ List.length xs = N.to_nat (numDice threeD6)
    /\ evaluate (list number) sequence showNumber (threeD6keep KEEP_LOWEST)
                [ofN 1; ofN 2; ofN 5]
       = Ok (mkResult (Num 0%Q) None ("[1 + 2 + 5]" ++ "kl" ++ "0"), [])
    /\ evaluate (list number) sequence showNumber (threeD6keep KEEP_HIGHEST)
                [ofN 1; ofN 2; ofN 5]
       = Ok (mkResult (sum (toSorted xs)) None
               ("[1 + 2 + 5]" ++ "kh" ++ "0"), [])
    /\ Permutation (toSorted xs) xs
    /\ Num 8 = sum xs
    /\ forall ks, wholeRolls xs ks ->
                  sum (toSorted xs) = ofN (total ks)
                  /\ Num 8 = ofN (total ks).
Proof.
  apply (keep_zero_lowest_nothing_highest_all (list number) sequence
           showNumber threeD6 (NumberNode 0) [ofN 1; ofN 2; ofN 5] [] []
           (mkResult (Num 8) (Some [ofN 1; ofN 2; ofN 5]) "[1 + 2 + 5]")
           (mkResult (Num 0) None "0") 0%Q); reflexivity.
Defined.

(** The rolls 1, 2, 5 of the tests are whole rolls. *)
Example wholeRolls_tests :
  wholeRolls [ofN 1; ofN 2; ofN 5] [1; 2; 5]%N.
Proof. split; [reflexivity | vm_compute; discriminate]. Qed.

(* ================================================================== *)
(** * Input after a complete expression *)

Lemma stopsTerm_stopsFactor (t : Token) (rest : list Token) :
  stopsTerm t = true ->
  stopsFactor (t :: rest)
  /\ includes [Operator MINUS; Operator PLUS] (type t) = false.
Proof.
  unfold stopsTerm. intros H. split.
  - exists (type t). split; [reflexivity|].
    destruct (type t) as [[]|[]| | | | |]; try discriminate; reflexivity.
  - destruct (type t) as [[]|[]| | | | |]; try discriminate; reflexivity.
Qed.

(** The tokens of a written expression, and then a token that continues
    no term, give the tree of the expression, whatever comes after that
    token. *)
Lemma parse_trailing (e : Expr) (off : nat) (t : Token) (rest : list Token) :
  wellFormedE e = true -> stopsTerm t = true ->
  parse (tokensAt off (flattenE e) ++ t :: rest)
  = Ok (toASTE e, parseWarning t).
Proof.
  intros Hwf Ht.
  set (tokens := (tokensAt off (flattenE e) ++ t :: rest)%list).
  destruct (parse_expr tokens e Hwf (parseFuel tokens) [] (t :: rest) off
              eq_refl) as (_ & _ & H3).
  destruct (stopsTerm_stopsFactor t rest Ht) as [Hrest Hadd].
  assert (Hnth : nth_error tokens (List.length (flattenE e)) = Some t).
  { apply (nth_error_stop tokens [] (tokensAt off (flattenE e)) (t :: rest));
      [reflexivity | apply tokensAt_length | reflexivity]. }
  pose proof (termLoop_then_term tokens (primary tokens (parseFuel tokens))
                _ _ _ t (H3 Hrest) Hnth Hadd
                (topTerm_terminates tokens)) as Et.
  now apply parse_of_topTerm with (List.length (flattenE e)).
Qed.

Lemma lexemeToken_type (l : Lexeme) (off : nat) :
  type (lexemeToken l off) = type (lexemeToken l 0).
Proof. now destruct l. Qed.

(** C7.  After a complete expression of the grammar, a token that
    continues no term (a number, a parenthesis or [EOF]) and all the
    tokens after it are left unread: [parse] returns the tree of the
    expression, with a warning when that token is not [EOF] and nothing
    else, and [roll] gives on the whole string what it gives on the
    expression alone. *)
Theorem trailing_input_is_ignored :
  forall (e : Expr),
    wellFormedE e = true ->
    (forall (off : nat) (t : Token) (rest : list Token),
        stopsTerm t = true ->
        parse (tokensAt off (flattenE e) ++ t :: rest)
        = Ok (toASTE e, parseWarning t))
    /\ (forall (lead : string) (l : Lexeme) (ws : string)
               (ls : list Spelled),
           allOf isSpace lead = true ->
           wellSpelled (flattenE e ++ (l, ws) :: ls) = true ->
           stopsTerm (lexemeToken l 0) = true ->
           parseExpression (lead ++ spell (flattenE e ++ (l, ws) :: ls))
           = Ok (toASTE e)
           /\ forall (St : Type) (random : Random St)
                     (numberToString : number -> string)
                     (maxRolls : option number) (s : St),
               roll St random numberToString
                    (lead ++ spell (flattenE e ++ (l, ws) :: ls)) maxRolls s
               = roll St random numberToString (lead ++ writeE e)
                      maxRolls s).
Proof.
  intros e Hwf. split; [intros off t rest Ht; now apply parse_trailing|].
  intros lead l ws ls Hlead Hw Hl.
  assert (Ep : parseExpression (lead ++ spell (flattenE e ++ (l, ws) :: ls))
               = Ok (toASTE e)).
  { unfold parseExpression. rewrite (lex_spelled _ _ Hlead Hw).
    destruct (tokensAt_app (flattenE e) ((l, ws) :: ls) (String.length lead))
      as [off' Eapp].
    unfold push. rewrite Eapp. cbn [tokensAt]. rewrite <- app_assoc.
    cbn [app]. rewrite parse_trailing; [reflexivity | exact Hwf |].
    unfold stopsTerm in *. now rewrite lexemeToken_type. }
  split; [exact Ep|].
  intros St random nts maxRolls s.
  rewrite (roll_parseExpression _ _ _ _ _ _ _ Ep).
  assert (Ee : parseExpression (lead ++ writeE e) = Ok (toASTE e)).
  { unfold parseExpression, writeE.
    rewrite (lex_spelled _ _ Hlead (wellFormedE_wellSpelled e Hwf)).
    now rewrite parse_writtenE. }
  now rewrite (roll_parseExpression _ _ _ _ _ _ _ Ee).
Qed.

Lemma trailing_input_is_ignored_witness :
  (forall (off : nat) (t : Token) (rest : list Token),
      stopsTerm t = true ->
      parse (tokensAt off (flattenE oneE) ++ t :: rest)
      = Ok (toASTE oneE, parseWarning t))
  /\ (forall (lead : string) (l : Lexeme) (ws : string) (ls : list Spelled),
         allOf isSpace lead = true ->
         wellSpelled (flattenE oneE ++ (l, ws) :: ls) = true ->
         stopsTerm (lexemeToken l 0) = true ->
         parseExpression (lead ++ spell (flattenE oneE ++ (l, ws) :: ls))
         = Ok (toASTE oneE)
         /\ forall (St : Type) (random : Random St)
                   (numberToString : number -> string)
                   (maxRolls : option number) (s : St),
             roll St random numberToString
                  (lead ++ spell (flattenE oneE ++ (l, ws) :: ls)) maxRolls s
             = roll St random numberToString (lead ++ writeE oneE)
                    maxRolls s).
Proof.
  apply (trailing_input_is_ignored oneE). reflexivity.
Defined.

(** C7, where it fails.  ["1"] is a complete expression, and so are
    ["2d6"] and ["1"] again; after them an operator, a [d] after a number
    and a keep modifier after a dice term continue the term, and the
    parser throws on what it finds next: [roll] fails on ["1 +"], ["1 d"],
    ["2d6 kh"] and ["1 * )"].  After ["1 + 2"] the parenthesis is left
    unread. *)
Lemma parse_reads_on_after_a_complete_term :
  parseExpression "1" = Ok (NumberNode 1)
  /\ lex "1 +"
     = Ok (tokensAt 0 (flattenE oneE)
           ++ [baseToken PLUS "+" 2; baseToken EOF "" 3])%list
  /\ parse (tokensAt 0 (flattenE oneE) ++ [baseToken EOF "" 1])%list
     = Ok (NumberNode 1, [])
  /\ parse (tokensAt 0 (flattenE oneE)
            ++ [baseToken PLUS "+" 2; baseToken EOF "" 3])%list
     = Throw (Error "Unexpected EOF at offset 3")
  /\ rollSeq "1 +" [] = Throw (Error "Unexpected EOF at offset 3")
  /\ rollSeq "1 d" [] = Throw (Error "Expected NUMBER at offset 3")
  /\ parseExpression "2d6" = Ok (Dice (mkDice 2 6))
  /\ rollSeq "2d6 kh" [ofN 1; ofN 2]
     = Throw (Error "Unexpected EOF at offset 6")
  /\ rollSeq "1 * )" [] = Throw (Error "Unexpected PAREN_CLOSE at offset 4")
  /\ rollSeq "1 + 2 )" [] = Ok (mkResult (Num 3) None "1 + 2", []).
Proof. repeat split; reflexivity. Qed.
